(** * taildrop: the deferred file-deletion scheduler ([fileDeleter])

    A shallow embedding of [taildrop/delete.go] and the properties of its
    queue, its sweep and its cold-start scan.

    The Go code runs under one mutex ([d.mu]); every critical section is
    modelled as one atomic state transformer on a [World], which holds the
    deleter, the file system, the clock reading, the allocator of list
    elements and the trace of the effects performed so far.  A call of a nil
    function value is the only run-time panic of this code; it is the failure
    of the monad [M].

    The file goes on with [ipn/prefs.go]: the comparison and the edits of
    the preferences, the control URL, the exit-node routes on their backing
    array and the choice of an exit node. *)

From Stdlib Require Import ZArith Lia.
From stdpp Require Import base option strings list gmap sorting.

#[local] Set Warnings "-clear-no-such-hyp".

Local Open Scope Z_scope.

(** ** Go's [time.Duration] and [time.Time] *)

(** [time.Duration] is an [int64] count of nanoseconds. *)
Definition minDuration : Z := - 2 ^ 63.
Definition maxDuration : Z := 2 ^ 63 - 1.

(** Two's complement wrap-around of [int64] arithmetic. *)
Definition wrap64 (z : Z) : Z := (z + 2 ^ 63) mod 2 ^ 64 - 2 ^ 63.

(** [a - b] on two [Duration] values. *)
Definition Duration_sub (a b : Z) : Z := wrap64 (a - b).

Definition Nanosecond : Z := 1.
Definition Second : Z := 1000000000 * Nanosecond.
Definition Minute : Z := 60 * Second.
Definition Hour : Z := 60 * Minute.

(** An instant ([time.Time]) is its number of nanoseconds on the time line.
    [t.Sub(u)] is the duration [t - u], saturated to the range of
    [Duration]. *)
Definition Time_Sub (t u : Z) : Z :=
  let d := t - u in
  if d <? minDuration then minDuration
  else if maxDuration <? d then maxDuration
  else d.

(** [deleteDelay] is the amount of time to wait before we delete a file. *)
Definition deleteDelay : Z := Hour.

(** ** Go's [strings] functions used by the deleter *)

Module strings.

(** [s[i:]] *)
Definition slice_from (s : string) (i : nat) : string :=
  String.substring i (String.length s - i) s.

(** [s[:i]] *)
Definition slice_to (s : string) (i : nat) : string :=
  String.substring 0 i s.

(** [len(s) >= len(suffix) && s[len(s)-len(suffix):] == suffix] *)
Definition HasSuffix (s suffix : string) : bool :=
  (String.length suffix <=? String.length s)%nat &&
  String.eqb (slice_from s (String.length s - String.length suffix)) suffix.

(** [TrimSuffix] returns [s] without the provided trailing suffix string;
    if [s] does not end with [suffix], [s] is returned unchanged. *)
Definition TrimSuffix (s suffix : string) : string :=
  if HasSuffix s suffix
  then slice_to s (String.length s - String.length suffix)
  else s.

(** [CutSuffix] returns [s] without the suffix and reports whether it
    found the suffix. *)
Definition CutSuffix (s suffix : string) : string * bool :=
  if HasSuffix s suffix
  then (slice_to s (String.length s - String.length suffix), true)
  else (s, false).

(** [Contains] reports whether [substr] is within [s]. *)
Fixpoint Contains (s substr : string) : bool :=
  String.prefix substr s ||
  match s with
  | EmptyString => false
  | String _ s' => Contains s' substr
  end.

End strings.

(** ** The operating system *)

(** The errors [os.Remove] can report. [os.IsNotExist] holds of [ENOENT]. *)
Inductive oserror := ENOENT | EACCES | EBUSY | EPERM | EIO.

Definition os_IsNotExist (err : oserror) : bool :=
  match err with ENOENT => true | _ => false end.

(** The file system is a parameter: the deleter only calls [os.Remove] on
    paths built with [filepath.Join]; [None] is Go's [nil] error. *)
Class OS (FS : Type) := {
  os_Remove : string → FS → option oserror * FS;
  filepath_Join : string → string → string
}.

(** The file-name conventions of taildrop (constants of the package that
    are declared outside [delete.go]). *)
Class Suffixes := {
  partialSuffix : string;
  deletedSuffix : string
}.

(** A small file system to run the deleter on: [files] exist, the paths in
    [locked] cannot be removed, and [filepath.Join] is the concatenation
    with a separator (all it does on a clean directory and a base name). *)
Record SimFS := {
  files : list string;
  locked : list string
}.

Definition sim_Remove (path : string) (fs : SimFS) : option oserror * SimFS :=
  if decide (path ∈ locked fs) then (Some EACCES, fs)
  else if decide (path ∈ files fs)
  then (None, {| files := filter (λ p, p ≠ path) (files fs);
                 locked := locked fs |})
  else (Some ENOENT, fs).

Definition simOS : OS SimFS := {|
  os_Remove := sim_Remove;
  filepath_Join := λ d n, d +:+ "/" +:+ n
|}.

(** Modelled from the spec: the two markers are constants of the package
    that [delete.go] does not declare; the files of the cold-start
    scenario are [fileA.partial] and [fileB.deleted]. *)
Definition simSuffixes : Suffixes := {|
  partialSuffix := ".partial";
  deletedSuffix := ".deleted"
|}.

(** [fs.DirEntry], as far as the scan looks at it. *)
Record DirEntry := {
  de_Name : string;
  de_IsRegular : bool        (* [de.Type().IsRegular()] *)
}.

(** ** The data model *)

(** [deleteFile] is a specific file to delete after [deleteDelay]. *)
Record deleteFile := {
  name : string;
  inserted : Z
}.

(** A [*list.Element] of [container/list]: its address and the
    [*deleteFile] it holds. *)
Record Element := {
  eptr : nat;
  Value : deleteFile
}.

(** [fileDeleter] manages asynchronous deletion of files after
    [deleteDelay].  [event = None] is a nil hook; [shutdownErr] is
    [d.shutdownCtx.Err() != nil].  The log sink and the clock live in the
    [World]. *)
Record fileDeleter := {
  event : option (string → unit);
  dir : string;
  queue : list Element;
  byName : gmap string nat;
  shutdownErr : bool
}.

(** The goroutines started through [d.group.Go]. *)
Inductive task :=
| InitScan                       (* the cold-start scan of [Init] *)
| WaitAndDelete (wait : Z).      (* [d.waitAndDelete(wait)] *)

(** What the deleter does to the outside world. *)
Inductive effect :=
| EvEvent (s : string)                        (* [d.event(s)] *)
| EvLogf (format : string) (err : oserror)    (* [d.logf(format, redactError(err))] *)
| EvRemove (path : string) (res : option oserror)  (* [os.Remove(path)] and its result *)
| EvGo (t : task)                             (* [d.group.Go(...)] *)
| EvNewTimer (wait : Z)                       (* [d.clock.NewTimer(wait)] *)
| EvTimerStop                                 (* [tc.Stop()] *)
| EvEmptySignal                               (* the [select] of [Remove] *)
| EvCancel                                    (* [d.shutdown()] *)
| EvGroupWait.                                (* [d.group.Wait()] *)

(** What wakes the [select] of [waitAndDelete]. *)
Inductive wake :=
| ShutdownDone                   (* [<-d.shutdownCtx.Done()] *)
| EmptySignal                    (* [<-d.emptySignal] *)
| TimerFired (now : Z).          (* [now := <-ch] *)

(** ** The monad of critical sections

    A state transformer that can panic ([None]). *)

Definition M (W A : Type) : Type := W → option (A * W).

Global Instance M_ret {W} : MRet (M W) := λ A a w, Some (a, w).

Global Instance M_bind {W} : MBind (M W) := λ A B k m w,
  match m w with
  | Some (a, w') => k a w'
  | None => None
  end.

Definition panic {W A} : M W A := λ _, None.

(** ** [container/list] on the queue *)

(** [l.Remove(e)]: unlinks the element at address [e], if it is in [l]. *)
Definition list_Remove (e : nat) (l : list Element) : list Element :=
  filter (λ x, eptr x ≠ e) l.

(** [l.MoveToBack(e)]: if [e] is an element of [l], it becomes the last
    one; the list is not modified otherwise. *)
Definition list_MoveToBack (e : nat) (l : list Element) : list Element :=
  match filter (λ x, eptr x = e) l with
  | x :: _ => list_Remove e l ++ [x]
  | [] => l
  end.

(** [elem.Value.inserted = now], through the pointer [e]. *)
Definition set_inserted (e : nat) (now : Z) (l : list Element) : list Element :=
  (λ x, if decide (eptr x = e)
        then {| eptr := eptr x;
                Value := {| name := name (Value x); inserted := now |} |}
        else x) <$> l.

(** * ipn: the preferences of the node agent ([Prefs])

    [ipn/prefs.go]: the comparison of two [Prefs], the edits of a
    [MaskedPrefs], the control URL, the exit-node routes and the choice of
    an exit node.  A pointer that may be nil is an [option]; a function that
    can panic returns an [option], [None] being the panic. *)

(** ** Go's [net/netip] values used by the preferences *)

Module netip.

(** An address: the zero [Addr{}], an IPv4 address or an IPv6 address with
    its zone.  Go compares two addresses with [==]. *)
Inductive Addr :=
| AddrZero
| Addr4 (a : N)
| Addr6 (a : N) (zone : string).

#[global] Instance Addr_eq_dec : EqDecision Addr.
Proof. solve_decision. Defined.

Definition isZero (ip : Addr) : bool :=
  match ip with AddrZero => true | _ => false end.

Definition BitLen (ip : Addr) : Z :=
  match ip with AddrZero => 0 | Addr4 _ => 32 | Addr6 _ _ => 128 end.

Definition withoutZone (ip : Addr) : Addr :=
  match ip with Addr6 a _ => Addr6 a "" | _ => ip end.

(** A prefix keeps its length plus one in a [uint8]; zero is the invalid
    prefix, of which [Bits] is [-1]. *)
Record Prefix := { ip : Addr; bitsPlusOne : N }.

#[global] Instance Prefix_eq_dec : EqDecision Prefix.
Proof. solve_decision. Defined.

Definition Bits (p : Prefix) : Z := Z.of_N (bitsPlusOne p) - 1.

Definition PrefixFrom (a : Addr) (bits : Z) : Prefix :=
  {| ip := withoutZone a;
     bitsPlusOne :=
       if negb (isZero a) && (0 <=? bits) && (bits <=? BitLen a)
       then Z.to_N bits + 1 else 0%N |}.

(** [netaddr.IPv4(a, b, c, d)] is [netip.AddrFrom4] of the four bytes. *)
Definition IPv4 (a b c d : N) : Addr :=
  Addr4 (a * 2 ^ 24 + b * 2 ^ 16 + c * 2 ^ 8 + d)%N.

Definition IPv6Unspecified : Addr := Addr6 0 "".

End netip.

(** ** Slices and their backing arrays

    A slice is a window on an array of the heap.  [append] writes in place
    while the capacity allows it and moves the elements to a new array
    otherwise; how much larger than needed the new array is, is left to the
    runtime, here to [growth]. *)

Module slices.
Section Slice.
Context {A : Type} (zero : A) (growth : nat → nat).

Record slice := { ptr : nat; len : nat; cap : nat }.

Definition heap := gmap nat (list A).

Definition array (h : heap) (s : slice) : list A := default [] (h !! ptr s).

(** The elements of [s]. *)
Definition elems (h : heap) (s : slice) : list A := take (len s) (array h s).

(** [s[i]]; out of range it panics. *)
Definition index (h : heap) (s : slice) (i : nat) : option A :=
  if decide (i < len s)%nat then array h s !! i else None.

(** [s[:0]] *)
Definition reslice0 (s : slice) : slice :=
  {| ptr := ptr s; len := 0; cap := cap s |}.

(** [append(s, xs...)] *)
Definition append (h : heap) (s : slice) (xs : list A) : heap * slice :=
  let n := (len s + length xs)%nat in
  if decide (n ≤ cap s)%nat then
    (<[ptr s := take (len s) (array h s) ++ xs ++ drop n (array h s)]> h,
     {| ptr := ptr s; len := n; cap := cap s |})
  else
    let q := fresh (dom h) in
    (<[q := elems h s ++ xs ++ replicate (growth n) zero]> h,
     {| ptr := q; len := n; cap := (n + growth n)%nat |}).

End Slice.
End slices.

Module ipn.

(** [DefaultControlURL] is the URL base of the control plane. *)
Definition DefaultControlURL : string := "https://controlplane.tailscale.com".

(** A value of type [any], as far as [IsLoginServerSynonym] looks at it: a
    [string], or a value of another dynamic type. *)
Inductive any :=
| any_string (s : string)
| any_other.

(** [val == "..."]: an [any] equals a string constant if it holds a
    [string] and the strings are equal. *)
Definition any_eq_string (val : any) (s : string) : bool :=
  match val with
  | any_string t => bool_decide (t = s)
  | any_other => false
  end.

(** [IsLoginServerSynonym] reports whether a URL is a drop-in replacement
    for the primary Tailscale login server. *)
Definition IsLoginServerSynonym (val : any) : bool :=
  any_eq_string val "https://login.tailscale.com" ||
  any_eq_string val "https://controlplane.tailscale.com".

(** [compareStrings] and [compareIPNets]: the lengths, then the elements by
    index.  [a[i]] and [b[i]] panic out of range. *)
Fixpoint compare_loop {A} `{EqDecision A} (a b : list A) (idx : list nat)
  : option bool :=
  match idx with
  | [] => Some true
  | i :: idx =>
      x ← a !! i; y ← b !! i;
      if decide (x ≠ y) then Some false else compare_loop a b idx
  end.

Definition compareIPNets (a b : list netip.Prefix) : option bool :=
  if decide (length a ≠ length b) then Some false
  else compare_loop a b (seq 0 (length a)).

Definition compareStrings (a b : list string) : option bool :=
  if decide (length a ≠ length b) then Some false
  else compare_loop a b (seq 0 (length a)).

(** [AutoUpdatePrefs] are the auto update settings for the node agent. *)
Record AutoUpdatePrefs := { Check : bool; Apply : bool }.

#[global] Instance AutoUpdatePrefs_eq_dec : EqDecision AutoUpdatePrefs.
Proof. solve_decision. Defined.

(** The peers and the addresses of the node, as [exitNodeIPOfArg] reads
    them from [ipnstate.Status].  [Peer] is a Go map of pointers, none of
    them nil: its entries are listed in the order in which the [range] loop
    happens to visit them. *)
Record PeerStatus := {
  DNSName : string;
  TailscaleIPs : list netip.Addr;
  ExitNodeOption : bool
}.

Record Status := {
  BackendState : string;
  Self_TailscaleIPs : list netip.Addr;
  Peer : list PeerStatus;
  MagicDNSSuffix : string
}.

(** The errors of [exitNodeIPOfArg] and [SetExitNodeIP]. *)
Inductive error :=
| ErrExitNodeIDAlreadySet
| ErrInvalid
| ErrNoNodeWithIP (ip : netip.Addr)
| ErrIPNotExitNode (ip : netip.Addr)
| ExitNodeLocalIPError (hostOrIP : string)
| ErrNoTailscaleIP (s : string)
| ErrNameNotExitNode (s : string)
| ErrInvalidValue (s : string)
| ErrAmbiguous (s : string).

Section Prefs.

(** [persist.Persist] and its method [Equals], which takes nil on both
    sides. *)
Context {persist_Persist : Type}.
Context (Persist_Equals : option persist_Persist → option persist_Persist → bool).

(** [netip.ParseAddr], [dnsname.TrimSuffix] and [strings.EqualFold]. *)
Context (ParseAddr : string → option netip.Addr).
Context (dnsname_TrimSuffix : string → string → string).
Context (EqualFold : string → string → bool).

(** The capacity that the runtime gives to a grown slice, beyond what is
    needed. *)
Context (growth : nat → nat).

(** [Prefs] are the user modifiable settings of the Tailscale node agent. *)
Record Prefs := {
  ControlURL : string;
  RouteAll : bool;
  AllowSingleHosts : bool;
  ExitNodeID : string;
  ExitNodeIP : netip.Addr;
  ExitNodeAllowLANAccess : bool;
  CorpDNS : bool;
  RunSSH : bool;
  WantRunning : bool;
  LoggedOut : bool;
  ShieldsUp : bool;
  AdvertiseTags : list string;
  Hostname : string;
  NotepadURLs : bool;
  ForceDaemon : bool;
  Egg : bool;
  AdvertiseRoutes : list netip.Prefix;
  NoSNAT : bool;
  NetfilterMode : Z;
  OperatorUser : string;
  ProfileName : string;
  AutoUpdate : AutoUpdatePrefs;
  PostureChecking : bool;
  Persist : option persist_Persist
}.

Record MaskedPrefs := {
  mPrefs : Prefs;
  ControlURLSet : bool;
  RouteAllSet : bool;
  AllowSingleHostsSet : bool;
  ExitNodeIDSet : bool;
  ExitNodeIPSet : bool;
  ExitNodeAllowLANAccessSet : bool;
  CorpDNSSet : bool;
  RunSSHSet : bool;
  WantRunningSet : bool;
  LoggedOutSet : bool;
  ShieldsUpSet : bool;
  AdvertiseTagsSet : bool;
  HostnameSet : bool;
  NotepadURLsSet : bool;
  ForceDaemonSet : bool;
  EggSet : bool;
  AdvertiseRoutesSet : bool;
  NoSNATSet : bool;
  NetfilterModeSet : bool;
  OperatorUserSet : bool;
  ProfileNameSet : bool;
  AutoUpdateSet : bool;
  PostureCheckingSet : bool
}.
(** The zero [Prefs{}]. *)
Definition zeroPrefs : Prefs :=
  {| ControlURL := ""; RouteAll := false; AllowSingleHosts := false;
     ExitNodeID := ""; ExitNodeIP := netip.AddrZero;
     ExitNodeAllowLANAccess := false; CorpDNS := false; RunSSH := false;
     WantRunning := false; LoggedOut := false; ShieldsUp := false;
     AdvertiseTags := []; Hostname := ""; NotepadURLs := false;
     ForceDaemon := false; Egg := false; AdvertiseRoutes := [];
     NoSNAT := false; NetfilterMode := 0; OperatorUser := "";
     ProfileName := ""; AutoUpdate := {| Check := false; Apply := false |};
     PostureChecking := false; Persist := None |}.

(** ** Reflection on [Prefs] and [MaskedPrefs]

    [reflect.Value] of a field, [Value.Bool], [Value.Field(i)] and
    [Value.Set] on the two structs.  [Field] panics out of range, [Bool] on
    a value that is not a [bool], [Set] on a value of another type than the
    field. *)
Inductive Value :=
| VString (s : string)
| VBool (b : bool)
| VAddr (ip : netip.Addr)
| VStrings (l : list string)
| VPrefixes (l : list netip.Prefix)
| VInt (z : Z)
| VAutoUpdate (au : AutoUpdatePrefs)
| VPersist (ps : option persist_Persist)
| VStruct (p : Prefs).

Definition Value_Bool (v : Value) : option bool :=
  match v with VBool b => Some b | _ => None end.

Definition Prefs_Field (p : Prefs) (i : nat) : option Value :=
  match i with
  | 0 => Some (VString (ControlURL p))
  | 1 => Some (VBool (RouteAll p))
  | 2 => Some (VBool (AllowSingleHosts p))
  | 3 => Some (VString (ExitNodeID p))
  | 4 => Some (VAddr (ExitNodeIP p))
  | 5 => Some (VBool (ExitNodeAllowLANAccess p))
  | 6 => Some (VBool (CorpDNS p))
  | 7 => Some (VBool (RunSSH p))
  | 8 => Some (VBool (WantRunning p))
  | 9 => Some (VBool (LoggedOut p))
  | 10 => Some (VBool (ShieldsUp p))
  | 11 => Some (VStrings (AdvertiseTags p))
  | 12 => Some (VString (Hostname p))
  | 13 => Some (VBool (NotepadURLs p))
  | 14 => Some (VBool (ForceDaemon p))
  | 15 => Some (VBool (Egg p))
  | 16 => Some (VPrefixes (AdvertiseRoutes p))
  | 17 => Some (VBool (NoSNAT p))
  | 18 => Some (VInt (NetfilterMode p))
  | 19 => Some (VString (OperatorUser p))
  | 20 => Some (VString (ProfileName p))
  | 21 => Some (VAutoUpdate (AutoUpdate p))
  | 22 => Some (VBool (PostureChecking p))
  | 23 => Some (VPersist (Persist p))
  | _ => None
  end%nat.

Definition Prefs_Field_Set (p : Prefs) (i : nat) (v : Value) : option Prefs :=
  let 'Build_Prefs f0 f1 f2 f3 f4 f5 f6 f7 f8 f9 f10 f11 f12 f13 f14 f15 f16
      f17 f18 f19 f20 f21 f22 f23 := p in
  match i, v with
  | 0, VString x => Some (Build_Prefs x f1 f2 f3 f4 f5 f6 f7 f8 f9 f10 f11 f12
      f13 f14 f15 f16 f17 f18 f19 f20 f21 f22 f23)
  | 1, VBool x => Some (Build_Prefs f0 x f2 f3 f4 f5 f6 f7 f8 f9 f10 f11 f12
      f13 f14 f15 f16 f17 f18 f19 f20 f21 f22 f23)
  | 2, VBool x => Some (Build_Prefs f0 f1 x f3 f4 f5 f6 f7 f8 f9 f10 f11 f12
      f13 f14 f15 f16 f17 f18 f19 f20 f21 f22 f23)
  | 3, VString x => Some (Build_Prefs f0 f1 f2 x f4 f5 f6 f7 f8 f9 f10 f11 f12
      f13 f14 f15 f16 f17 f18 f19 f20 f21 f22 f23)
  | 4, VAddr x => Some (Build_Prefs f0 f1 f2 f3 x f5 f6 f7 f8 f9 f10 f11 f12
      f13 f14 f15 f16 f17 f18 f19 f20 f21 f22 f23)
  | 5, VBool x => Some (Build_Prefs f0 f1 f2 f3 f4 x f6 f7 f8 f9 f10 f11 f12
      f13 f14 f15 f16 f17 f18 f19 f20 f21 f22 f23)
  | 6, VBool x => Some (Build_Prefs f0 f1 f2 f3 f4 f5 x f7 f8 f9 f10 f11 f12
      f13 f14 f15 f16 f17 f18 f19 f20 f21 f22 f23)
  | 7, VBool x => Some (Build_Prefs f0 f1 f2 f3 f4 f5 f6 x f8 f9 f10 f11 f12
      f13 f14 f15 f16 f17 f18 f19 f20 f21 f22 f23)
  | 8, VBool x => Some (Build_Prefs f0 f1 f2 f3 f4 f5 f6 f7 x f9 f10 f11 f12
      f13 f14 f15 f16 f17 f18 f19 f20 f21 f22 f23)
  | 9, VBool x => Some (Build_Prefs f0 f1 f2 f3 f4 f5 f6 f7 f8 x f10 f11 f12
      f13 f14 f15 f16 f17 f18 f19 f20 f21 f22 f23)
  | 10, VBool x => Some (Build_Prefs f0 f1 f2 f3 f4 f5 f6 f7 f8 f9 x f11 f12
      f13 f14 f15 f16 f17 f18 f19 f20 f21 f22 f23)
  | 11, VStrings x => Some (Build_Prefs f0 f1 f2 f3 f4 f5 f6 f7 f8 f9 f10 x
      f12 f13 f14 f15 f16 f17 f18 f19 f20 f21 f22 f23)
  | 12, VString x => Some (Build_Prefs f0 f1 f2 f3 f4 f5 f6 f7 f8 f9 f10 f11 x
      f13 f14 f15 f16 f17 f18 f19 f20 f21 f22 f23)
  | 13, VBool x => Some (Build_Prefs f0 f1 f2 f3 f4 f5 f6 f7 f8 f9 f10 f11 f12
      x f14 f15 f16 f17 f18 f19 f20 f21 f22 f23)
  | 14, VBool x => Some (Build_Prefs f0 f1 f2 f3 f4 f5 f6 f7 f8 f9 f10 f11 f12
      f13 x f15 f16 f17 f18 f19 f20 f21 f22 f23)
  | 15, VBool x => Some (Build_Prefs f0 f1 f2 f3 f4 f5 f6 f7 f8 f9 f10 f11 f12
      f13 f14 x f16 f17 f18 f19 f20 f21 f22 f23)
  | 16, VPrefixes x => Some (Build_Prefs f0 f1 f2 f3 f4 f5 f6 f7 f8 f9 f10 f11
      f12 f13 f14 f15 x f17 f18 f19 f20 f21 f22 f23)
  | 17, VBool x => Some (Build_Prefs f0 f1 f2 f3 f4 f5 f6 f7 f8 f9 f10 f11 f12
      f13 f14 f15 f16 x f18 f19 f20 f21 f22 f23)
  | 18, VInt x => Some (Build_Prefs f0 f1 f2 f3 f4 f5 f6 f7 f8 f9 f10 f11 f12
      f13 f14 f15 f16 f17 x f19 f20 f21 f22 f23)
  | 19, VString x => Some (Build_Prefs f0 f1 f2 f3 f4 f5 f6 f7 f8 f9 f10 f11
      f12 f13 f14 f15 f16 f17 f18 x f20 f21 f22 f23)
  | 20, VString x => Some (Build_Prefs f0 f1 f2 f3 f4 f5 f6 f7 f8 f9 f10 f11
      f12 f13 f14 f15 f16 f17 f18 f19 x f21 f22 f23)
  | 21, VAutoUpdate x => Some (Build_Prefs f0 f1 f2 f3 f4 f5 f6 f7 f8 f9 f10
      f11 f12 f13 f14 f15 f16 f17 f18 f19 f20 x f22 f23)
  | 22, VBool x => Some (Build_Prefs f0 f1 f2 f3 f4 f5 f6 f7 f8 f9 f10 f11 f12
      f13 f14 f15 f16 f17 f18 f19 f20 f21 x f23)
  | 23, VPersist x => Some (Build_Prefs f0 f1 f2 f3 f4 f5 f6 f7 f8 f9 f10 f11
      f12 f13 f14 f15 f16 f17 f18 f19 f20 f21 f22 x)
  | _, _ => None
  end%nat.

Definition MaskedPrefs_Field (m : MaskedPrefs) (i : nat) : option Value :=
  match i with
  | 0 => Some (VStruct (mPrefs m))
  | 1 => Some (VBool (ControlURLSet m))
  | 2 => Some (VBool (RouteAllSet m))
  | 3 => Some (VBool (AllowSingleHostsSet m))
  | 4 => Some (VBool (ExitNodeIDSet m))
  | 5 => Some (VBool (ExitNodeIPSet m))
  | 6 => Some (VBool (ExitNodeAllowLANAccessSet m))
  | 7 => Some (VBool (CorpDNSSet m))
  | 8 => Some (VBool (RunSSHSet m))
  | 9 => Some (VBool (WantRunningSet m))
  | 10 => Some (VBool (LoggedOutSet m))
  | 11 => Some (VBool (ShieldsUpSet m))
  | 12 => Some (VBool (AdvertiseTagsSet m))
  | 13 => Some (VBool (HostnameSet m))
  | 14 => Some (VBool (NotepadURLsSet m))
  | 15 => Some (VBool (ForceDaemonSet m))
  | 16 => Some (VBool (EggSet m))
  | 17 => Some (VBool (AdvertiseRoutesSet m))
  | 18 => Some (VBool (NoSNATSet m))
  | 19 => Some (VBool (NetfilterModeSet m))
  | 20 => Some (VBool (OperatorUserSet m))
  | 21 => Some (VBool (ProfileNameSet m))
  | 22 => Some (VBool (AutoUpdateSet m))
  | 23 => Some (VBool (PostureCheckingSet m))
  | _ => None
  end%nat.

Definition MaskedPrefs_NumField : nat := 24.

(** One round of the loop of [ApplyEdits]. *)
Definition ApplyEdits_step (m : MaskedPrefs) (pv : option Prefs) (i : nat)
  : option Prefs :=
  p ← pv;
  set ← MaskedPrefs_Field m i ≫= Value_Bool;
  if set : bool then
    newFieldValue ← Prefs_Field (mPrefs m) (i - 1);
    Prefs_Field_Set p (i - 1) newFieldValue
  else Some p.

(** [ApplyEdits] mutates [p], assigning fields from [m.Prefs] for each
    [MaskedPrefs] Set field that's true.  The result is the new [*p]. *)
Definition ApplyEdits (p : option Prefs) (m : option MaskedPrefs)
  : option Prefs :=
  p ← p;
  m ← m;
  foldl (ApplyEdits_step m) (Some p) (seq 1 (MaskedPrefs_NumField - 1)).

(** What [ApplyEdits] is to do, field by field: the field of [m.Prefs]
    where the mask of [m] is set, the field of [p] elsewhere. *)
Definition edited (p : Prefs) (m : MaskedPrefs) : Prefs :=
  {|
    ControlURL := if ControlURLSet m then ControlURL (mPrefs m) else
      ControlURL p;
    RouteAll := if RouteAllSet m then RouteAll (mPrefs m) else RouteAll p;
    AllowSingleHosts := if AllowSingleHostsSet m then AllowSingleHosts (mPrefs
      m) else AllowSingleHosts p;
    ExitNodeID := if ExitNodeIDSet m then ExitNodeID (mPrefs m) else
      ExitNodeID p;
    ExitNodeIP := if ExitNodeIPSet m then ExitNodeIP (mPrefs m) else
      ExitNodeIP p;
    ExitNodeAllowLANAccess := if ExitNodeAllowLANAccessSet m then
      ExitNodeAllowLANAccess (mPrefs m) else ExitNodeAllowLANAccess p;
    CorpDNS := if CorpDNSSet m then CorpDNS (mPrefs m) else CorpDNS p;
    RunSSH := if RunSSHSet m then RunSSH (mPrefs m) else RunSSH p;
    WantRunning := if WantRunningSet m then WantRunning (mPrefs m) else
      WantRunning p;
    LoggedOut := if LoggedOutSet m then LoggedOut (mPrefs m) else LoggedOut p;
    ShieldsUp := if ShieldsUpSet m then ShieldsUp (mPrefs m) else ShieldsUp p;
    AdvertiseTags := if AdvertiseTagsSet m then AdvertiseTags (mPrefs m) else
      AdvertiseTags p;
    Hostname := if HostnameSet m then Hostname (mPrefs m) else Hostname p;
    NotepadURLs := if NotepadURLsSet m then NotepadURLs (mPrefs m) else
      NotepadURLs p;
    ForceDaemon := if ForceDaemonSet m then ForceDaemon (mPrefs m) else
      ForceDaemon p;
    Egg := if EggSet m then Egg (mPrefs m) else Egg p;
    AdvertiseRoutes := if AdvertiseRoutesSet m then AdvertiseRoutes (mPrefs m)
      else AdvertiseRoutes p;
    NoSNAT := if NoSNATSet m then NoSNAT (mPrefs m) else NoSNAT p;
    NetfilterMode := if NetfilterModeSet m then NetfilterMode (mPrefs m) else
      NetfilterMode p;
    OperatorUser := if OperatorUserSet m then OperatorUser (mPrefs m) else
      OperatorUser p;
    ProfileName := if ProfileNameSet m then ProfileName (mPrefs m) else
      ProfileName p;
    AutoUpdate := if AutoUpdateSet m then AutoUpdate (mPrefs m) else
      AutoUpdate p;
    PostureChecking := if PostureCheckingSet m then PostureChecking (mPrefs m)
      else PostureChecking p;
    Persist := Persist p
  |}.

Fixpoint IsEmpty_loop (m : MaskedPrefs) (idx : list nat) : option bool :=
  match idx with
  | [] => Some true
  | i :: idx =>
      set ← MaskedPrefs_Field m i ≫= Value_Bool;
      if set : bool then Some false else IsEmpty_loop m idx
  end.

(** [IsEmpty] reports whether there are no masks set or if [m] is nil. *)
Definition MaskedPrefs_IsEmpty (m : option MaskedPrefs) : option bool :=
  match m with
  | None => Some true
  | Some m => IsEmpty_loop m (seq 1 (MaskedPrefs_NumField - 1))
  end.

(** [Equals]; the conjunction is evaluated from the left. *)
Definition Equals (p p2 : option Prefs) : option bool :=
  match p, p2 with
  | None, None => Some true
  | None, Some _ | Some _, None => Some false
  | Some p, Some p2 =>
      if negb (bool_decide (ControlURL p = ControlURL p2) &&
               bool_decide (RouteAll p = RouteAll p2) &&
               bool_decide (AllowSingleHosts p = AllowSingleHosts p2) &&
               bool_decide (ExitNodeID p = ExitNodeID p2) &&
               bool_decide (ExitNodeIP p = ExitNodeIP p2) &&
               bool_decide (ExitNodeAllowLANAccess p =
                            ExitNodeAllowLANAccess p2) &&
               bool_decide (CorpDNS p = CorpDNS p2) &&
               bool_decide (RunSSH p = RunSSH p2) &&
               bool_decide (WantRunning p = WantRunning p2) &&
               bool_decide (LoggedOut p = LoggedOut p2) &&
               bool_decide (NotepadURLs p = NotepadURLs p2) &&
               bool_decide (ShieldsUp p = ShieldsUp p2) &&
               bool_decide (NoSNAT p = NoSNAT p2) &&
               bool_decide (NetfilterMode p = NetfilterMode p2) &&
               bool_decide (OperatorUser p = OperatorUser p2) &&
               bool_decide (Hostname p = Hostname p2) &&
               bool_decide (ForceDaemon p = ForceDaemon p2))
      then Some false else
      routes ← compareIPNets (AdvertiseRoutes p) (AdvertiseRoutes p2);
      if negb routes then Some false else
      tags ← compareStrings (AdvertiseTags p) (AdvertiseTags p2);
      Some (tags &&
            Persist_Equals (Persist p) (Persist p2) &&
            bool_decide (ProfileName p = ProfileName p2) &&
            bool_decide (AutoUpdate p = AutoUpdate p2) &&
            bool_decide (PostureChecking p = PostureChecking p2))
  end.

(** [Prefs.IsEmpty] *)
Definition IsEmpty (p : option Prefs) : option bool :=
  match p with
  | None => Some true
  | Some _ => Equals p (Some zeroPrefs)
  end.

(** [ControlURLOrDefault] returns the coordination server's URL base. *)
Definition ControlURLOrDefault (p : option Prefs) : option string :=
  p ← p;
  if negb (bool_decide (ControlURL p = "")) then
    if negb (bool_decide (ControlURL p = DefaultControlURL)) &&
       IsLoginServerSynonym (any_string (ControlURL p))
    then Some DefaultControlURL
    else Some (ControlURL p)
  else Some DefaultControlURL.

(** [AdminPageURL] returns the admin web site URL for the current
    ControlURL. *)
Definition AdminPageURL (p : option Prefs) : option string :=
  url ← ControlURLOrDefault p;
  let url := if IsLoginServerSynonym (any_string url)
             then "https://login.tailscale.com" else url in
  Some (url +:+ "/admin/machines").

Definition with_AdvertiseRoutes (rs : list netip.Prefix) (p : Prefs) : Prefs :=
  let 'Build_Prefs f0 f1 f2 f3 f4 f5 f6 f7 f8 f9 f10 f11 f12 f13 f14 f15 _
        f17 f18 f19 f20 f21 f22 f23 := p in
  Build_Prefs f0 f1 f2 f3 f4 f5 f6 f7 f8 f9 f10 f11 f12 f13 f14 f15 rs
        f17 f18 f19 f20 f21 f22 f23.

Definition with_ExitNode (id : string) (ip : netip.Addr) (p : Prefs) : Prefs :=
  let 'Build_Prefs f0 f1 f2 _ _ f5 f6 f7 f8 f9 f10 f11 f12 f13 f14 f15 f16
        f17 f18 f19 f20 f21 f22 f23 := p in
  Build_Prefs f0 f1 f2 id ip f5 f6 f7 f8 f9 f10 f11 f12 f13 f14 f15 f16
        f17 f18 f19 f20 f21 f22 f23.

(** The two /0 exit node routes. *)
Definition exitRoute4 : netip.Prefix := netip.PrefixFrom (netip.IPv4 0 0 0 0) 0.
Definition exitRoute6 : netip.Prefix := netip.PrefixFrom netip.IPv6Unspecified 0.

Definition zeroPrefix : netip.Prefix :=
  {| netip.ip := netip.AddrZero; netip.bitsPlusOne := 0 |}.

(** One round of the loop of [SetAdvertiseExitNode]: [all] is read at [i]
    and the route is appended to [p.AdvertiseRoutes], which shares the
    array of [all]. *)
Definition keep_route (all : slices.slice)
    (st : option (slices.heap * slices.slice)) (i : nat)
  : option (slices.heap * slices.slice) :=
  '(h, routes) ← st;
  r ← slices.index h all i;
  if decide (netip.Bits r ≠ 0) then
    Some (slices.append zeroPrefix growth h routes [r])
  else Some (h, routes).

(** [SetAdvertiseExitNode] on the slice [all] of the heap [h]. *)
Definition SetAdvertiseExitNode_slice (runExit : bool)
    (h : slices.heap) (all : slices.slice)
  : option (slices.heap * slices.slice) :=
  '(h, routes) ← foldl (keep_route all) (Some (h, slices.reslice0 all))
                       (seq 0 (slices.len all));
  if negb runExit then Some (h, routes) else
  Some (slices.append zeroPrefix growth h routes [exitRoute4; exitRoute6]).

(** [SetAdvertiseExitNode] mutates [p] (if non-nil) to add or remove the
    two /0 exit node routes.  [p.AdvertiseRoutes] is the slice of the
    elements [AdvertiseRoutes p] on an array that has [spare] behind
    them. *)
Definition SetAdvertiseExitNode (spare : list netip.Prefix) (runExit : bool)
    (p : option Prefs) : option (option Prefs) :=
  match p with
  | None => Some None
  | Some p =>
      let h : slices.heap := {[ 0%nat := AdvertiseRoutes p ++ spare ]} in
      let all := {| slices.ptr := 0; slices.len := length (AdvertiseRoutes p);
                    slices.cap := length (AdvertiseRoutes p ++ spare) |} in
      '(h, routes) ← SetAdvertiseExitNode_slice runExit h all;
      Some (Some (with_AdvertiseRoutes (slices.elems h routes) p))
  end.

(** [peerWithTailscaleIP] returns the peer in [st] with the provided
    Tailscale IP. *)
Fixpoint peerWithTailscaleIP_loop (peers : list PeerStatus) (ip : netip.Addr)
  : option PeerStatus :=
  match peers with
  | [] => None
  | ps :: peers =>
      if existsb (λ ip2, bool_decide (ip = ip2)) (TailscaleIPs ps)
      then Some ps else peerWithTailscaleIP_loop peers ip
  end.

Definition peerWithTailscaleIP (st : Status) (ip : netip.Addr)
  : option PeerStatus :=
  peerWithTailscaleIP_loop (Peer st) ip.

Definition isRemoteIP (st : Status) (ip : netip.Addr) : bool :=
  negb (existsb (λ selfIP, bool_decide (ip = selfIP)) (Self_TailscaleIPs st)).

(** [ClearExitNode] sets the ExitNodeID and ExitNodeIP to their zero
    values. *)
Definition ClearExitNode (p : option Prefs) : option Prefs :=
  p ← p; Some (with_ExitNode "" netip.AddrZero p).

(** The loop of [exitNodeIPOfArg] over the peers: an early [return], or the
    address and the number of matches at the end. *)
Fixpoint match_peers (s : string) (suffix : string) (peers : list PeerStatus)
    (ip : netip.Addr) (matches : nat)
  : (netip.Addr * error) + (netip.Addr * nat) :=
  match peers with
  | [] => inr (ip, matches)
  | ps :: peers =>
      let baseName := dnsname_TrimSuffix (DNSName ps) suffix in
      if negb (EqualFold s baseName) then match_peers s suffix peers ip matches
      else
        match TailscaleIPs ps with
        | [] => inl (ip, ErrNoTailscaleIP s)
        | ip0 :: _ =>
            if negb (ExitNodeOption ps) then inl (ip, ErrNameNotExitNode s)
            else match_peers s suffix peers ip0 (S matches)
        end
  end.

Definition exitNodeIPOfArg (s : string) (st : Status)
  : netip.Addr * option error :=
  if bool_decide (s = "") then (netip.AddrZero, Some ErrInvalid) else
  match ParseAddr s with
  | Some ip =>
      let checked :=
        if bool_decide (BackendState st = "Running") then
          match peerWithTailscaleIP st ip with
          | None => Some (ErrNoNodeWithIP ip)
          | Some ps =>
              if negb (ExitNodeOption ps) then Some (ErrIPNotExitNode ip)
              else None
          end
        else None in
      match checked with
      | Some err => (ip, Some err)
      | None =>
          if negb (isRemoteIP st ip) then (ip, Some (ExitNodeLocalIPError s))
          else (ip, None)
      end
  | None =>
      match match_peers s (MagicDNSSuffix st) (Peer st) netip.AddrZero 0 with
      | inl (ip, err) => (ip, Some err)
      | inr (ip, 0%nat) => (ip, Some (ErrInvalidValue s))
      | inr (ip, 1%nat) =>
          if negb (isRemoteIP st ip) then (ip, Some (ExitNodeLocalIPError s))
          else (ip, None)
      | inr (ip, _) => (ip, Some (ErrAmbiguous s))
      end
  end.

(** [SetExitNodeIP] validates and sets the ExitNodeIP from a user-provided
    string.  The result is the new [*p] and the error.  A [StableNodeID]
    is a string, and [IsZero] the test for the empty one. *)
Definition SetExitNodeIP (s : string) (st : Status) (p : option Prefs)
  : option (Prefs * option error) :=
  p ← p;
  if negb (bool_decide (ExitNodeID p = "")) then
    Some (p, Some ErrExitNodeIDAlreadySet)
  else
    let '(ip, err) := exitNodeIPOfArg s st in
    match err with
    | None => Some (with_ExitNode (ExitNodeID p) ip p, None)
    | Some _ => Some (p, err)
    end.

End Prefs.

End ipn.

Section Deleter.
Context {FS : Type} {os : OS FS} {suffixes : Suffixes}.

Record World := {
  deleter : fileDeleter;
  fsys : FS;
  clockNow : Z;               (* what [d.clock.Now()] returns *)
  nextPtr : nat;              (* the next fresh list-element address *)
  trace : list effect
}.

(** *** Primitive actions *)

Definition get_deleter : M World fileDeleter := λ w, Some (deleter w, w).

Definition modify_deleter (f : fileDeleter → fileDeleter) : M World () :=
  λ w, Some ((), {| deleter := f (deleter w); fsys := fsys w;
                    clockNow := clockNow w; nextPtr := nextPtr w;
                    trace := trace w |}).

Definition emit (e : effect) : M World () :=
  λ w, Some ((), {| deleter := deleter w; fsys := fsys w;
                    clockNow := clockNow w; nextPtr := nextPtr w;
                    trace := trace w ++ [e] |}).

Definition set_queue (q : list Element) (d : fileDeleter) : fileDeleter :=
  {| event := event d; dir := dir d; queue := q; byName := byName d;
     shutdownErr := shutdownErr d |}.

Definition set_byName (m : gmap string nat) (d : fileDeleter) : fileDeleter :=
  {| event := event d; dir := dir d; queue := queue d; byName := m;
     shutdownErr := shutdownErr d |}.

(** [d.event(s)]: calling a nil function panics. *)
Definition call_event (s : string) : M World () :=
  d ← get_deleter;
  match event d with
  | Some _ => emit (EvEvent s)
  | None => panic
  end.

(** [d.clock.Now()] *)
Definition clock_Now : M World Z := λ w, Some (clockNow w, w).

(** [os.Remove(path)] *)
Definition os_remove (path : string) : M World (option oserror) :=
  λ w, let '(res, fs') := os_Remove path (fsys w) in
       Some (res, {| deleter := deleter w; fsys := fs';
                     clockNow := clockNow w; nextPtr := nextPtr w;
                     trace := trace w ++ [EvRemove path res] |}).

(** [d.queue.PushBack(v)]: allocates a new element at the back and returns
    its address. *)
Definition queue_PushBack (v : deleteFile) : M World nat :=
  λ w, let e := nextPtr w in
       Some (e, {| deleter := set_queue (queue (deleter w) ++
                                         [{| eptr := e; Value := v |}])
                                        (deleter w);
                   fsys := fsys w; clockNow := clockNow w;
                   nextPtr := S e; trace := trace w |}).

(** [d.group.Go(f)] *)
Definition group_Go (t : task) : M World () := emit (EvGo t).

(** ** [Insert] enqueues [baseName] for eventual deletion. *)
Definition Insert (baseName : string) : M World () :=
  d ← get_deleter;
  if shutdownErr d then mret ()
  else match byName d !! baseName with
  | Some _ => mret ()                  (* already queued for deletion *)
  | None =>
      now ← clock_Now;
      elem ← queue_PushBack {| name := baseName; inserted := now |};
      modify_deleter (λ d, set_byName (<[baseName := elem]> (byName d)) d);;
      d ← get_deleter;
      if (length (queue d) =? 1)%nat && negb (shutdownErr d)
      then group_Go (WaitAndDelete deleteDelay)
      else mret ()
  end.

(** ** The sweep of [waitAndDelete] *)

(** "Delete the expired file": the two removals of the loop body.  The
    result is [false] where the Go code appends the element to [failed] and
    [continue]s. *)
Definition deleteExpired (file : deleteFile) : M World bool :=
  d ← get_deleter;
  companion ←
    (match strings.CutSuffix (name file) deletedSuffix with
     | (nm, true) =>
         err ← os_remove (filepath_Join (dir d) nm);
         match err with
         | Some e =>
             if negb (os_IsNotExist e)
             then emit (EvLogf "could not delete: %v" e);; mret false
             else mret true
         | None => mret true
         end
     | (_, false) => mret true
     end);
  if negb companion then mret false
  else
    err ← os_remove (filepath_Join (dir d) (name file));
    match err with
    | Some e =>
        if negb (os_IsNotExist e)
        then emit (EvLogf "could not delete: %v" e);; mret false
        else mret true
    | None => mret true
    end.

(** The loop over the queue.  The cursor [next] is read before the body
    runs and the body unlinks at most the current element, so the loop
    visits the elements of the queue as it stood at loop entry, with the
    values they had then (the time stamps change after the loop only);
    [failed] collects the addresses of the elements to retry. *)
Fixpoint walk (now : Z) (elems : list Element) (failed : list nat)
  : M World (list nat) :=
  match elems with
  | [] => mret failed
  | elem :: next =>
      let file := Value elem in
      if Time_Sub now (inserted file) <? deleteDelay
      then mret failed          (* everything after this is recently inserted *)
      else
        deleted ← deleteExpired file;
        if deleted : bool then
          modify_deleter (λ d, set_queue (list_Remove (eptr elem) (queue d)) d);;
          modify_deleter (λ d, set_byName (delete (name file) (byName d)) d);;
          call_event ("deleted " +:+ name file);;
          walk now next failed
        else walk now next (failed ++ [eptr elem])
  end.

(** [for _, elem := range failed]: retry after [deleteDelay]. *)
Fixpoint requeue (now : Z) (failed : list nat) : M World () :=
  match failed with
  | [] => mret ()
  | elem :: rest =>
      modify_deleter (λ d, set_queue (set_inserted elem now (queue d)) d);;
      modify_deleter (λ d, set_queue (list_MoveToBack elem (queue d)) d);;
      requeue now rest
  end.

(** If there are still some files to delete, retry again later. *)
Definition respawn (now : Z) : M World () :=
  d ← get_deleter;
  if (0 <? length (queue d))%nat && negb (shutdownErr d)
  then match queue d with
       | front :: _ =>
           let file := Value front in
           let retryAfter := Duration_sub deleteDelay (Time_Sub now (inserted file)) in
           group_Go (WaitAndDelete retryAfter)
       | [] => mret ()
       end
  else mret ().

(** The body of [case now := <-ch]. *)
Definition sweep (now : Z) : M World () :=
  d ← get_deleter;
  failed ← walk now (queue d) [];
  requeue now failed;;
  respawn now.

(** [waitAndDelete] is an asynchronous deletion goroutine; [wk] is the
    channel its [select] receives from.  The deferred calls run last, in
    reverse order. *)
Definition waitAndDelete (wait : Z) (wk : wake) : M World () :=
  emit (EvNewTimer wait);;
  call_event "start waitAndDelete";;
  match wk with
  | ShutdownDone => mret ()
  | EmptySignal => mret ()
  | TimerFired now => sweep now
  end;;
  call_event "end waitAndDelete";;
  emit EvTimerStop.

(** ** [Remove] dequeues [baseName] from eventual deletion.

    When the queue becomes empty, [Remove] offers the empty signal to the
    sleeping [waitAndDelete], in a [select] with the shutdown channel
    ([EvEmptySignal]); the goroutine that takes it is a [waitAndDelete]
    woken by [EmptySignal]. *)
Definition Remove (baseName : string) : M World () :=
  d ← get_deleter;
  match byName d !! baseName with
  | Some elem =>
      modify_deleter (λ d, set_queue (list_Remove elem (queue d)) d);;
      modify_deleter (λ d, set_byName (delete baseName (byName d)) d);;
      (* Signal to terminate any waitAndDelete goroutines. *)
      d ← get_deleter;
      if (length (queue d) =? 0)%nat then emit EvEmptySignal else mret ()
  | None => mret ()
  end.

(** ** [Shutdown] shuts down the deleter. *)
Definition Shutdown : M World () :=
  modify_deleter (λ d, {| event := event d; dir := dir d; queue := queue d;
                          byName := byName d; shutdownErr := true |});;
  emit EvCancel;;
  emit EvGroupWait.

(** ** [Init] and the cold-start scan *)

(** The function passed to [rangeDir]; it returns whether to go on. *)
Definition initCallback (de : DirEntry) : M World bool :=
  d ← get_deleter;
  if shutdownErr d then mret false             (* terminate early *)
  else if negb (de_IsRegular de) then mret true
  else if strings.Contains (de_Name de) partialSuffix then
    Insert (de_Name de);; mret true
  else if strings.Contains (de_Name de) deletedSuffix then
    (* Best-effort immediate deletion of deleted files. *)
    let nm := strings.TrimSuffix (de_Name de) deletedSuffix in
    r1 ← os_remove (filepath_Join (dir d) nm);
    match r1 with
    | None =>
        r2 ← os_remove (filepath_Join (dir d) (de_Name de));
        match r2 with
        | None => mret true
        | Some _ => Insert (de_Name de);; mret true
        end
    | Some _ =>
        (* Otherwise, enqueue the file for later deletion. *)
        Insert (de_Name de);; mret true
    end
  else mret true.

(** Modelled from the spec: [rangeDir] is declared outside [delete.go]; it
    lists the entries of the directory and calls [fn] on each one, until
    [fn] returns [false].  [des] is the listing of the directory. *)
Fixpoint rangeDir (des : list DirEntry) (fn : DirEntry → M World bool)
  : M World () :=
  match des with
  | [] => mret ()
  | de :: rest =>
      continue ← fn de;
      if continue : bool then rangeDir rest fn else mret ()
  end.

(** The goroutine started by [Init]. *)
Definition initScan (des : list DirEntry) : M World () :=
  call_event "start init";;
  rangeDir des initCallback;;
  call_event "end init".

(** [Init] sets the fields of [d] (the queue is the zero [list.List] of a
    new [fileDeleter]) and starts the scan. *)
Definition Init (ev : option (string → unit)) (directory : string)
  : M World () :=
  modify_deleter (λ d, {| event := ev; dir := directory; queue := queue d;
                          byName := ∅; shutdownErr := false |});;
  group_Go InitScan.

(** ** The deleter as a transition system

    The steps that the goroutines of the program take on the shared state,
    in any order: the calls of the public operations, a run of
    [waitAndDelete] with whatever wakes it, the scan reaching a directory
    entry, and the environment moving the clock or changing the files. *)
Inductive op :=
| OpInsert (baseName : string)
| OpRemove (baseName : string)
| OpShutdown
| OpWaitAndDelete (wait : Z) (wk : wake)
| OpScanEntry (de : DirEntry)
| OpClock (t : Z)
| OpFiles (fs : FS).

Definition run_op (o : op) : M World () :=
  match o with
  | OpInsert n => Insert n
  | OpRemove n => Remove n
  | OpShutdown => Shutdown
  | OpWaitAndDelete wait wk => waitAndDelete wait wk
  | OpScanEntry de => initCallback de;; mret ()
  | OpClock t =>
      λ w, Some ((), {| deleter := deleter w; fsys := fsys w; clockNow := t;
                        nextPtr := nextPtr w; trace := trace w |})
  | OpFiles fs =>
      λ w, Some ((), {| deleter := deleter w; fsys := fs;
                        clockNow := clockNow w; nextPtr := nextPtr w;
                        trace := trace w |})
  end.

Fixpoint run (ops : list op) : M World () :=
  match ops with
  | [] => mret ()
  | o :: rest => run_op o;; run rest
  end.

(** The zero value of a [fileDeleter], in a world at time [t]. *)
Definition newWorld (fs : FS) (t : Z) : World :=
  {| deleter := {| event := None; dir := ""; queue := []; byName := ∅;
                   shutdownErr := false |};
     fsys := fs; clockNow := t; nextPtr := 0%nat; trace := [] |}.

(** ** Vocabulary of the properties *)

Definition names (q : list Element) : list string :=
  (λ x, name (Value x)) <$> q.

(** The store and its index agree, and no address or name occurs twice. *)
Definition wf_store (q : list Element) (bn : gmap string nat) (np : nat) : Prop :=
  NoDup (eptr <$> q) ∧
  NoDup (names q) ∧
  (∀ n e, bn !! n = Some e ↔ ∃ x, x ∈ q ∧ eptr x = e ∧ name (Value x) = n) ∧
  (∀ x, x ∈ q → (eptr x < np)%nat).

Definition wf (w : World) : Prop :=
  wf_store (queue (deleter w)) (byName (deleter w)) (nextPtr w).

(** A record is mature at [now] when the sweep does not stop at it. *)
Definition mature (now : Z) (x : Element) : bool :=
  negb (Time_Sub now (inserted (Value x)) <? deleteDelay).

(** The records that a sweep at [now] visits: the longest mature prefix. *)
Fixpoint due (now : Z) (q : list Element) : list Element :=
  match q with
  | [] => []
  | x :: q' => if mature now x then x :: due now q' else []
  end.

(** The record [x] after [elem.Value.inserted = now]. *)
Definition reset (now : Z) (x : Element) : Element :=
  {| eptr := eptr x;
     Value := {| name := name (Value x); inserted := now |} |}.

(** The paths of a record: its own file and, for a tombstone, the file it
    stands for. *)
Definition own_path (d : string) (x : Element) : string :=
  filepath_Join d (name (Value x)).

Definition companion_path (d : string) (x : Element) : option string :=
  match strings.CutSuffix (name (Value x)) deletedSuffix with
  | (nm, true) => Some (filepath_Join d nm)
  | (_, false) => None
  end.

(** The removals in a trace, and what the sweep does when one fails. *)
Definition removal_failed (res : option oserror) : bool :=
  match res with
  | Some e => negb (os_IsNotExist e)
  | None => false
  end.

(** What "delete the expired file" does for one record on the files [fs]:
    whether the record is deleted, the files afterwards and the effects. *)
Definition expire (d : string) (x : Element) (fs : FS)
  : bool * FS * list effect :=
  let own fs :=
    let '(r, fs') := os_Remove (own_path d x) fs in
    (negb (removal_failed r), fs',
     EvRemove (own_path d x) r ::
     match r with
     | Some e => if removal_failed r then [EvLogf "could not delete: %v" e] else []
     | None => []
     end) in
  match companion_path d x with
  | Some p =>
      let '(r, fs') := os_Remove p fs in
      match r with
      | Some e =>
          if removal_failed r
          then (false, fs', [EvRemove p r; EvLogf "could not delete: %v" e])
          else let '(ok, fs'', evs) := own fs' in (ok, fs'', EvRemove p r :: evs)
      | None => let '(ok, fs'', evs) := own fs' in (ok, fs'', EvRemove p r :: evs)
      end
  | None => own fs
  end.

(** One entry per visited record of a sweep: the record, whether it was
    deleted, and the effects of its removals. *)
Fixpoint plan (now : Z) (d : string) (q : list Element) (fs : FS)
  : list (Element * bool * list effect) * FS :=
  match q with
  | [] => ([], fs)
  | x :: q' =>
      if mature now x then
        let '(ok, fs1, evs) := expire d x fs in
        let '(pl, fs2) := plan now d q' fs1 in
        ((x, ok, evs) :: pl, fs2)
      else ([], fs)
  end.

(** The effects of the visited records, in order. *)
Definition plan_trace (pl : list (Element * bool * list effect)) : list effect :=
  pl ≫= λ '(x, ok, evs),
    evs ++ if ok : bool then [EvEvent ("deleted " +:+ name (Value x))] else [].

Definition plan_deleted (pl : list (Element * bool * list effect)) : list Element :=
  (λ p, p.1.1) <$> filter (λ p, p.1.2 = true) pl.

Definition plan_failed (pl : list (Element * bool * list effect)) : list Element :=
  (λ p, p.1.1) <$> filter (λ p, p.1.2 = false) pl.

(** The index after [delete(d.byName, n)] for each [n] of [ns], in order. *)
Definition delete_all (ns : list string) (m : gmap string nat) : gmap string nat :=
  foldl (λ m n, delete n m) m ns.

(** The world after the files became [fs] and the effects [evs] happened. *)
Definition observe (fs : FS) (evs : list effect) (w : World) : World :=
  {| deleter := deleter w; fsys := fs; clockNow := clockNow w;
     nextPtr := nextPtr w; trace := trace w ++ evs |}.

(** The world after the queue became [q]. *)
Definition with_queue (q : list Element) (w : World) : World :=
  {| deleter := set_queue q (deleter w); fsys := fsys w;
     clockNow := clockNow w; nextPtr := nextPtr w; trace := trace w |}.

(** The successor that a sweep at [now] starts when it leaves the deleter
    in state [d]. *)
Definition successor (now : Z) (d : fileDeleter) : list effect :=
  match queue d with
  | front :: _ =>
      if shutdownErr d then []
      else [EvGo (WaitAndDelete
                    (Duration_sub deleteDelay
                       (Time_Sub now (inserted (Value front)))))]
  | [] => []
  end.

(** The world that a sweep at [now] leaves behind: the records not visited
    stay in front, the failed ones follow with their time reset, the
    deleted ones are gone from the queue and the index. *)
Definition swept (now : Z) (w : World) : World :=
  let d := deleter w in
  let '(pl, fs') := plan now (dir d) (queue d) (fsys w) in
  let d' := {| event := event d; dir := dir d;
               queue := drop (length pl) (queue d) ++
                        (reset now <$> plan_failed pl);
               byName := delete_all (names (plan_deleted pl)) (byName d);
               shutdownErr := shutdownErr d |} in
  {| deleter := d'; fsys := fs'; clockNow := clockNow w;
     nextPtr := nextPtr w;
     trace := trace w ++ plan_trace pl ++ successor now d' |}.


(** The world after [Insert] has enqueued the new name [n]: the record is
    at the back, stamped with the clock, and a [waitAndDelete] goroutine is
    started when it is the only record. *)
Definition inserted_world (n : string) (w : World) : World :=
  let d := deleter w in
  {| deleter :=
       {| event := event d; dir := dir d;
          queue := queue d ++
                   [{| eptr := nextPtr w;
                       Value := {| name := n; inserted := clockNow w |} |}];
          byName := <[n := nextPtr w]> (byName d);
          shutdownErr := shutdownErr d |};
     fsys := fsys w; clockNow := clockNow w; nextPtr := S (nextPtr w);
     trace := trace w ++
              match queue d with
              | [] => [EvGo (WaitAndDelete deleteDelay)]
              | _ :: _ => []
              end |}.

(** The world after [Remove] has dequeued the name [n], indexed at [e]. *)
Definition removed_world (n : string) (e : nat) (w : World) : World :=
  let d := deleter w in
  {| deleter :=
       {| event := event d; dir := dir d;
          queue := list_Remove e (queue d);
          byName := delete n (byName d);
          shutdownErr := shutdownErr d |};
     fsys := fsys w; clockNow := clockNow w; nextPtr := nextPtr w;
     trace := trace w ++
              match list_Remove e (queue d) with
              | [] => [EvEmptySignal]
              | _ :: _ => []
              end |}.


(** The world after the effects [evs] happened. *)
Definition log (evs : list effect) (w : World) : World :=
  observe (fsys w) evs w.

(** The world that [waitAndDelete] leaves behind. *)
Definition waited (wait : Z) (wk : wake) (w : World) : World :=
  let w1 := log [EvNewTimer wait; EvEvent "start waitAndDelete"] w in
  let w2 := match wk with
            | TimerFired now => swept now w1
            | ShutdownDone | EmptySignal => w1
            end in
  log [EvEvent "end waitAndDelete"; EvTimerStop] w2.


(** The calls of [os.Remove] in a trace, with their results. *)
Definition removals (tr : list effect) : list (string * option oserror) :=
  omap (λ e, match e with EvRemove p r => Some (p, r) | _ => None end) tr.


(** The steps that can put the name [n] into the store. *)
Definition inserts (n : string) (o : op) : Prop :=
  match o with
  | OpInsert m => m = n
  | OpScanEntry de => de_Name de = n
  | _ => False
  end.


(** The world after running [m], or the world as it was if [m] panics. *)
Definition world_after {A} (m : M World A) (w : World) : World :=
  match m w with
  | Some (_, w') => w'
  | None => w
  end.

(** A world that the deleter reaches from [Init] by the steps [ops]. *)
Definition reached (ev : option (string → unit)) (d : string) (fs : FS)
    (t : Z) (ops : list op) : World :=
  world_after (Init ev d;; run ops) (newWorld fs t).


(** The queue in the order of its time stamps, oldest first. *)
Definition sorted_by_time (q : list Element) : Prop :=
  StronglySorted (λ x y, inserted (Value x) ≤ inserted (Value y)) q.


(** The entries that the scan enqueues, and those it removes at once. *)
Definition marked (de : DirEntry) : Prop :=
  de_IsRegular de = true ∧
  (strings.Contains (de_Name de) partialSuffix = true ∨
   strings.Contains (de_Name de) deletedSuffix = true).

Definition taken_for_tombstone (de : DirEntry) : Prop :=
  de_IsRegular de = true ∧
  strings.Contains (de_Name de) partialSuffix = false ∧
  strings.Contains (de_Name de) deletedSuffix = true.


(** * Properties *)

(** ** The list operations on a queue without repeated addresses *)

Lemma list_Remove_notin (e : nat) (l : list Element) :
  e ∉ eptr <$> l → list_Remove e l = l.
Proof.
  induction l as [|x l IH]; intros Hn; [done|].
  rewrite fmap_cons, not_elem_of_cons in Hn. destruct Hn as [Hx Hl].
  unfold list_Remove. rewrite filter_cons_True by congruence.
  f_equal. by apply IH.
Qed.

Lemma list_Remove_middle (x : Element) (l1 l2 : list Element) :
  NoDup (eptr <$> (l1 ++ x :: l2)) →
  list_Remove (eptr x) (l1 ++ x :: l2) = l1 ++ l2.
Proof.
  rewrite fmap_app, fmap_cons. intros Hnd.
  apply NoDup_app in Hnd as (_ & Hdis & Hnd).
  apply NoDup_cons in Hnd as [Hx _].
  unfold list_Remove. rewrite filter_app, filter_cons_False by (intros Hc; by apply Hc).
  fold (list_Remove (eptr x) l1). fold (list_Remove (eptr x) l2).
  rewrite !list_Remove_notin; [done|done|].
  intros Hin. apply (Hdis _ Hin). left.
Qed.

Lemma filter_eptr_notin (e : nat) (l : list Element) :
  e ∉ eptr <$> l → filter (λ x, eptr x = e) l = [].
Proof.
  induction l as [|x l IH]; intros Hn; [done|].
  rewrite fmap_cons, not_elem_of_cons in Hn. destruct Hn as [Hx Hl].
  rewrite filter_cons_False by congruence. by apply IH.
Qed.

Lemma set_inserted_notin (e : nat) (now : Z) (l : list Element) :
  e ∉ eptr <$> l → set_inserted e now l = l.
Proof.
  induction l as [|x l IH]; intros Hn; [done|].
  rewrite fmap_cons, not_elem_of_cons in Hn. destruct Hn as [Hx Hl].
  unfold set_inserted in *. rewrite fmap_cons.
  destruct (decide (eptr x = e)); [congruence|]. f_equal. by apply IH.
Qed.

Lemma requeue_step (x : Element) (now : Z) (l : list Element) :
  eptr x ∉ eptr <$> l →
  list_MoveToBack (eptr x) (set_inserted (eptr x) now (x :: l))
  = l ++ [reset now x].
Proof.
  intros Hn. unfold set_inserted. rewrite fmap_cons.
  destruct (decide (eptr x = eptr x)); [|done].
  fold (set_inserted (eptr x) now l). rewrite set_inserted_notin by done.
  fold (reset now x). unfold list_MoveToBack, list_Remove.
  rewrite filter_cons_True by done.
  rewrite filter_cons_False by (simpl; intros Hc; by apply Hc).
  fold (list_Remove (eptr x) l). by rewrite list_Remove_notin.
Qed.

(** ** The sweep, step by step *)

Ltac unfold_M :=
  repeat progress
    unfold mbind, M_bind, mret, M_ret, get_deleter, modify_deleter, emit,
      call_event, clock_Now, os_remove, queue_PushBack, group_Go, panic.

Lemma deleteExpired_expire (x : Element) (w : World) :
  deleteExpired (Value x) w =
  let '(ok, fs', evs) := expire (dir (deleter w)) x (fsys w) in
  Some (ok, observe fs' evs w).
Proof.
  unfold deleteExpired, expire, companion_path, own_path, observe.
  unfold_M. simpl.
  destruct (strings.CutSuffix (name (Value x)) deletedSuffix) as [nm [|]]; simpl.
  - destruct (os_Remove (filepath_Join (dir (deleter w)) nm) (fsys w))
      as [[e|] fs1] eqn:E1; simpl.
    + destruct (os_IsNotExist e) eqn:Ee; simpl.
      * destruct (os_Remove _ fs1) as [[e2|] fs2] eqn:E2; simpl;
          [destruct (os_IsNotExist e2); simpl|];
          by rewrite <- ?app_assoc.
      * by rewrite <- app_assoc.
    + destruct (os_Remove _ fs1) as [[e2|] fs2] eqn:E2; simpl;
        [destruct (os_IsNotExist e2); simpl|];
        by rewrite <- ?app_assoc.
  - destruct (os_Remove _ (fsys w)) as [[e2|] fs2] eqn:E2; simpl;
      [destruct (os_IsNotExist e2); simpl|];
      by rewrite <- ?app_assoc.
Qed.

Lemma plan_failed_cons x ok evs pl :
  plan_failed ((x, ok, evs) :: pl) =
  if ok : bool then plan_failed pl else x :: plan_failed pl.
Proof. by destruct ok. Qed.

Lemma plan_deleted_cons x ok evs pl :
  plan_deleted ((x, ok, evs) :: pl) =
  if ok : bool then x :: plan_deleted pl else plan_deleted pl.
Proof. by destruct ok. Qed.

Lemma plan_trace_cons x ok evs pl :
  plan_trace ((x, ok, evs) :: pl) =
  (evs ++ if ok : bool then [EvEvent ("deleted " +:+ name (Value x))] else [])
  ++ plan_trace pl.
Proof. done. Qed.

Lemma walk_plan (now : Z) (elems : list Element) :
  ∀ (failed : list nat) (kept : list Element) (w : World),
  event (deleter w) ≠ None →
  queue (deleter w) = kept ++ elems →
  NoDup (eptr <$> (kept ++ elems)) →
  walk now elems failed w =
  let '(pl, fs') := plan now (dir (deleter w)) elems (fsys w) in
  Some (failed ++ (eptr <$> plan_failed pl),
        {| deleter :=
             {| event := event (deleter w); dir := dir (deleter w);
                queue := kept ++ plan_failed pl ++ drop (length pl) elems;
                byName := delete_all (names (plan_deleted pl))
                                     (byName (deleter w));
                shutdownErr := shutdownErr (deleter w) |};
           fsys := fs'; clockNow := clockNow w; nextPtr := nextPtr w;
           trace := trace w ++ plan_trace pl |}).
Proof.
  induction elems as [|x next IH]; intros failed kept w Hev Hq Hnd.
  - destruct w as [[ev dr q bn sh] fs t np tr]; simpl in *; subst q.
    unfold_M. by rewrite !app_nil_r.
  - simpl. unfold mature.
    destruct (Time_Sub now (inserted (Value x)) <? deleteDelay) eqn:Hm; simpl.
    + destruct w as [[ev dr q bn sh] fs t np tr]; simpl in *; subst q.
      unfold_M. by rewrite !app_nil_r.
    + unfold mbind at 1, M_bind at 1. rewrite deleteExpired_expire.
      destruct (expire (dir (deleter w)) x (fsys w)) as [[ok fs1] evs] eqn:Hex.
      destruct ok.
      * (* the record is deleted *)
        destruct w as [[ev dr q bn sh] fs t np tr]; simpl in *; subst q.
        destruct ev as [hook|]; [|done].
        unfold_M; simpl. rewrite list_Remove_middle by done.
        rewrite (IH failed kept); simpl; [|done|done|].
        2:{ rewrite fmap_app, fmap_cons in Hnd. rewrite fmap_app.
            apply NoDup_app in Hnd as (H1 & H2 & H3).
            apply NoDup_cons in H3 as [H3 H4].
            apply NoDup_app. split_and!; [done| |done].
            intros y Hy Hy'. apply (H2 _ Hy). by right. }
        destruct (plan now dr next fs1) as [pl fs2] eqn:Hpl.
        rewrite plan_failed_cons, plan_deleted_cons, plan_trace_cons.
        simpl. by rewrite <- !app_assoc.
      * (* the record failed: it stays where it is *)
        destruct w as [[ev dr q bn sh] fs t np tr]; simpl in *; subst q.
        rewrite (IH (failed ++ [eptr x]) (kept ++ [x])); simpl;
          [|done|by rewrite <- app_assoc|by rewrite <- app_assoc].
        destruct (plan now dr next fs1) as [pl fs2] eqn:Hpl.
        rewrite plan_failed_cons, plan_deleted_cons, plan_trace_cons.
        simpl. by rewrite <- !app_assoc, ?app_nil_r.
Qed.

(** The visited records are a prefix of the queue: the longest mature one. *)
Lemma plan_records (now : Z) (d : string) (q : list Element) (fs : FS) :
  (λ p, p.1.1) <$> (plan now d q fs).1 = due now q.
Proof.
  revert fs. induction q as [|x q IH]; intros fs; simpl; [done|].
  destruct (mature now x); [|done].
  destruct (expire d x fs) as [[ok fs1] evs].
  specialize (IH fs1). destruct (plan now d q fs1) as [pl fs2].
  simpl in *. f_equal. exact IH.
Qed.

Lemma due_prefix (now : Z) (q : list Element) :
  q = due now q ++ drop (length (due now q)) q.
Proof.
  induction q as [|x q IH]; simpl; [done|].
  destruct (mature now x); simpl; [by rewrite <- IH|done].
Qed.

Lemma due_mature (now : Z) (q : list Element) (x : Element) :
  x ∈ due now q → mature now x = true.
Proof.
  induction q as [|y q IH]; simpl; [by intros ?%elem_of_nil|].
  destruct (mature now y) eqn:Hy; [|by intros ?%elem_of_nil].
  intros [->|Hin]%elem_of_cons; auto.
Qed.

(** The sweep stops at the first record that is not mature. *)
Lemma due_stops (now : Z) (q : list Element) (x : Element) :
  head (drop (length (due now q)) q) = Some x → mature now x = false.
Proof.
  induction q as [|y q IH]; simpl; [done|].
  destruct (mature now y) eqn:Hy; simpl; [done|].
  intros [= ->]. done.
Qed.

Lemma plan_length (now : Z) (d : string) (q : list Element) (fs : FS) :
  length (plan now d q fs).1 = length (due now q).
Proof. by rewrite <- (plan_records now d q fs), length_fmap. Qed.

Lemma plan_failed_sublist (now : Z) (d : string) (q : list Element) (fs : FS) :
  plan_failed (plan now d q fs).1 `sublist_of` due now q.
Proof.
  rewrite <- (plan_records now d q fs). unfold plan_failed.
  apply fmap_sublist, sublist_filter.
Qed.

Lemma plan_deleted_sublist (now : Z) (d : string) (q : list Element) (fs : FS) :
  plan_deleted (plan now d q fs).1 `sublist_of` due now q.
Proof.
  rewrite <- (plan_records now d q fs). unfold plan_deleted.
  apply fmap_sublist, sublist_filter.
Qed.

Lemma requeue_cons (now : Z) (e : nat) (es : list nat) (w : World) :
  requeue now (e :: es) w =
  requeue now es
    (with_queue (list_MoveToBack e (set_inserted e now (queue (deleter w)))) w).
Proof. by destruct w as [[] ? ? ? ?]. Qed.

Lemma with_queue_twice (q q' : list Element) (w : World) :
  with_queue q (with_queue q' w) = with_queue q w.
Proof. by destruct w as [[] ? ? ? ?]. Qed.

Lemma requeue_reset (now : Z) (F : list Element) :
  ∀ (Tl : list Element) (w : World),
  queue (deleter w) = F ++ Tl →
  NoDup (eptr <$> (F ++ Tl)) →
  requeue now (eptr <$> F) w = Some ((), with_queue (Tl ++ (reset now <$> F)) w).
Proof.
  induction F as [|x F IH]; intros Tl w Hq Hnd.
  - rewrite app_nil_r. simpl in Hq. rewrite <- Hq.
    by destruct w as [[] ? ? ? ?].
  - rewrite fmap_cons, requeue_cons, Hq.
    change ((x :: F) ++ Tl) with (x :: (F ++ Tl)) in *.
    rewrite fmap_cons in Hnd. apply NoDup_cons in Hnd as [Hx Hnd].
    rewrite requeue_step by done.
    rewrite (IH (Tl ++ [reset now x])).
    + rewrite with_queue_twice, fmap_cons. do 2 f_equal.
      by rewrite <- app_assoc.
    + simpl. by rewrite <- app_assoc.
    + rewrite !fmap_app in *. simpl.
      apply NoDup_app in Hnd as (H1 & H2 & H3).
      apply NoDup_app. split_and!; [done| |].
      * intros y Hy [Hy'| ->%list_elem_of_singleton]%elem_of_app;
          [by apply (H2 y)|].
        apply Hx. apply elem_of_app. by left.
      * apply NoDup_app. split_and!; [done| |apply NoDup_singleton].
        intros y Hy ->%list_elem_of_singleton.
        apply Hx. apply elem_of_app. by right.
Qed.

Lemma respawn_successor (now : Z) (w : World) :
  respawn now w = Some ((), observe (fsys w) (successor now (deleter w)) w).
Proof.
  unfold respawn, successor, observe. unfold_M. simpl.
  destruct (queue (deleter w)) as [|front q]; simpl.
  - destruct w; simpl. by rewrite app_nil_r.
  - destruct (shutdownErr (deleter w)); simpl; [|done].
    destruct w; simpl. by rewrite app_nil_r.
Qed.

(** The sweep refines [swept]: it never panics on a deleter with a hook and
    a queue without repeated addresses, and leaves exactly that world. *)
Lemma sweep_swept (now : Z) (w : World) :
  event (deleter w) ≠ None →
  NoDup (eptr <$> queue (deleter w)) →
  sweep now w = Some ((), swept now w).
Proof.
  intros Hev Hnd. unfold sweep, swept.
  unfold mbind at 1, M_bind at 1, get_deleter at 1.
  unfold mbind at 1, M_bind at 1.
  rewrite (walk_plan now (queue (deleter w)) [] [] w) by done.
  pose proof (plan_failed_sublist now (dir (deleter w)) (queue (deleter w)) (fsys w)) as Hsub.
  pose proof (plan_length now (dir (deleter w)) (queue (deleter w)) (fsys w)) as Hlen.
  destruct (plan now (dir (deleter w)) (queue (deleter w)) (fsys w)) as [pl fs'].
  simpl in Hsub, Hlen. simpl.
  unfold mbind at 1, M_bind at 1.
  rewrite (requeue_reset now (plan_failed pl) (drop (length pl) (queue (deleter w)))); simpl; [| done |].
  - rewrite respawn_successor. unfold observe, with_queue. simpl.
    by rewrite <- app_assoc.
  - eapply sublist_NoDup; [exact Hnd|].
    apply fmap_sublist.
    rewrite Hlen.
    etransitivity; [|by rewrite (due_prefix now (queue (deleter w))) at 1].
    by apply sublist_app.
Qed.

(** ** [Insert] and [Remove], case by case *)

Lemma Insert_shutdown (n : string) (w : World) :
  shutdownErr (deleter w) = true → Insert n w = Some ((), w).
Proof. intros Hs. unfold Insert. unfold_M. by rewrite Hs. Qed.

Lemma Insert_present (n : string) (e : nat) (w : World) :
  byName (deleter w) !! n = Some e → Insert n w = Some ((), w).
Proof.
  intros Hn. unfold Insert. unfold_M. rewrite Hn.
  by destruct (shutdownErr (deleter w)).
Qed.

Lemma length_app_one_eqb {A} (l : list A) (x : A) :
  (length (l ++ [x]) =? 1)%nat = match l with [] => true | _ :: _ => false end.
Proof.
  destruct l as [|a l]; [done|]. simpl. rewrite length_app. simpl.
  by replace (length l + 1)%nat with (S (length l)) by lia.
Qed.

Lemma Insert_fresh (n : string) (w : World) :
  shutdownErr (deleter w) = false →
  byName (deleter w) !! n = None →
  Insert n w = Some ((), inserted_world n w).
Proof.
  intros Hs Hn. unfold Insert, inserted_world. unfold_M.
  rewrite Hs, Hn. simpl. rewrite Hs, length_app_one_eqb. simpl.
  destruct w as [[ev dr q bn sh] fs t np tr]; simpl in *. subst sh.
  destruct q; simpl; [done|]. by rewrite app_nil_r.
Qed.

Lemma Remove_absent (n : string) (w : World) :
  byName (deleter w) !! n = None → Remove n w = Some ((), w).
Proof. intros Hn. unfold Remove. unfold_M. by rewrite Hn. Qed.

Lemma Remove_present (n : string) (e : nat) (w : World) :
  byName (deleter w) !! n = Some e →
  Remove n w = Some ((), removed_world n e w).
Proof.
  intros Hn. unfold Remove, removed_world. unfold_M. rewrite Hn. simpl.
  destruct w as [[ev dr q bn sh] fs t np tr]; simpl in *.
  destruct (list_Remove e q); simpl; [done|]. by rewrite app_nil_r.
Qed.

(** ** The invariant of the store *)

Lemma eptr_inj (q : list Element) (x y : Element) :
  NoDup (eptr <$> q) → x ∈ q → y ∈ q → eptr x = eptr y → x = y.
Proof.
  induction q as [|z q IH]; [by intros _ ?%elem_of_nil|].
  rewrite fmap_cons, NoDup_cons. intros [Hz Hnd] Hx Hy Heq.
  apply elem_of_cons in Hx as [->|Hx]; apply elem_of_cons in Hy as [->|Hy];
    [done| | |by apply IH].
  - exfalso. apply Hz. rewrite Heq. by apply list_elem_of_fmap_2.
  - exfalso. apply Hz. rewrite <- Heq. by apply list_elem_of_fmap_2.
Qed.

Lemma wf_absent (q : list Element) (bn : gmap string nat) (np : nat) (n : string) :
  wf_store q bn np → bn !! n = None ↔ n ∉ names q.
Proof.
  intros (_ & _ & Hbn & _). split.
  - intros Hnone (x & -> & Hx)%list_elem_of_fmap.
    assert (bn !! name (Value x) = Some (eptr x)) as Hsome
      by (apply Hbn; eauto).
    congruence.
  - intros Hnot. destruct (bn !! n) as [e|] eqn:He; [|done].
    apply Hbn in He as (x & Hx & _ & <-).
    exfalso. apply Hnot. by apply (list_elem_of_fmap_2 (λ x, name (Value x))).
Qed.

Lemma wf_empty (np : nat) : wf_store [] ∅ np.
Proof.
  split_and!; try apply NoDup_nil_2.
  - intros n e. rewrite lookup_empty. split; [done|].
    by intros (x & ?%elem_of_nil & _).
  - by intros x ?%elem_of_nil.
Qed.

Lemma wf_push (q : list Element) (bn : gmap string nat) (np : nat)
    (n : string) (t : Z) :
  wf_store q bn np → bn !! n = None →
  wf_store (q ++ [{| eptr := np; Value := {| name := n; inserted := t |} |}])
           (<[n := np]> bn) (S np).
Proof.
  intros Hwf Hn. pose proof (proj1 (wf_absent _ _ _ n Hwf) Hn) as Hfresh.
  destruct Hwf as (Hp & Hnm & Hbn & Hlt). split_and!.
  - rewrite fmap_app. apply NoDup_app. split_and!; [done| |apply NoDup_singleton].
    intros e (x & -> & Hx)%list_elem_of_fmap Heq%list_elem_of_singleton.
    apply Hlt in Hx. simpl in Heq. lia.
  - unfold names. rewrite fmap_app. apply NoDup_app.
    split_and!; [done| |apply NoDup_singleton].
    by intros m Hm ->%list_elem_of_singleton.
  - intros m e. destruct (decide (n = m)) as [<-|Hne].
    + rewrite lookup_insert_eq. split.
      * intros [= <-]. exists {| eptr := np; Value := {| name := n; inserted := t |} |}.
        split; [|done].
        apply elem_of_app. right. by apply list_elem_of_singleton.
      * intros (x & [Hx| ->%list_elem_of_singleton]%elem_of_app & He & Hm);
          [|simpl in He; by subst].
        exfalso. apply Hfresh. rewrite <- Hm.
        by apply (list_elem_of_fmap_2 (λ x, name (Value x))).
    + rewrite lookup_insert_ne by done. rewrite Hbn. split.
      * intros (x & Hx & He & Hm). exists x. split; [|done].
        apply elem_of_app. by left.
      * intros (x & [Hx| ->%list_elem_of_singleton]%elem_of_app & He & Hm);
          [by exists x|done].
  - intros x [Hx| ->%list_elem_of_singleton]%elem_of_app; simpl; [|lia].
    apply Hlt in Hx. lia.
Qed.

Lemma list_Remove_elem_of (e : nat) (q : list Element) (x : Element) :
  x ∈ list_Remove e q ↔ eptr x ≠ e ∧ x ∈ q.
Proof. unfold list_Remove. by rewrite list_elem_of_filter. Qed.

Lemma wf_unlink (q : list Element) (bn : gmap string nat) (np : nat)
    (n : string) (e : nat) :
  wf_store q bn np → bn !! n = Some e →
  wf_store (list_Remove e q) (delete n bn) np.
Proof.
  intros (Hp & Hnm & Hbn & Hlt) Hn.
  pose proof (proj1 (Hbn n e) Hn) as (x0 & Hx0 & He0 & Hn0).
  split_and!.
  - eapply sublist_NoDup; [exact Hp|]. apply fmap_sublist, sublist_filter.
  - eapply sublist_NoDup; [exact Hnm|]. apply fmap_sublist, sublist_filter.
  - intros m e'. destruct (decide (n = m)) as [<-|Hne].
    + rewrite lookup_delete_eq. split; [done|].
      intros (x & [Hxe Hx]%list_Remove_elem_of & He & Hm).
      assert (bn !! n = Some (eptr x)) as Hsome by (apply Hbn; eauto).
      congruence.
    + rewrite lookup_delete_ne by done. rewrite Hbn. split.
      * intros (x & Hx & He & Hm). exists x. split; [|done].
        apply list_Remove_elem_of. split; [|done].
        intros Hc. apply Hne. rewrite <- Hn0, <- Hm.
        by rewrite (eptr_inj q x0 x) by congruence.
      * intros (x & [_ Hx]%list_Remove_elem_of & He & Hm). by exists x.
  - intros x [_ Hx]%list_Remove_elem_of. by apply Hlt.
Qed.

Lemma lookup_delete_all (ns : list string) (bn : gmap string nat) (m : string) :
  delete_all ns bn !! m = if decide (m ∈ ns) then None else bn !! m.
Proof.
  revert bn. induction ns as [|n ns IH]; intros bn.
  - unfold delete_all. cbn [foldl].
    by destruct (decide (m ∈ [])) as [?%elem_of_nil|].
  - unfold delete_all in *. cbn [foldl]. rewrite IH.
    destruct (decide (m ∈ ns)) as [Hin|Hnin].
    + rewrite decide_True by (by right). done.
    + destruct (decide (n = m)) as [->|Hne].
      * rewrite decide_True by left. apply lookup_delete_eq.
      * rewrite decide_False by (intros [?|?]%elem_of_cons; congruence).
        by apply lookup_delete_ne.
Qed.

Lemma plan_partition (pl : list (Element * bool * list effect)) :
  plan_deleted pl ++ plan_failed pl ≡ₚ (λ p, p.1.1) <$> pl.
Proof.
  induction pl as [|[[x ok] evs] pl IH]; [done|].
  rewrite plan_deleted_cons, plan_failed_cons, fmap_cons. simpl.
  destruct ok; simpl.
  - by rewrite IH.
  - by rewrite <- Permutation_middle, IH.
Qed.

Lemma names_reset (now : Z) (l : list Element) :
  names (reset now <$> l) = names l.
Proof. unfold names. rewrite <- list_fmap_compose. by apply list_fmap_ext. Qed.

Lemma eptr_reset (now : Z) (l : list Element) :
  eptr <$> (reset now <$> l) = eptr <$> l.
Proof. rewrite <- list_fmap_compose. by apply list_fmap_ext. Qed.

(** A sweep splits the queue into deleted, failed and unvisited records;
    whatever the split, the store stays well formed. *)
Lemma wf_store_sweep (now : Z) (q D F R : list Element)
    (bn : gmap string nat) (np : nat) :
  wf_store q bn np → q ≡ₚ D ++ F ++ R →
  wf_store (R ++ (reset now <$> F)) (delete_all (names D) bn) np.
Proof.
  intros (Hp & Hnm & Hbn & Hlt) Hperm.
  assert (Hp' : NoDup (eptr <$> D ++ F ++ R)) by by rewrite <- Hperm.
  assert (Hnm' : NoDup (names (D ++ F ++ R))) by (unfold names; by rewrite <- Hperm).
  split_and!.
  - rewrite fmap_app, eptr_reset.
    rewrite fmap_app in Hp'. apply NoDup_app in Hp' as (_ & _ & Hp').
    rewrite fmap_app in Hp'. by rewrite (Permutation_app_comm).
  - unfold names in *. rewrite fmap_app. fold (names (reset now <$> F)).
    rewrite names_reset. unfold names.
    rewrite fmap_app in Hnm'. apply NoDup_app in Hnm' as (_ & _ & Hnm').
    rewrite fmap_app in Hnm'. by rewrite (Permutation_app_comm).
  - intros m e. rewrite lookup_delete_all.
    unfold names in Hnm'. rewrite fmap_app in Hnm'.
    apply NoDup_app in Hnm' as (_ & Hdis & _).
    destruct (decide (m ∈ names D)) as [Hin|Hnin].
    + split; [done|]. intros (x & Hx & He & Hm). exfalso.
      apply (Hdis m Hin). rewrite fmap_app, elem_of_app.
      apply elem_of_app in Hx as [Hx|(y & -> & Hy)%list_elem_of_fmap].
      * right. rewrite <- Hm. by apply (list_elem_of_fmap_2 (λ x, name (Value x))).
      * left. rewrite <- Hm. simpl.
        by apply (list_elem_of_fmap_2 (λ x, name (Value x))).
    + rewrite Hbn. split.
      * intros (x & Hx & He & Hm). rewrite Hperm in Hx.
        apply elem_of_app in Hx as [Hx|[Hx|Hx]%elem_of_app].
        -- exfalso. apply Hnin. rewrite <- Hm.
           by apply (list_elem_of_fmap_2 (λ x, name (Value x))).
        -- exists (reset now x). split; [|done].
           apply elem_of_app. right. by apply list_elem_of_fmap_2.
        -- exists x. split; [|done]. apply elem_of_app. by left.
      * intros (x & [Hx|(y & -> & Hy)%list_elem_of_fmap]%elem_of_app & He & Hm).
        -- exists x. split; [|done]. rewrite Hperm.
           apply elem_of_app. right. apply elem_of_app. by right.
        -- exists y. split; [|done]. rewrite Hperm.
           apply elem_of_app. right. apply elem_of_app. by left.
  - intros x [Hx|(y & -> & Hy)%list_elem_of_fmap]%elem_of_app.
    + apply Hlt. rewrite Hperm. apply elem_of_app. right.
      apply elem_of_app. by right.
    + simpl. apply Hlt. rewrite Hperm. apply elem_of_app. right.
      apply elem_of_app. by left.
Qed.

Lemma plan_split (now : Z) (d : string) (q : list Element) (fs : FS) :
  let pl := (plan now d q fs).1 in
  q ≡ₚ plan_deleted pl ++ plan_failed pl ++ drop (length pl) q.
Proof.
  simpl. rewrite app_assoc, plan_partition, plan_records, plan_length.
  by rewrite <- due_prefix.
Qed.

Lemma wf_swept (now : Z) (w : World) : wf w → wf (swept now w).
Proof.
  intros Hwf. unfold wf, swept.
  pose proof (plan_split now (dir (deleter w)) (queue (deleter w)) (fsys w)) as Hsplit.
  destruct (plan now (dir (deleter w)) (queue (deleter w)) (fsys w)) as [pl fs'].
  simpl in *. by eapply wf_store_sweep.
Qed.

(** ** The operations preserve the invariant *)

Lemma swept_deleter (now : Z) (w : World) :
  event (deleter (swept now w)) = event (deleter w) ∧
  dir (deleter (swept now w)) = dir (deleter w) ∧
  shutdownErr (deleter (swept now w)) = shutdownErr (deleter w) ∧
  clockNow (swept now w) = clockNow w ∧
  nextPtr (swept now w) = nextPtr w.
Proof.
  unfold swept.
  by destruct (plan now (dir (deleter w)) (queue (deleter w)) (fsys w)).
Qed.

Lemma waitAndDelete_waited (wait : Z) (wk : wake) (w : World) :
  event (deleter w) ≠ None →
  NoDup (eptr <$> queue (deleter w)) →
  waitAndDelete wait wk w = Some ((), waited wait wk w).
Proof.
  intros Hev Hnd. unfold waitAndDelete, waited.
  destruct (event (deleter w)) as [h|] eqn:Hh; [clear Hev|done].
  unfold mbind at 1, M_bind at 1, emit at 1.
  unfold mbind at 1, M_bind at 1, call_event at 1.
  unfold mbind at 1, M_bind at 1, get_deleter at 1. cbn [deleter].
  rewrite Hh. unfold emit at 1.
  set (w1 := log [EvNewTimer wait; EvEvent "start waitAndDelete"] w).
  assert (Hw1 : {| deleter := deleter w; fsys := fsys w; clockNow := clockNow w;
                   nextPtr := nextPtr w;
                   trace := (trace w ++ [EvNewTimer wait]) ++
                            [EvEvent "start waitAndDelete"] |} = w1).
  { unfold w1, log, observe. by rewrite <- app_assoc. }
  cbn [deleter fsys clockNow nextPtr trace]. rewrite Hw1.
  assert (Hfin : ∀ w2 : World, event (deleter w2) = Some h →
            (call_event "end waitAndDelete";; emit EvTimerStop) w2 =
            Some ((), log [EvEvent "end waitAndDelete"; EvTimerStop] w2)).
  { intros w2 H2. unfold_M. rewrite H2. unfold log, observe. simpl.
    by rewrite <- app_assoc. }
  unfold mbind at 1, M_bind at 1.
  destruct wk as [| |now].
  - unfold mret, M_ret. by apply Hfin.
  - unfold mret, M_ret. by apply Hfin.
  - rewrite sweep_swept; [|by (unfold w1; simpl; rewrite Hh)|done].
    apply Hfin. by rewrite (proj1 (swept_deleter now w1)).
Qed.

Lemma waitAndDelete_nil_hook (wait : Z) (wk : wake) (w : World) :
  event (deleter w) = None → waitAndDelete wait wk w = None.
Proof. intros Hev. unfold waitAndDelete. unfold_M. simpl. by rewrite Hev. Qed.

Lemma wf_log (evs : list effect) (w : World) : wf (log evs w) ↔ wf w.
Proof. done. Qed.

Lemma wf_observe (fs : FS) (evs : list effect) (w : World) :
  wf (observe fs evs w) ↔ wf w.
Proof. done. Qed.

Lemma wf_waited (wait : Z) (wk : wake) (w : World) : wf w → wf (waited wait wk w).
Proof.
  intros Hwf. unfold waited. apply wf_log.
  destruct wk; try by apply wf_log. by apply wf_swept, wf_log.
Qed.

Lemma Insert_wf (n : string) (w w' : World) :
  wf w → Insert n w = Some ((), w') → wf w'.
Proof.
  intros Hwf. destruct (shutdownErr (deleter w)) eqn:Hs.
  - rewrite Insert_shutdown by done. by intros [= <-].
  - destruct (byName (deleter w) !! n) as [e|] eqn:Hn.
    + rewrite (Insert_present n e) by done. by intros [= <-].
    + rewrite Insert_fresh by done. intros [= <-].
      by apply wf_push.
Qed.

Lemma Remove_wf (n : string) (w w' : World) :
  wf w → Remove n w = Some ((), w') → wf w'.
Proof.
  intros Hwf. destruct (byName (deleter w) !! n) as [e|] eqn:Hn.
  - rewrite (Remove_present n e) by done. intros [= <-].
    by apply wf_unlink.
  - rewrite Remove_absent by done. by intros [= <-].
Qed.

Lemma initCallback_wf (de : DirEntry) (w w' : World) (b : bool) :
  wf w → initCallback de w = Some (b, w') → wf w'.
Proof.
  intros Hwf. unfold initCallback.
  unfold mbind at 1, M_bind at 1, get_deleter at 1.
  destruct (shutdownErr (deleter w)); [by intros [= _ <-]|].
  destruct (negb (de_IsRegular de)); [by intros [= _ <-]|].
  assert (Hins : ∀ w1 : World, wf w1 →
            (Insert (de_Name de);; mret true) w1 = Some (b, w') → wf w').
  { intros w1 Hw1. unfold mbind, M_bind.
    destruct (Insert (de_Name de) w1) as [[[] w2]|] eqn:Hi; [|done].
    intros [= _ <-]. by eapply Insert_wf. }
  destruct (strings.Contains (de_Name de) partialSuffix); [by apply Hins|].
  destruct (strings.Contains (de_Name de) deletedSuffix); [|by intros [= _ <-]].
  unfold mbind at 1, M_bind at 1, os_remove at 1.
  destruct (os_Remove _ (fsys w)) as [[e1|] fs1]; [by apply Hins|].
  unfold mbind at 1, M_bind at 1, os_remove at 1. cbn [fsys].
  destruct (os_Remove _ fs1) as [[e2|] fs2]; [by apply Hins|].
  by intros [= _ <-].
Qed.

Lemma run_op_wf (o : op) (w w' : World) :
  wf w → run_op o w = Some ((), w') → wf w'.
Proof.
  intros Hwf. destruct o as [n|n| |wait wk|de|t|fs]; simpl.
  - by apply Insert_wf.
  - by apply Remove_wf.
  - by intros [= <-].
  - destruct (event (deleter w)) as [h|] eqn:Hev.
    + rewrite waitAndDelete_waited; [|by rewrite Hev|apply Hwf].
      intros [= <-]. by apply wf_waited.
    + by rewrite waitAndDelete_nil_hook.
  - unfold mbind, M_bind.
    destruct (initCallback de w) as [[b w1]|] eqn:Hcb; [|done].
    intros [= <-]. by eapply initCallback_wf.
  - by intros [= <-].
  - by intros [= <-].
Qed.

Lemma run_wf (ops : list op) (w w' : World) :
  wf w → run ops w = Some ((), w') → wf w'.
Proof.
  revert w. induction ops as [|o ops IH]; intros w Hwf; simpl.
  - by intros [= <-].
  - unfold mbind, M_bind.
    destruct (run_op o w) as [[[] w1]|] eqn:Ho; [|done].
    intros Hrun. eapply IH; [|exact Hrun]. by eapply run_op_wf.
Qed.

Lemma Init_wf (ev : option (string → unit)) (d : string) (fs : FS) (t : Z) (w : World) :
  Init ev d (newWorld fs t) = Some ((), w) → wf w.
Proof. intros [= <-]. apply wf_empty. Qed.

(** ** Maturity and the visited records *)

Lemma deleteDelay_value : deleteDelay = 3600000000000.
Proof. reflexivity. Qed.

Lemma mature_iff (now : Z) (x : Element) :
  mature now x = true ↔ deleteDelay ≤ now - inserted (Value x).
Proof.
  unfold mature, Time_Sub. rewrite negb_true_iff, Z.ltb_ge.
  rewrite deleteDelay_value. unfold minDuration, maxDuration.
  destruct (Z.ltb_spec (now - inserted (Value x)) (- 2 ^ 63)); [lia|].
  destruct (Z.ltb_spec (2 ^ 63 - 1) (now - inserted (Value x))); lia.
Qed.

Lemma mature_false_iff (now : Z) (x : Element) :
  mature now x = false ↔ now - inserted (Value x) < deleteDelay.
Proof.
  rewrite <- not_true_iff_false, mature_iff. lia.
Qed.

Lemma plan_elem (now : Z) (d : string) (q : list Element) (fs : FS)
    (x : Element) (ok : bool) (evs : list effect) :
  (x, ok, evs) ∈ (plan now d q fs).1 →
  x ∈ due now q ∧ ∃ fs0 fs1, expire d x fs0 = (ok, fs1, evs).
Proof.
  revert fs. induction q as [|y q IH]; intros fs; simpl;
    [by intros ?%elem_of_nil|].
  destruct (mature now y); [|by intros ?%elem_of_nil].
  destruct (expire d y fs) as [[ok1 fs1] evs1] eqn:Hex.
  specialize (IH fs1). destruct (plan now d q fs1) as [pl fs2]. simpl in *.
  intros [Heq|Hin]%elem_of_cons.
  - inversion Heq; subst. split; [left|]. by exists fs, fs1.
  - destruct (IH Hin) as [Hd Hfs]. split; [by right|done].
Qed.

Lemma removal_failed_false (r : option oserror) :
  removal_failed r = false ↔ r = None ∨ ∃ e, r = Some e ∧ os_IsNotExist e = true.
Proof.
  destruct r as [e|]; simpl; [|naive_solver].
  rewrite negb_false_iff. naive_solver.
Qed.

(** What the removals of one record can be. *)
Lemma expire_spec (d : string) (x : Element) (fs fs' : FS) (ok : bool)
    (evs : list effect) :
  expire d x fs = (ok, fs', evs) →
  (∃ p r evs', evs = EvRemove p r :: evs') ∧
  (∀ p r, EvRemove p r ∈ evs → p = own_path d x ∨ companion_path d x = Some p) ∧
  (ok = true → ∀ p r, EvRemove p r ∈ evs → removal_failed r = false) ∧
  (ok = false → ∃ p e, EvRemove p (Some e) ∈ evs ∧ os_IsNotExist e = false) ∧
  (∀ f e, EvLogf f e ∈ evs → os_IsNotExist e = false ∧ ok = false) ∧
  (∀ e, e ∈ evs → (∃ p r, e = EvRemove p r) ∨ (∃ f err, e = EvLogf f err)).
Proof.
  unfold expire.
  destruct (companion_path d x) as [cp|];
    [destruct (os_Remove cp fs) as [[e1|] fs1];
     [destruct (os_IsNotExist e1) eqn:F1|]|];
    simpl; rewrite ?F1; simpl;
    try (destruct (os_Remove (own_path d x) _) as [[e2|] fs2];
         [destruct (os_IsNotExist e2) eqn:F2|]);
    simpl; rewrite ?F2; simpl;
    inversion 1; subst; split_and!; try done; try (by eexists _, _, _);
    try set_solver;
    try (intros Hok;
         first [done
               |intros p r Hin; set_unfold; destruct_or?; simplify_eq; simpl;
                by rewrite ?F1, ?F2]);
    try (intros Hok; first [done|eexists _, _; split; [set_solver|done]]).
Qed.

(** ** The world after a sweep, field by field *)

Lemma swept_fields (now : Z) (w : World) :
  let d := deleter w in
  let pl := (plan now (dir d) (queue d) (fsys w)).1 in
  queue (deleter (swept now w)) =
    drop (length pl) (queue d) ++ (reset now <$> plan_failed pl) ∧
  byName (deleter (swept now w)) =
    delete_all (names (plan_deleted pl)) (byName d) ∧
  trace (swept now w) =
    trace w ++ plan_trace pl ++ successor now (deleter (swept now w)).
Proof.
  unfold swept.
  by destruct (plan now (dir (deleter w)) (queue (deleter w)) (fsys w)).
Qed.

Lemma removals_app (l k : list effect) :
  removals (l ++ k) = removals l ++ removals k.
Proof. apply omap_app. Qed.

Lemma removals_successor (now : Z) (d : fileDeleter) :
  removals (successor now d) = [].
Proof.
  unfold successor. destruct (queue d); [done|]. by destruct (shutdownErr d).
Qed.

Lemma removals_plan_trace (pl : list (Element * bool * list effect)) :
  removals (plan_trace pl) = pl ≫= λ p, removals p.2.
Proof.
  induction pl as [|[[x ok] evs] pl IH]; [done|].
  rewrite plan_trace_cons, !removals_app, IH. cbn [mbind list_bind].
  fold (@mbind list _). simpl. f_equal.
  destruct ok; [|by rewrite app_nil_r]. simpl. by rewrite app_nil_r.
Qed.

Lemma elem_of_removals (p : string) (r : option oserror) (tr : list effect) :
  (p, r) ∈ removals tr ↔ EvRemove p r ∈ tr.
Proof.
  unfold removals. rewrite list_elem_of_omap. split.
  - intros ([] & Hin & Heq); by simplify_eq.
  - intros Hin. by exists (EvRemove p r).
Qed.

Lemma plan_trace_deleted (pl : list (Element * bool * list effect))
    (x : Element) (evs : list effect) :
  (x, true, evs) ∈ pl →
  EvEvent ("deleted " +:+ name (Value x)) ∈ plan_trace pl.
Proof.
  intros Hin. unfold plan_trace. apply list_elem_of_bind.
  exists (x, true, evs). split; [|done].
  apply elem_of_app. right. apply list_elem_of_singleton. done.
Qed.

Lemma plan_failed_elem (pl : list (Element * bool * list effect)) (x : Element) :
  x ∈ plan_failed pl ↔ ∃ evs, (x, false, evs) ∈ pl.
Proof.
  unfold plan_failed. rewrite list_elem_of_fmap. split.
  - intros ([[y ok] evs] & -> & [Hok Hin]%list_elem_of_filter).
    simpl in *. subst ok. by exists evs.
  - intros (evs & Hin). exists (x, false, evs). split; [done|].
    by apply list_elem_of_filter.
Qed.

Lemma plan_deleted_elem (pl : list (Element * bool * list effect)) (x : Element) :
  x ∈ plan_deleted pl ↔ ∃ evs, (x, true, evs) ∈ pl.
Proof.
  unfold plan_deleted. rewrite list_elem_of_fmap. split.
  - intros ([[y ok] evs] & -> & [Hok Hin]%list_elem_of_filter).
    simpl in *. subst ok. by exists evs.
  - intros (evs & Hin). exists (x, true, evs). split; [done|].
    by apply list_elem_of_filter.
Qed.

Lemma reached_wf (ev : option (string → unit)) (d : string) (fs : FS)
    (t : Z) (ops : list op) :
  wf (reached ev d fs t ops).
Proof.
  unfold reached, world_after.
  destruct ((Init ev d;; run ops) (newWorld fs t)) as [[[] w]|] eqn:Hr;
    [|apply wf_empty].
  revert Hr. unfold mbind at 1, M_bind at 1.
  destruct (Init ev d (newWorld fs t)) as [[[] w0]|] eqn:Hi; [|done].
  intros Hrun. eapply run_wf; [|exact Hrun]. by eapply Init_wf.
Qed.


Lemma names_count (q : list Element) (n : string) :
  NoDup (names q) → n ∈ names q →
  length (filter (λ x, name (Value x) = n) q) = 1%nat.
Proof.
  induction q as [|y q IH]; [by intros _ ?%elem_of_nil|].
  unfold names. rewrite fmap_cons, NoDup_cons. fold (names q).
  intros [Hy Hnd] Hin. destruct (decide (name (Value y) = n)) as [<-|Hne].
  - rewrite filter_cons_True by done. simpl. f_equal.
    apply length_zero_iff_nil.
    destruct (filter _ q) as [|z l] eqn:Hf; [done|]. exfalso.
    assert (Hz : z ∈ filter (λ x, name (Value x) = name (Value y)) q)
      by (rewrite Hf; left).
    apply list_elem_of_filter in Hz as [Heq Hz].
    apply Hy. rewrite <- Heq.
    by apply (list_elem_of_fmap_2 (λ x, name (Value x))).
  - rewrite filter_cons_False by done. apply IH; [done|].
    apply elem_of_cons in Hin as [Heq|Hin]; [|done]. by simplify_eq.
Qed.

Lemma rangeDir_wf (des : list DirEntry) (w w' : World) :
  wf w → rangeDir des initCallback w = Some ((), w') → wf w'.
Proof.
  revert w. induction des as [|de des IH]; intros w Hwf; simpl.
  - by intros [= <-].
  - unfold mbind at 1, M_bind at 1.
    destruct (initCallback de w) as [[b w1]|] eqn:Hcb; [|done].
    apply initCallback_wf in Hcb; [|done].
    destruct b; [by apply IH|]. by intros [= <-].
Qed.

Lemma initScan_wf (des : list DirEntry) (w w' : World) :
  wf w → initScan des w = Some ((), w') → wf w'.
Proof.
  intros Hwf. unfold initScan.
  unfold mbind at 1, M_bind at 1, call_event at 1.
  unfold mbind at 1, M_bind at 1, get_deleter at 1.
  destruct (event (deleter w)) as [h|]; [|done]. unfold emit at 1.
  unfold mbind at 1, M_bind at 1.
  destruct (rangeDir des initCallback _) as [[[] w1]|] eqn:Hr; [|done].
  apply rangeDir_wf in Hr; [|done].
  unfold call_event, mbind, M_bind, get_deleter.
  destruct (event (deleter w1)); [|done]. unfold emit. by intros [= <-].
Qed.

Lemma wrap64_small (z : Z) : minDuration ≤ z ≤ maxDuration → wrap64 z = z.
Proof.
  unfold wrap64, minDuration, maxDuration. intros Hz.
  rewrite Z.mod_small by lia. lia.
Qed.

Lemma Time_Sub_exact (t u : Z) :
  minDuration ≤ t - u ≤ maxDuration → Time_Sub t u = t - u.
Proof.
  unfold Time_Sub. intros Hd.
  destruct (Z.ltb_spec (t - u) minDuration); [lia|].
  destruct (Z.ltb_spec maxDuration (t - u)); [lia|done].
Qed.

Lemma successor_after_reset (now : Z) (x : Element) (q : list Element)
    (d : fileDeleter) :
  queue d = reset now x :: q → shutdownErr d = false →
  successor now d = [EvGo (WaitAndDelete deleteDelay)].
Proof.
  intros Hq Hs. unfold successor. rewrite Hq, Hs. simpl.
  rewrite Time_Sub_exact by (unfold minDuration, maxDuration; lia).
  rewrite Z.sub_diag. unfold Duration_sub. rewrite Z.sub_0_r.
  by rewrite wrap64_small by (by vm_compute).
Qed.

Lemma due_NoDup (now : Z) (q : list Element) :
  NoDup (eptr <$> q) → NoDup (due now q).
Proof.
  intros Hnd. apply (NoDup_fmap_1 eptr).
  eapply sublist_NoDup; [exact Hnd|]. apply fmap_sublist.
  rewrite (due_prefix now q) at 2. by apply sublist_inserts_r.
Qed.

Lemma swept_front_young (now : Z) (w : World) (front : Element) :
  head (queue (deleter (swept now w))) = Some front →
  now - inserted (Value front) < deleteDelay.
Proof.
  destruct (swept_fields now w) as (Hq & _ & _). cbv zeta in Hq. rewrite Hq.
  clear Hq. rewrite (plan_length now (dir (deleter w)) _ (fsys w)).
  destruct (drop _ (queue (deleter w))) as [|y rest] eqn:Hd; simpl.
  - destruct (plan_failed _); simpl; [done|]. intros [= <-]. simpl.
    rewrite deleteDelay_value. lia.
  - intros [= <-]. apply mature_false_iff.
    apply (due_stops now (queue (deleter w))). by rewrite Hd.
Qed.

(** ** Names enter the store through [Insert] only *)

Lemma Insert_names (m n : string) (w w' : World) :
  Insert m w = Some ((), w') →
  n ∈ names (queue (deleter w')) → n ∈ names (queue (deleter w)) ∨ m = n.
Proof.
  destruct (shutdownErr (deleter w)) eqn:Hs.
  - rewrite Insert_shutdown by done. intros [= <-]. by left.
  - destruct (byName (deleter w) !! m) as [e|] eqn:Hm.
    + rewrite (Insert_present m e) by done. intros [= <-]. by left.
    + rewrite Insert_fresh by done. intros [= <-]. simpl.
      unfold names. rewrite fmap_app, elem_of_app. simpl.
      intros [?|Heq%list_elem_of_singleton]; [by left|by right].
Qed.

Lemma Remove_names (m n : string) (w w' : World) :
  Remove m w = Some ((), w') →
  n ∈ names (queue (deleter w')) → n ∈ names (queue (deleter w)).
Proof.
  destruct (byName (deleter w) !! m) as [e|] eqn:Hm.
  - rewrite (Remove_present m e) by done. intros [= <-]. simpl.
    intros (x & -> & [_ Hx]%list_Remove_elem_of)%list_elem_of_fmap.
    by apply (list_elem_of_fmap_2 (λ x, name (Value x))).
  - rewrite Remove_absent by done. by intros [= <-].
Qed.

Lemma swept_names (now : Z) (w : World) (n : string) :
  n ∈ names (queue (deleter (swept now w))) → n ∈ names (queue (deleter w)).
Proof.
  destruct (swept_fields now w) as (Hq & _ & _). cbv zeta in Hq. rewrite Hq.
  unfold names at 1. rewrite fmap_app. fold (names (reset now <$> plan_failed
    (plan now (dir (deleter w)) (queue (deleter w)) (fsys w)).1)).
  rewrite names_reset, elem_of_app.
  intros [(x & -> & Hx)%list_elem_of_fmap|(x & -> & Hx)%list_elem_of_fmap];
    apply (list_elem_of_fmap_2 (λ x, name (Value x))).
  - eapply elem_of_sublist; [exact Hx|]. apply sublist_drop.
  - rewrite (due_prefix now (queue (deleter w))). apply elem_of_app. left.
    eapply elem_of_sublist; [exact Hx|]. apply plan_failed_sublist.
Qed.

Lemma initCallback_names (de : DirEntry) (n : string) (w w' : World) (b : bool) :
  initCallback de w = Some (b, w') →
  n ∈ names (queue (deleter w')) →
  n ∈ names (queue (deleter w)) ∨ de_Name de = n.
Proof.
  unfold initCallback.
  unfold mbind at 1, M_bind at 1, get_deleter at 1.
  destruct (shutdownErr (deleter w)); [intros [= _ <-]; by left|].
  destruct (negb (de_IsRegular de)); [intros [= _ <-]; by left|].
  assert (Hins : ∀ w1 : World, queue (deleter w1) = queue (deleter w) →
            (Insert (de_Name de);; mret true) w1 = Some (b, w') →
            n ∈ names (queue (deleter w')) →
            n ∈ names (queue (deleter w)) ∨ de_Name de = n).
  { intros w1 Hw1. unfold mbind, M_bind.
    destruct (Insert (de_Name de) w1) as [[[] w2]|] eqn:Hi; [|done].
    intros [= _ <-]. rewrite <- Hw1. by eapply Insert_names. }
  destruct (strings.Contains (de_Name de) partialSuffix); [by apply Hins|].
  destruct (strings.Contains (de_Name de) deletedSuffix);
    [|intros [= _ <-]; by left].
  unfold mbind at 1, M_bind at 1, os_remove at 1.
  destruct (os_Remove _ (fsys w)) as [[e1|] fs1]; [by apply Hins|].
  unfold mbind at 1, M_bind at 1, os_remove at 1. cbn [fsys].
  destruct (os_Remove _ fs1) as [[e2|] fs2]; [by apply Hins|].
  intros [= _ <-]. by left.
Qed.

Lemma run_op_names (o : op) (n : string) (w w' : World) :
  wf w → run_op o w = Some ((), w') →
  n ∈ names (queue (deleter w')) →
  n ∈ names (queue (deleter w)) ∨ inserts n o.
Proof.
  intros Hwf. destruct o as [m|m| |wait wk|de|t|fs]; simpl.
  - apply Insert_names.
  - intros Hr Hn. left. by eapply Remove_names.
  - intros [= <-]. by left.
  - destruct (event (deleter w)) as [h|] eqn:Hev.
    + rewrite waitAndDelete_waited; [|by rewrite Hev|apply Hwf].
      intros [= <-] Hn. left. unfold waited in Hn.
      destruct wk; [done|done|].
      by apply (swept_names now (log _ w)) in Hn.
    + by rewrite waitAndDelete_nil_hook.
  - unfold mbind, M_bind.
    destruct (initCallback de w) as [[b w1]|] eqn:Hcb; [|done].
    intros [= <-]. by eapply initCallback_names.
  - intros [= <-]. by left.
  - intros [= <-]. by left.
Qed.

Lemma run_names (ops : list op) (n : string) (w w' : World) :
  wf w → run ops w = Some ((), w') →
  (∀ o, o ∈ ops → ¬ inserts n o) →
  n ∉ names (queue (deleter w)) → n ∉ names (queue (deleter w')).
Proof.
  revert w. induction ops as [|o ops IH]; intros w Hwf; simpl.
  - by intros [= <-].
  - unfold mbind, M_bind.
    destruct (run_op o w) as [[[] w1]|] eqn:Ho; [|done].
    intros Hrun Hno Hn. eapply (IH w1); [by eapply run_op_wf|done| |].
    + intros o' Ho'. apply Hno. by right.
    + intros Hin. destruct (run_op_names o n w w1 Hwf Ho Hin) as [?|Hi]; [done|].
      apply (Hno o); [left|done].
Qed.

Lemma removals_waited (wait now : Z) (w : World) :
  removals (trace (waited wait (TimerFired now) w)) =
  removals (trace w) ++
  ((plan now (dir (deleter w)) (queue (deleter w)) (fsys w)).1
     ≫= λ p, removals p.2).
Proof.
  unfold waited. cbn [log observe trace].
  destruct (swept_fields now (log [EvNewTimer wait; EvEvent "start waitAndDelete"] w))
    as (_ & _ & ->). cbn [log observe trace deleter fsys].
  rewrite !removals_app, removals_successor, removals_plan_trace. simpl.
  by rewrite !app_nil_r.
Qed.

Lemma filter_ext_elem {A} (P Q : A → Prop) `{!∀ x, Decision (P x)}
    `{!∀ x, Decision (Q x)} (l : list A) :
  (∀ x, x ∈ l → P x ↔ Q x) → filter P l = filter Q l.
Proof.
  induction l as [|y l IH]; intros Hext; [done|].
  rewrite !filter_cons.
  destruct (decide (P y)) as [Hp|Hp], (decide (Q y)) as [Hq|Hq].
  - f_equal. apply IH. intros x Hx. apply Hext. by right.
  - exfalso. apply Hq, (Hext y); [left|done].
  - exfalso. apply Hp, (Hext y); [left|done].
  - apply IH. intros x Hx. apply Hext. by right.
Qed.

(** Unlinking the element that the index holds for [n] removes the record
    named [n]. *)
Lemma list_Remove_by_name (q : list Element) (bn : gmap string nat) (np : nat)
    (n : string) (e : nat) :
  wf_store q bn np → bn !! n = Some e →
  list_Remove e q = filter (λ x, name (Value x) ≠ n) q.
Proof.
  intros (Hp & _ & Hbn & _) He. unfold list_Remove.
  apply Hbn in He as (x0 & Hx0 & <- & <-).
  apply filter_ext_elem. intros x Hx. split.
  - intros Hne Heq. apply Hne.
    assert (bn !! name (Value x) = Some (eptr x)) as H1 by (apply Hbn; eauto).
    assert (bn !! name (Value x0) = Some (eptr x0)) as H2 by (apply Hbn; eauto).
    congruence.
  - intros Hne Heq. apply Hne. by rewrite (eptr_inj _ x x0 Hp Hx Hx0 Heq).
Qed.

(** ** Which operations call the hook *)

Lemma Insert_total (n : string) (w : World) :
  ∃ w', Insert n w = Some ((), w') ∧
        event (deleter w') = event (deleter w) ∧
        dir (deleter w') = dir (deleter w) ∧
        shutdownErr (deleter w') = shutdownErr (deleter w).
Proof.
  destruct (shutdownErr (deleter w)) eqn:Hs.
  - exists w. by rewrite Insert_shutdown.
  - destruct (byName (deleter w) !! n) as [e|] eqn:Hn.
    + exists w. by rewrite (Insert_present n e).
    + exists (inserted_world n w). by rewrite Insert_fresh.
Qed.

Lemma Remove_total (n : string) (w : World) :
  ∃ w', Remove n w = Some ((), w') ∧ event (deleter w') = event (deleter w).
Proof.
  destruct (byName (deleter w) !! n) as [e|] eqn:Hn.
  - exists (removed_world n e w). by rewrite (Remove_present n e).
  - exists w. by rewrite Remove_absent.
Qed.

Lemma initCallback_total (de : DirEntry) (w : World) :
  ∃ b w', initCallback de w = Some (b, w') ∧
          event (deleter w') = event (deleter w).
Proof.
  unfold initCallback.
  unfold mbind at 1, M_bind at 1, get_deleter at 1.
  destruct (shutdownErr (deleter w)); [by exists false, w|].
  destruct (negb (de_IsRegular de)); [by exists true, w|].
  assert (Hins : ∀ w1 : World, event (deleter w1) = event (deleter w) →
            ∃ b w', (Insert (de_Name de);; mret true) w1 = Some (b, w') ∧
                    event (deleter w') = event (deleter w)).
  { intros w1 Hw1. unfold mbind, M_bind.
    destruct (Insert_total (de_Name de) w1) as (w2 & -> & Hev & _).
    exists true, w2. split; [done|congruence]. }
  destruct (strings.Contains (de_Name de) partialSuffix); [by apply Hins|].
  destruct (strings.Contains (de_Name de) deletedSuffix); [|by exists true, w].
  unfold mbind at 1, M_bind at 1, os_remove at 1.
  destruct (os_Remove _ (fsys w)) as [[e1|] fs1]; [by apply Hins|].
  unfold mbind at 1, M_bind at 1, os_remove at 1. cbn [fsys].
  destruct (os_Remove _ fs1) as [[e2|] fs2]; [by apply Hins|].
  by eexists true, _.
Qed.

Lemma rangeDir_total (des : list DirEntry) (w : World) :
  ∃ w', rangeDir des initCallback w = Some ((), w') ∧
        event (deleter w') = event (deleter w).
Proof.
  revert w. induction des as [|de des IH]; intros w; simpl; [by exists w|].
  unfold mbind at 1, M_bind at 1.
  destruct (initCallback_total de w) as (b & w1 & -> & Hev).
  destruct b; [|by exists w1].
  destruct (IH w1) as (w2 & -> & Hev2). exists w2. split; [done|congruence].
Qed.

Lemma initScan_hook (des : list DirEntry) (w : World) :
  event (deleter w) ≠ None → ∃ w', initScan des w = Some ((), w').
Proof.
  intros Hev. unfold initScan.
  unfold mbind at 1, M_bind at 1, call_event at 1.
  unfold mbind at 1, M_bind at 1, get_deleter at 1.
  destruct (event (deleter w)) as [h|] eqn:Hh; [|done]. unfold emit at 1.
  unfold mbind at 1, M_bind at 1.
  destruct (rangeDir_total des
    {| deleter := deleter w; fsys := fsys w; clockNow := clockNow w;
       nextPtr := nextPtr w; trace := trace w ++ [EvEvent "start init"] |})
    as (w1 & -> & Hev1). simpl in Hev1.
  unfold call_event, mbind, M_bind, get_deleter. rewrite Hev1, Hh.
  unfold emit. by eexists.
Qed.

Lemma initScan_nil_hook (des : list DirEntry) (w : World) :
  event (deleter w) = None → initScan des w = None.
Proof. intros Hev. unfold initScan. unfold_M. by rewrite Hev. Qed.

(** ** The cold-start scan, entry by entry *)

(** What the callback does on a regular entry that it takes for a
    tombstone, while shutdown has not begun. *)
Lemma initCallback_tombstone (de : DirEntry) (w : World) :
  shutdownErr (deleter w) = false → de_IsRegular de = true →
  strings.Contains (de_Name de) partialSuffix = false →
  strings.Contains (de_Name de) deletedSuffix = true →
  let companion := filepath_Join (dir (deleter w))
                     (strings.TrimSuffix (de_Name de) deletedSuffix) in
  let tombstone := filepath_Join (dir (deleter w)) (de_Name de) in
  initCallback de w =
  let '(r1, fs1) := os_Remove companion (fsys w) in
  match r1 with
  | Some _ =>
      (Insert (de_Name de);; mret true)
        (observe fs1 [EvRemove companion r1] w)
  | None =>
      let '(r2, fs2) := os_Remove tombstone fs1 in
      match r2 with
      | Some _ =>
          (Insert (de_Name de);; mret true)
            (observe fs2 [EvRemove companion None; EvRemove tombstone r2] w)
      | None =>
          Some (true, observe fs2 [EvRemove companion None;
                                   EvRemove tombstone None] w)
      end
  end.
Proof.
  intros Hs Hreg Hpart Hdel. cbv zeta. unfold initCallback.
  unfold mbind at 1, M_bind at 1, get_deleter at 1.
  rewrite Hs, Hreg, Hpart, Hdel. cbn [negb].
  unfold mbind at 1, M_bind at 1, os_remove at 1.
  destruct (os_Remove _ (fsys w)) as [[e1|] fs1]; [done|].
  unfold mbind at 1, M_bind at 1, os_remove at 1. cbn [fsys deleter].
  destruct (os_Remove _ fs1) as [[e2|] fs2]; unfold observe; cbn [trace];
    by rewrite <- app_assoc.
Qed.

Lemma Insert_then_true (n : string) (w : World) :
  ∃ w', Insert n w = Some ((), w') ∧
        (Insert n;; mret true) w = Some (true, w') ∧
        removals (trace w') = removals (trace w) ∧ fsys w' = fsys w.
Proof.
  unfold mbind, M_bind.
  destruct (shutdownErr (deleter w)) eqn:Hs.
  - exists w. by rewrite Insert_shutdown.
  - destruct (byName (deleter w) !! n) as [e|] eqn:Hn.
    + exists w. by rewrite (Insert_present n e).
    + exists (inserted_world n w). rewrite Insert_fresh by done.
      split_and!; [done|done| |done]. simpl.
      rewrite removals_app. destruct (queue (deleter w)); simpl;
        by rewrite app_nil_r.
Qed.

(** * The properties of the specification *)

(** C1. [Insert(name)], called when shutdown has not begun and [name] is not
    in the store, appends a new record stamped with the current clock time
    at the back of the queue (and indexes it); it starts a [waitAndDelete]
    goroutine, with the full [deleteDelay], if and only if the store goes
    from 0 to 1 records.  When shutdown has begun, [Insert] leaves the world
    as it is: the store is unchanged and nothing is started. *)
Theorem Insert_appends_and_starts_worker (n : string) (w : World) :
  wf w →
  (shutdownErr (deleter w) = false → n ∉ names (queue (deleter w)) →
   ∃ w' started,
     Insert n w = Some ((), w') ∧
     queue (deleter w') =
       queue (deleter w) ++
       [{| eptr := nextPtr w;
           Value := {| name := n; inserted := clockNow w |} |}] ∧
     byName (deleter w') = <[n := nextPtr w]> (byName (deleter w)) ∧
     shutdownErr (deleter w') = false ∧
     trace w' = trace w ++ started ∧
     (EvGo (WaitAndDelete deleteDelay) ∈ started ↔
        length (queue (deleter w)) = 0%nat ∧
        length (queue (deleter w')) = 1%nat) ∧
     (∀ e, e ∈ started → e = EvGo (WaitAndDelete deleteDelay)) ∧
     (length started ≤ 1)%nat) ∧
  (shutdownErr (deleter w) = true → Insert n w = Some ((), w)).
Proof.
  intros Hwf. split.
  - intros Hs Hfresh. apply (wf_absent _ _ _ n Hwf) in Hfresh.
    rewrite Insert_fresh by done. unfold inserted_world.
    eexists _, _. split; [done|]. cbn [deleter queue byName shutdownErr trace].
    split_and!; [done|done|done|done| | |].
    + rewrite length_app. destruct (queue (deleter w)); simpl.
      * split; [done|]. intros _. by left.
      * split; [by intros ?%elem_of_nil|]. intros [? _]. done.
    + destruct (queue (deleter w)); [|by intros ? ?%elem_of_nil].
      by intros e ->%list_elem_of_singleton.
    + destruct (queue (deleter w)); simpl; lia.
  - apply Insert_shutdown.
Qed.


(** C3. When an [os.Remove] of a visited record fails with an error other
    than "does not exist", the record is not removed: it stays in the store
    and in the index.  After the walk, the failed records stand at the
    back of the queue, in the order of their failures, with their time
    reset to [now]; a record is visited at most once in the pass, and a
    later sweep at [now'] visits a failed record only when [now' - now] has
    reached [deleteDelay]; if a failed record is then the front of the
    queue, the successor is started with exactly [deleteDelay]. *)
Theorem failed_records_are_requeued (now : Z) (w : World) :
  event (deleter w) ≠ None → wf w →
  ∃ w', sweep now w = Some ((), w') ∧
    let d := deleter w in
    let pl := (plan now (dir d) (queue d) (fsys w)).1 in
    let failed := plan_failed pl in
    (∀ x, x ∈ failed ↔ ∃ evs, (x, false, evs) ∈ pl) ∧
    (∀ x ok evs, (x, ok, evs) ∈ pl →
       ok = false ↔
       ∃ p e, (p, Some e) ∈ removals evs ∧ os_IsNotExist e = false) ∧
    queue (deleter w') =
      drop (length pl) (queue d) ++ (reset now <$> failed) ∧
    (∀ x, x ∈ failed →
       x ∈ queue d ∧
       inserted (Value (reset now x)) = now ∧
       name (Value (reset now x)) = name (Value x) ∧
       byName (deleter w') !! name (Value x) = Some (eptr x)) ∧
    NoDup ((λ p, p.1.1) <$> pl) ∧
    (∀ x now', x ∈ failed →
       mature now' (reset now x) = true ↔ deleteDelay ≤ now' - now) ∧
    (∀ x q', x ∈ failed → queue (deleter w') = reset now x :: q' →
       shutdownErr d = false →
       trace w' = trace w ++ plan_trace pl ++ [EvGo (WaitAndDelete deleteDelay)]).
Proof.
  intros Hev Hwf. exists (swept now w).
  split; [apply sweep_swept; [done|apply Hwf]|].
  destruct (swept_fields now w) as (Hq & Hbn & Htr).
  pose proof (wf_swept now w Hwf) as Hwf'.
  cbv zeta in *. split_and!.
  - apply plan_failed_elem.
  - intros x ok evs Hin.
    apply plan_elem in Hin as (Hdue & fs0 & fs1 & Hex).
    apply expire_spec in Hex as (_ & _ & Hok & Hfail & _).
    split.
    + intros Hf. destruct (Hfail Hf) as (p & e & Hin & He).
      exists p, e. split; [by apply elem_of_removals|done].
    + intros (p & e & Hin%elem_of_removals & He).
      destruct ok; [|done]. specialize (Hok eq_refl p (Some e) Hin).
      simpl in Hok. by rewrite He in Hok.
  - done.
  - intros x Hx. split_and!; [|done|done|].
    + rewrite (due_prefix now (queue (deleter w))). apply elem_of_app. left.
      eapply elem_of_sublist; [exact Hx|]. apply plan_failed_sublist.
    + apply Hwf'. exists (reset now x). split; [|done].
      rewrite Hq. apply elem_of_app. right. by apply list_elem_of_fmap_2.
  - rewrite plan_records. apply due_NoDup, Hwf.
  - intros x now' _. rewrite mature_iff. done.
  - intros x q' Hx Hfront Hs. rewrite Htr. do 2 f_equal.
    eapply successor_after_reset; [exact Hfront|].
    by rewrite (proj1 (proj2 (proj2 (swept_deleter now w)))).
Qed.

(** C4 (as the code has it). The callback of the cold-start scan, on each
    directory entry: once shutdown is observed it does nothing and stops
    the scan, so the rest of the directory is not visited; an entry that is
    not a regular file is skipped; a name that contains the partial marker
    is enqueued with [Insert]; otherwise, a name that contains the
    tombstone marker has its companion file (the name without a trailing
    tombstone marker) removed at once and then, if that succeeded, the
    tombstone itself removed, and is enqueued with [Insert] only if one of
    the two removals failed; any other name is left alone. *)
Theorem scan_callback_by_cases (de : DirEntry) (w : World) :
  let d := deleter w in
  let nm := de_Name de in
  let companion :=
    filepath_Join (dir d) (strings.TrimSuffix nm deletedSuffix) in
  let tombstone := filepath_Join (dir d) nm in
  (shutdownErr d = true →
   initCallback de w = Some (false, w) ∧
   ∀ rest, rangeDir (de :: rest) initCallback w = Some ((), w)) ∧
  (shutdownErr d = false →
   (de_IsRegular de = false → initCallback de w = Some (true, w)) ∧
   (de_IsRegular de = true →
    (strings.Contains nm partialSuffix = true →
     ∃ w', Insert nm w = Some ((), w') ∧
           initCallback de w = Some (true, w')) ∧
    (strings.Contains nm partialSuffix = false →
     strings.Contains nm deletedSuffix = true →
     ∃ r1 fs1, os_Remove companion (fsys w) = (r1, fs1) ∧
       match r1 with
       | Some _ =>
           ∃ w', Insert nm (observe fs1 [EvRemove companion r1] w)
                 = Some ((), w') ∧
                 initCallback de w = Some (true, w')
       | None =>
           ∃ r2 fs2, os_Remove tombstone fs1 = (r2, fs2) ∧
             match r2 with
             | Some _ =>
                 ∃ w', Insert nm (observe fs2 [EvRemove companion None;
                                              EvRemove tombstone r2] w)
                       = Some ((), w') ∧
                       initCallback de w = Some (true, w')
             | None =>
                 initCallback de w =
                 Some (true, observe fs2 [EvRemove companion None;
                                          EvRemove tombstone None] w)
             end
       end) ∧
    (strings.Contains nm partialSuffix = false →
     strings.Contains nm deletedSuffix = false →
     initCallback de w = Some (true, w)))).
Proof.
  intros d nm companion tombstone. split.
  - intros Hs.
    assert (Hcb : initCallback de w = Some (false, w)).
    { unfold initCallback. unfold_M. fold d. by rewrite Hs. }
    split; [done|]. intros rest. simpl. unfold mbind, M_bind. by rewrite Hcb.
  - intros Hs. split.
    + intros Hreg. unfold initCallback. unfold_M. fold d.
      by rewrite Hs, Hreg.
    + intros Hreg. split_and!.
      * intros Hpart.
        destruct (Insert_then_true nm w) as (w' & Hi & Hb & _).
        exists w'. split; [done|]. rewrite <- Hb.
        unfold initCallback. unfold mbind at 1, M_bind at 1, get_deleter at 1.
        fold d. fold nm. by rewrite Hs, Hreg, Hpart.
      * intros Hpart Hdel. rewrite initCallback_tombstone by done.
        fold d. fold nm. fold companion. fold tombstone.
        destruct (os_Remove companion (fsys w)) as [r1 fs1].
        exists r1, fs1. split; [done|]. destruct r1 as [e1|].
        -- destruct (Insert_then_true nm (observe fs1 [EvRemove companion (Some e1)] w))
             as (w' & Hi & Hb & _). by exists w'.
        -- destruct (os_Remove tombstone fs1) as [r2 fs2].
           exists r2, fs2. split; [done|]. destruct r2 as [e2|]; [|done].
           destruct (Insert_then_true nm
             (observe fs2 [EvRemove companion None; EvRemove tombstone (Some e2)] w))
             as (w' & Hi & Hb & _). by exists w'.
      * intros Hpart Hdel. unfold initCallback. unfold_M. fold d. fold nm.
        by rewrite Hs, Hreg, Hpart, Hdel.
Qed.

(** C5. A name is in the store at most once, at any time: it is so in every
    state that the deleter reaches from [Init] by any interleaving of
    inserts, removes, sweeps, scan steps and shutdown; each operation
    (also a sweep and a whole cold-start scan on their own) keeps the store
    well formed, which includes that no name occurs twice.  An [Insert] of
    a name that is present changes nothing, and two inserts of one name
    leave exactly one record of that name. *)
Theorem store_names_are_unique :
  (∀ ev d fs t ops w,
     (Init ev d;; run ops) (newWorld fs t) = Some ((), w) →
     wf w ∧ NoDup (names (queue (deleter w)))) ∧
  (∀ o w w', wf w → run_op o w = Some ((), w') →
     wf w' ∧ NoDup (names (queue (deleter w')))) ∧
  (∀ now w w', wf w → event (deleter w) ≠ None →
     sweep now w = Some ((), w') →
     wf w' ∧ NoDup (names (queue (deleter w')))) ∧
  (∀ des w w', wf w → initScan des w = Some ((), w') →
     wf w' ∧ NoDup (names (queue (deleter w')))) ∧
  (∀ n w, wf w → n ∈ names (queue (deleter w)) →
     Insert n w = Some ((), w)) ∧
  (∀ n w, wf w → shutdownErr (deleter w) = false →
     ∃ w1, Insert n w = Some ((), w1) ∧ Insert n w1 = Some ((), w1) ∧
           length (filter (λ x, name (Value x) = n) (queue (deleter w1)))
           = 1%nat).
Proof.
  assert (Hnd : ∀ w, wf w → wf w ∧ NoDup (names (queue (deleter w))))
    by (intros w Hwf; split; [done|apply Hwf]).
  split_and!.
  - intros ev d fs t ops w. unfold mbind at 1, M_bind at 1.
    destruct (Init ev d (newWorld fs t)) as [[[] w0]|] eqn:Hi; [|done].
    intros Hrun. apply Hnd. eapply run_wf; [|exact Hrun].
    by eapply Init_wf.
  - intros o w w' Hwf Ho. apply Hnd. by eapply run_op_wf.
  - intros now w w' Hwf Hev. rewrite sweep_swept; [|done|apply Hwf].
    intros [= <-]. by apply Hnd, wf_swept.
  - intros des w w' Hwf Hs. apply Hnd. by eapply initScan_wf.
  - intros n w Hwf Hin.
    destruct (byName (deleter w) !! n) as [e|] eqn:Hn;
      [by apply (Insert_present n e)|].
    by apply (wf_absent _ _ _ n Hwf) in Hn.
  - intros n w Hwf Hs.
    destruct (byName (deleter w) !! n) as [e|] eqn:Hn.
    + exists w. rewrite (Insert_present n e) by done. split_and!; [done..|].
      apply names_count; [apply Hwf|].
      destruct (decide (n ∈ names (queue (deleter w)))) as [|Hnot]; [done|].
      apply (wf_absent _ _ _ n Hwf) in Hnot. congruence.
    + exists (inserted_world n w). rewrite Insert_fresh by done.
      assert (Hwf' : wf (inserted_world n w)) by by apply wf_push.
      assert (Hin : byName (deleter (inserted_world n w)) !! n = Some (nextPtr w))
        by apply lookup_insert_eq.
      split_and!; [done|by apply (Insert_present n (nextPtr w))|].
      apply names_count; [apply Hwf'|].
      destruct (decide (n ∈ names (queue (deleter (inserted_world n w)))))
        as [|Hnot]; [done|].
      apply (wf_absent _ _ _ n Hwf') in Hnot. congruence.
Qed.


(** C7. In a sweep, a removal that fails only because the file does not
    exist counts as a removal that succeeded, for the file that a tombstone
    stands for and for the record's own file alike: a visited record is
    deleted exactly when each of its removals returned nil or "does not
    exist".  A deleted record is gone from the queue and from the index,
    the event "deleted <name>" is emitted for it, nothing is logged for it
    and it is not requeued. *)
Theorem missing_file_counts_as_deleted (now : Z) (w : World) :
  event (deleter w) ≠ None → wf w →
  ∃ w', sweep now w = Some ((), w') ∧
    let d := deleter w in
    let pl := (plan now (dir d) (queue d) (fsys w)).1 in
    trace w' = trace w ++ plan_trace pl ++ successor now (deleter w') ∧
    ∀ x ok evs, (x, ok, evs) ∈ pl →
      (ok = true ↔
       ∀ p r, (p, r) ∈ removals evs →
              r = None ∨ ∃ e, r = Some e ∧ os_IsNotExist e = true) ∧
      (ok = true →
       (name (Value x) ∉ names (queue (deleter w'))) ∧
       byName (deleter w') !! name (Value x) = None ∧
       EvEvent ("deleted " +:+ name (Value x)) ∈ plan_trace pl ∧
       (∀ f e, EvLogf f e ∉ evs) ∧
       reset now x ∉ queue (deleter w')).
Proof.
  intros Hev Hwf. exists (swept now w).
  split; [apply sweep_swept; [done|apply Hwf]|].
  destruct (swept_fields now w) as (Hq & Hbn & Htr).
  pose proof (wf_swept now w Hwf) as Hwf'.
  cbv zeta in *. split; [done|].
  intros x ok evs Hin.
  pose proof Hin as Hin'.
  apply plan_elem in Hin' as (Hdue & fs0 & fs1 & Hex).
  apply expire_spec in Hex as (_ & _ & Hgood & Hfail & Hlog & _).
  split.
  - split.
    + intros Hok p r Hpr. apply elem_of_removals in Hpr.
      by apply removal_failed_false, (Hgood Hok p r).
    + intros Hbenign. destruct ok; [done|].
      destruct (Hfail eq_refl) as (p & e & Hp & He).
      apply elem_of_removals in Hp.
      destruct (Hbenign p (Some e) Hp) as [|(e' & [= <-] & He')]; congruence.
  - intros ->.
    assert (Hnone : byName (deleter (swept now w)) !! name (Value x) = None).
    { rewrite Hbn, lookup_delete_all. rewrite decide_True; [done|].
      apply (list_elem_of_fmap_2 (λ x, name (Value x))).
      apply plan_deleted_elem. by exists evs. }
    assert (Hgone : name (Value x) ∉ names (queue (deleter (swept now w))))
      by by apply (wf_absent _ _ _ _ Hwf').
    split_and!; [done|done| | |].
    + by eapply plan_trace_deleted.
    + intros f e Hl. by destruct (Hlog f e Hl).
    + intros Hr. apply Hgone.
      by apply (list_elem_of_fmap_2 (λ x, name (Value x))) in Hr.
Qed.

(** C8 (as the code has it). The sweep does not clamp the wait of its
    successor: when the store is not empty after the pass and shutdown has
    not fired, it starts [waitAndDelete(deleteDelay - now.Sub(inserted))]
    for the new front record, computed on [int64].  The front record is
    then always younger than [deleteDelay], so that wait is positive and at
    most [deleteDelay + (inserted - now)], as long as the subtraction does
    not overflow, that is when the front record is stamped less than
    [maxDuration - deleteDelay] after [now]. *)
Theorem successor_wait_is_positive (now : Z) (w : World) :
  event (deleter w) ≠ None → wf w →
  ∃ w', sweep now w = Some ((), w') ∧
    ∀ front, head (queue (deleter w')) = Some front →
      shutdownErr (deleter w') = false →
      let d := deleter w in
      let pl := (plan now (dir d) (queue d) (fsys w)).1 in
      let wait := Duration_sub deleteDelay
                    (Time_Sub now (inserted (Value front))) in
      trace w' = trace w ++ plan_trace pl ++ [EvGo (WaitAndDelete wait)] ∧
      now - inserted (Value front) < deleteDelay ∧
      (inserted (Value front) - now ≤ maxDuration - deleteDelay →
       wait = deleteDelay - (now - inserted (Value front)) ∧ 0 < wait).
Proof.
  intros Hev Hwf. exists (swept now w).
  split; [apply sweep_swept; [done|apply Hwf]|].
  intros front Hfront Hs.
  destruct (swept_fields now w) as (_ & _ & Htr).
  pose proof (swept_front_young now w front Hfront) as Hyoung.
  cbv zeta in *. split_and!; [|done|].
  - rewrite Htr. do 2 f_equal. unfold successor.
    destruct (queue (deleter (swept now w))); [done|].
    simpl in Hfront. injection Hfront as ->. by rewrite Hs.
  - intros Hrange. rewrite deleteDelay_value in *.
    unfold maxDuration in Hrange.
    rewrite Time_Sub_exact by (unfold minDuration, maxDuration; lia).
    unfold Duration_sub.
    rewrite wrap64_small by (unfold minDuration, maxDuration; lia). lia.
Qed.


(** C10. In the tombstone branch of the cold-start scan a missing companion
    file is a failure like any other: when the removal of the companion
    file returns an error, "does not exist" included, the scan does not
    call [os.Remove] on the tombstone file and calls [Insert] with the
    tombstone name instead.  The sweep goes on to the record's own file
    when the companion file does not exist. *)
Theorem scan_missing_companion_enqueues (de : DirEntry) (w : World)
    (e : oserror) (fs1 : FS) :
  let d := deleter w in
  let companion := filepath_Join (dir d)
                     (strings.TrimSuffix (de_Name de) deletedSuffix) in
  shutdownErr d = false → de_IsRegular de = true →
  strings.Contains (de_Name de) partialSuffix = false →
  strings.Contains (de_Name de) deletedSuffix = true →
  os_Remove companion (fsys w) = (Some e, fs1) →
  (∃ w',
     Insert (de_Name de) (observe fs1 [EvRemove companion (Some e)] w)
       = Some ((), w') ∧
     initCallback de w = Some (true, w') ∧
     removals (trace w') = removals (trace w) ++ [(companion, Some e)] ∧
     fsys w' = fs1) ∧
  (∀ x cp fsA,
     companion_path (dir d) x = Some cp →
     os_Remove cp (fsys w) = (Some ENOENT, fsA) →
     ∃ ok w', deleteExpired (Value x) w = Some (ok, w') ∧
       ∃ r evs,
         removals (trace w') =
         removals (trace w) ++ [(cp, Some ENOENT); (own_path (dir d) x, r)]
         ++ evs ∧
         ok = negb (removal_failed r)).
Proof.
  intros d companion Hs Hreg Hpart Hdel Hrm. split.
  - rewrite initCallback_tombstone by done. fold d. fold companion. rewrite Hrm.
    destruct (Insert_then_true (de_Name de)
                (observe fs1 [EvRemove companion (Some e)] w))
      as (w' & Hi & Hb & Htr & Hfs).
    exists w'. split_and!; [done|done| |done].
    rewrite Htr. simpl. by rewrite removals_app.
  - intros x cp fsA Hcp HrmA. rewrite deleteExpired_expire.
    unfold expire. fold d. rewrite Hcp, HrmA. simpl.
    destruct (os_Remove (own_path (dir d) x) fsA) as [r fs2] eqn:Hown.
    eexists _, _. split; [done|]. exists r. simpl.
    rewrite removals_app. simpl.
    destruct r as [e2|]; simpl; [|by exists []].
    destruct (os_IsNotExist e2); simpl; by exists [].
Qed.

(** * Further properties of the deleter *)

(** ** After shutdown *)

Lemma swept_log (now : Z) (evs : list effect) (w : World) :
  deleter (swept now (log evs w)) = deleter (swept now w) ∧
  fsys (swept now (log evs w)) = fsys (swept now w) ∧
  trace (swept now (log evs w)) =
    trace w ++ evs ++
    plan_trace (plan now (dir (deleter w)) (queue (deleter w)) (fsys w)).1 ++
    successor now (deleter (swept now w)).
Proof.
  unfold swept, log, observe. cbn [deleter fsys trace clockNow nextPtr].
  destruct (plan now (dir (deleter w)) (queue (deleter w)) (fsys w)) as [pl fs'].
  cbn [deleter fsys trace fst]. by rewrite <- !app_assoc.
Qed.

Lemma waited_trace (wait : Z) (wk : wake) (w : World) :
  trace (waited wait wk w) =
  trace w ++ [EvNewTimer wait; EvEvent "start waitAndDelete"] ++
  match wk with
  | TimerFired now =>
      plan_trace (plan now (dir (deleter w)) (queue (deleter w)) (fsys w)).1 ++
      successor now (deleter (swept now w))
  | ShutdownDone | EmptySignal => []
  end ++ [EvEvent "end waitAndDelete"; EvTimerStop].
Proof.
  unfold waited. destruct wk as [| |now]; cbn [log observe trace];
    [by rewrite <- !app_assoc..|].
  destruct (swept_log now [EvNewTimer wait; EvEvent "start waitAndDelete"] w)
    as (_ & _ & ->).
  by rewrite <- !app_assoc.
Qed.

Lemma waited_deleter (wait : Z) (wk : wake) (w : World) :
  deleter (waited wait wk w) =
  match wk with
  | TimerFired now => deleter (swept now w)
  | ShutdownDone | EmptySignal => deleter w
  end.
Proof.
  unfold waited. destruct wk as [| |now]; [done..|].
  cbn [log observe deleter]. apply swept_log.
Qed.

Lemma plan_trace_no_go (now : Z) (d : string) (q : list Element) (fs : FS)
    (t : task) :
  EvGo t ∉ plan_trace (plan now d q fs).1.
Proof.
  unfold plan_trace. intros ([[x ok] evs] & Hin & Hpl)%list_elem_of_bind.
  apply plan_elem in Hpl as (_ & fs0 & fs1 & Hex).
  apply expire_spec in Hex as (_ & _ & _ & _ & _ & Hshape).
  apply elem_of_app in Hin as [Hin|Hin].
  - destruct (Hshape _ Hin) as [(? & ? & ?)|(? & ? & ?)]; done.
  - destruct ok; [|by apply elem_of_nil in Hin].
    by apply list_elem_of_singleton in Hin.
Qed.

Lemma successor_shutdown (now : Z) (d : fileDeleter) :
  shutdownErr d = true → successor now d = [].
Proof. intros Hs. unfold successor. rewrite Hs. by destruct (queue d). Qed.

Lemma run_op_after_shutdown (o : op) (w w' : World) :
  wf w → shutdownErr (deleter w) = true → run_op o w = Some ((), w') →
  shutdownErr (deleter w') = true ∧
  (∃ evs, trace w' = trace w ++ evs ∧ ∀ t, EvGo t ∉ evs) ∧
  (∀ n, n ∈ names (queue (deleter w')) → n ∈ names (queue (deleter w))).
Proof.
  intros Hwf Hs.
  assert (Hsame : shutdownErr (deleter w) = true ∧
            (∃ evs, trace w = trace w ++ evs ∧ ∀ t, EvGo t ∉ evs) ∧
            (∀ n, n ∈ names (queue (deleter w)) →
                  n ∈ names (queue (deleter w)))).
  { split_and!; [done| |done]. exists []. rewrite app_nil_r.
    split; [done|]. by intros t ?%elem_of_nil. }
  destruct o as [m|m| |wait wk|de|t|fs]; simpl.
  - rewrite Insert_shutdown by done. by intros [= <-].
  - destruct (byName (deleter w) !! m) as [e|] eqn:Hm.
    + rewrite (Remove_present m e) by done. intros [= <-].
      split_and!; [done| |].
      * eexists. split; [reflexivity|]. intros t.
        destruct (list_Remove e (queue (deleter w)));
          [by intros ?%list_elem_of_singleton|by intros ?%elem_of_nil].
      * simpl. intros n (x & -> & [_ Hx]%list_Remove_elem_of)%list_elem_of_fmap.
        by apply (list_elem_of_fmap_2 (λ x, name (Value x))).
    + rewrite Remove_absent by done. by intros [= <-].
  - intros [= <-]. split_and!; [done| |done].
    exists [EvCancel; EvGroupWait]. split; [simpl; by rewrite <- app_assoc|].
    intros t. set_solver.
  - destruct (event (deleter w)) as [h|] eqn:Hev;
      [|by rewrite waitAndDelete_nil_hook].
    rewrite waitAndDelete_waited; [|by rewrite Hev|apply Hwf].
    intros [= <-]. rewrite waited_deleter, waited_trace.
    destruct wk as [| |now].
    + split_and!; [done| |done]. eexists. split; [reflexivity|].
      intros t. set_solver.
    + split_and!; [done| |done]. eexists. split; [reflexivity|].
      intros t. set_solver.
    + destruct (swept_deleter now w) as (_ & _ & Hs' & _).
      split_and!; [congruence| |by apply swept_names].
      eexists. split; [reflexivity|]. intros t.
      rewrite successor_shutdown by congruence. rewrite app_nil_r.
      rewrite !elem_of_app. intros [Hin|[Hin|Hin]].
      * set_solver.
      * by apply plan_trace_no_go in Hin.
      * set_solver.
  - unfold mbind, M_bind.
    assert (Hcb : initCallback de w = Some (false, w)).
    { unfold initCallback. unfold_M. by rewrite Hs. }
    rewrite Hcb. by intros [= <-].
  - intros [= <-]. simpl. split_and!; [done| |done]. apply Hsame.
  - intros [= <-]. simpl. split_and!; [done| |done]. apply Hsame.
Qed.

(** X1. Shutdown is final.  From the call of [Shutdown] on, whatever the
    goroutines do, the deleter stays shut down, no goroutine is started any
    more (neither by [Insert] nor by a sweep), and no name enters the
    store: [Insert] and the scan do nothing, the store can only shrink.
    [Shutdown] itself leaves the store as it is. *)
Theorem shutdown_is_final (ops : list op) (w w' : World) :
  wf w → run (OpShutdown :: ops) w = Some ((), w') →
  shutdownErr (deleter w') = true ∧
  (∃ evs, trace w' = trace w ++ [EvCancel; EvGroupWait] ++ evs ∧
          ∀ t, EvGo t ∉ evs) ∧
  (∀ n, n ∈ names (queue (deleter w')) → n ∈ names (queue (deleter w))) ∧
  (ops = [] → queue (deleter w') = queue (deleter w) ∧
              byName (deleter w') = byName (deleter w)).
Proof.
  intros Hwf. simpl. unfold mbind at 1, M_bind at 1.
  change (Shutdown w) with
    (Some ((), {| deleter := {| event := event (deleter w);
                                dir := dir (deleter w);
                                queue := queue (deleter w);
                                byName := byName (deleter w);
                                shutdownErr := true |};
                  fsys := fsys w; clockNow := clockNow w;
                  nextPtr := nextPtr w;
                  trace := (trace w ++ [EvCancel]) ++ [EvGroupWait] |})).
  cbv iota beta.
  set (w0 := {| deleter := _ |}).
  assert (Hwf0 : wf w0) by done.
  assert (Hgen : ∀ ops w1 w2, wf w1 → shutdownErr (deleter w1) = true →
            run ops w1 = Some ((), w2) →
            shutdownErr (deleter w2) = true ∧
            (∃ evs, trace w2 = trace w1 ++ evs ∧ ∀ t, EvGo t ∉ evs) ∧
            (∀ n, n ∈ names (queue (deleter w2)) →
                  n ∈ names (queue (deleter w1)))).
  { clear. intros ops. induction ops as [|o ops IH]; intros w1 w2 Hwf Hs; simpl.
    - intros [= <-]. split_and!; [done| |done]. exists [].
      rewrite app_nil_r. split; [done|]. by intros t ?%elem_of_nil.
    - unfold mbind, M_bind.
      destruct (run_op o w1) as [[[] w3]|] eqn:Ho; [|done]. intros Hrun.
      destruct (run_op_after_shutdown o w1 w3 Hwf Hs Ho)
        as (Hs3 & (evs1 & Ht1 & Hg1) & Hn1).
      destruct (IH w3 w2 (run_op_wf o w1 w3 Hwf Ho) Hs3 Hrun)
        as (Hs2 & (evs2 & Ht2 & Hg2) & Hn2).
      split_and!; [done| |by auto].
      exists (evs1 ++ evs2). rewrite Ht2, Ht1, app_assoc. split; [done|].
      intros t [?|?]%elem_of_app; [by apply (Hg1 t)|by apply (Hg2 t)]. }
  intros Hrun.
  destruct (Hgen ops w0 w' Hwf0 eq_refl Hrun) as (Hs & (evs & Ht & Hg) & Hn).
  split_and!; [done| |done|].
  - exists evs. split; [|done]. rewrite Ht. unfold w0. simpl.
    by rewrite <- !app_assoc.
  - intros ->. simpl in Hrun. by injection Hrun as <-.
Qed.

(** ** [Insert] and [Remove] together *)


(** ** What a sweep keeps *)

Lemma plan_trace_events (pl : list (Element * bool * list effect)) (s : string) :
  (∀ x ok evs, (x, ok, evs) ∈ pl → ∀ s', EvEvent s' ∉ evs) →
  EvEvent s ∈ plan_trace pl →
  ∃ x, x ∈ plan_deleted pl ∧ s = "deleted " +:+ name (Value x).
Proof.
  intros Hno ([[x ok] evs] & Hin & Hpl)%list_elem_of_bind.
  apply elem_of_app in Hin as [Hin|Hin]; [by apply (Hno _ _ _ Hpl) in Hin|].
  destruct ok; [|by apply elem_of_nil in Hin].
  apply list_elem_of_singleton in Hin. injection Hin as ->.
  exists x. split; [|done]. apply plan_deleted_elem. by exists evs.
Qed.

(** X3. A sweep loses no record.  The records of the queue are, after the
    sweep, the deleted ones and the ones still in the queue, each once and
    with the name and the address it had; the event "deleted <name>" is
    emitted for the deleted records and for nothing else. *)
Theorem sweep_loses_no_record (now : Z) (w : World) :
  event (deleter w) ≠ None → wf w →
  ∃ w', sweep now w = Some ((), w') ∧
    let d := deleter w in
    let pl := (plan now (dir d) (queue d) (fsys w)).1 in
    let deleted := plan_deleted pl in
    names (queue d) ≡ₚ names deleted ++ names (queue (deleter w')) ∧
    eptr <$> queue d ≡ₚ (eptr <$> deleted) ++ (eptr <$> queue (deleter w')) ∧
    length (queue d) = (length deleted + length (queue (deleter w')))%nat ∧
    trace w' = trace w ++ plan_trace pl ++ successor now (deleter w') ∧
    (∀ x, x ∈ deleted →
       EvEvent ("deleted " +:+ name (Value x)) ∈ plan_trace pl) ∧
    (∀ s, EvEvent s ∈ plan_trace pl →
       ∃ x, x ∈ deleted ∧ s = "deleted " +:+ name (Value x)).
Proof.
  intros Hev Hwf. exists (swept now w).
  split; [apply sweep_swept; [done|apply Hwf]|].
  destruct (swept_fields now w) as (Hq & _ & Htr).
  pose proof (plan_split now (dir (deleter w)) (queue (deleter w)) (fsys w))
    as Hsplit.
  cbv zeta in *. rewrite Hq.
  set (pl := (plan now (dir (deleter w)) (queue (deleter w)) (fsys w)).1) in *.
  assert (Hperm : queue (deleter w) ≡ₚ
            plan_deleted pl ++ drop (length pl) (queue (deleter w)) ++
            plan_failed pl).
  { rewrite Hsplit at 1. apply Permutation_app_head, Permutation_app_comm. }
  split_and!.
  - unfold names at 1. rewrite Hperm at 1. unfold names.
    rewrite !fmap_app. fold (names (reset now <$> plan_failed pl)).
    by rewrite names_reset.
  - rewrite Hperm at 1. by rewrite !fmap_app, eptr_reset.
  - rewrite Hperm at 1. by rewrite !length_app, length_fmap.
  - exact Htr.
  - intros x (evs & Hx)%plan_deleted_elem. by eapply plan_trace_deleted.
  - intros s. apply plan_trace_events. intros x ok evs Hin s' Hs'.
    apply plan_elem in Hin as (_ & fs0 & fs1 & Hex).
    apply expire_spec in Hex as (_ & _ & _ & _ & _ & Hshape).
    destruct (Hshape _ Hs') as [(? & ? & ?)|(? & ? & ?)]; done.
Qed.

(** ** A queue in the order of its time stamps *)

Lemma mature_older (now : Z) (x y : Element) :
  inserted (Value x) ≤ inserted (Value y) →
  mature now y = true → mature now x = true.
Proof. rewrite !mature_iff. lia. Qed.

Lemma filter_none {A} (P : A → Prop) `{!∀ x, Decision (P x)} (l : list A) :
  (∀ x, x ∈ l → ¬ P x) → filter P l = [].
Proof.
  induction l as [|y l IH]; intros Hno; [done|].
  rewrite filter_cons_False by (apply Hno; left).
  apply IH. intros x Hx. apply Hno. by right.
Qed.

Lemma due_of_sorted (now : Z) (q : list Element) :
  sorted_by_time q →
  due now q = filter (λ x, mature now x = true) q ∧
  ∀ x, x ∈ drop (length (due now q)) q → mature now x = false.
Proof.
  induction 1 as [|y q Hq IH Hy]; [split; [done|by intros ? ?%elem_of_nil]|].
  simpl. destruct (mature now y) eqn:Hm.
  - rewrite filter_cons_True by done. simpl. destruct IH as [-> IH]. done.
  - rewrite filter_cons_False by congruence. simpl.
    assert (Hall : ∀ x, x ∈ q → mature now x = false).
    { intros x Hx. apply not_true_iff_false. intros Hx'.
      rewrite Forall_forall in Hy.
      rewrite (mature_older now y x (Hy x Hx) Hx') in Hm. done. }
    split.
    + symmetry. apply filter_none. intros x Hx. rewrite (Hall x Hx). done.
    + intros x [->|Hx]%elem_of_cons; [done|by apply Hall].
Qed.

Lemma sorted_same_time (now : Z) (l : list Element) :
  sorted_by_time (reset now <$> l).
Proof.
  induction l as [|x l IH]; [constructor|].
  rewrite fmap_cons. constructor; [done|].
  apply Forall_forall. by intros y (z & -> & _)%list_elem_of_fmap.
Qed.

(** X4. [Insert] keeps the queue in the order of its time stamps, as long
    as the clock has not gone back behind a record of the queue. *)
Theorem Insert_keeps_time_order (n : string) (w w' : World) :
  sorted_by_time (queue (deleter w)) →
  (∀ x, x ∈ queue (deleter w) → inserted (Value x) ≤ clockNow w) →
  Insert n w = Some ((), w') →
  sorted_by_time (queue (deleter w')) ∧
  (∀ x, x ∈ queue (deleter w') → inserted (Value x) ≤ clockNow w').
Proof.
  intros Hsorted Hclock.
  destruct (shutdownErr (deleter w)) eqn:Hs;
    [rewrite Insert_shutdown by done; by intros [= <-]|].
  destruct (byName (deleter w) !! n) as [e|] eqn:Hn;
    [rewrite (Insert_present n e) by done; by intros [= <-]|].
  rewrite Insert_fresh by done. intros [= <-]. simpl. split.
  - apply StronglySorted_app. split_and!; [|done|repeat constructor].
    intros x y Hx ->%list_elem_of_singleton. simpl. by apply Hclock.
  - intros x [Hx| ->%list_elem_of_singleton]%elem_of_app; [by apply Hclock|].
    simpl. lia.
Qed.

(** X5. On a queue in the order of its time stamps the sweep misses no
    record: stopping at the first record that is too young, it has visited
    every record that is old enough, and all the records that it leaves in
    the queue, the requeued ones included, are younger than [deleteDelay].
    The queue is in time order again afterwards if no record was stamped
    after [now]. *)
Theorem sweep_of_sorted_queue (now : Z) (w : World) :
  event (deleter w) ≠ None → wf w →
  sorted_by_time (queue (deleter w)) →
  ∃ w', sweep now w = Some ((), w') ∧
    let d := deleter w in
    let pl := (plan now (dir d) (queue d) (fsys w)).1 in
    (λ p, p.1.1) <$> pl
      = filter (λ x, deleteDelay ≤ now - inserted (Value x)) (queue d) ∧
    (∀ x, x ∈ queue (deleter w') → now - inserted (Value x) < deleteDelay) ∧
    ((∀ x, x ∈ queue d → inserted (Value x) ≤ now) →
     sorted_by_time (queue (deleter w'))).
Proof.
  intros Hev Hwf Hsorted. exists (swept now w).
  split; [apply sweep_swept; [done|apply Hwf]|].
  destruct (swept_fields now w) as (Hq & _ & _).
  destruct (due_of_sorted now _ Hsorted) as [Hdue Hrest].
  cbv zeta in *. rewrite Hq.
  rewrite (plan_length now (dir (deleter w)) _ (fsys w)). split_and!.
  - rewrite plan_records, Hdue. apply filter_ext_elem.
    intros x _. apply mature_iff.
  - intros x [Hx|(y & -> & Hy)%list_elem_of_fmap]%elem_of_app.
    + by apply mature_false_iff, Hrest.
    + simpl. rewrite deleteDelay_value. lia.
  - intros Hnow. apply StronglySorted_app. split_and!.
    + intros x y Hx (z & -> & _)%list_elem_of_fmap. simpl. apply Hnow.
      eapply elem_of_sublist; [exact Hx|]. apply sublist_drop.
    + rewrite (due_prefix now (queue (deleter w))) in Hsorted.
      by apply StronglySorted_app_1_r in Hsorted.
    + apply sorted_same_time.
Qed.

(** ** A worker with nothing to do *)

Lemma swept_nothing_due (now : Z) (w : World) :
  due now (queue (deleter w)) = [] →
  deleter (swept now w) = deleter w ∧ fsys (swept now w) = fsys w ∧
  trace (swept now w) = trace w ++ successor now (deleter w).
Proof.
  intros Hdue. unfold swept.
  pose proof (plan_records now (dir (deleter w)) (queue (deleter w)) (fsys w))
    as Hrec.
  rewrite Hdue in Hrec.
  destruct (queue (deleter w)) as [|x q] eqn:Hq; simpl in *.
  - destruct w as [[] ? ? ? ?]; simpl in *. subst. by split_and!.
  - destruct (mature now x); [done|]. simpl.
    destruct w as [[] ? ? ? ?]; simpl in *. subst.
    rewrite app_nil_r. by split_and!.
Qed.

(** X6. A worker with nothing to do touches nothing.  When
    [waitAndDelete] is woken by shutdown or by the empty signal, or when
    its timer fires on an empty store or before the front record is old
    enough, the store and the files stay as they are and [os.Remove] is not
    called; only after the timer is a successor started, and then only if
    the store is not empty and shutdown has not begun. *)
Theorem idle_worker_touches_nothing (wait : Z) (wk : wake) (w : World) :
  event (deleter w) ≠ None → wf w →
  match wk with
  | TimerFired now => due now (queue (deleter w)) = []
  | ShutdownDone | EmptySignal => True
  end →
  ∃ w', waitAndDelete wait wk w = Some ((), w') ∧
    deleter w' = deleter w ∧ fsys w' = fsys w ∧
    trace w' =
      trace w ++ [EvNewTimer wait; EvEvent "start waitAndDelete"] ++
      match wk with
      | TimerFired now => successor now (deleter w)
      | ShutdownDone | EmptySignal => []
      end ++ [EvEvent "end waitAndDelete"; EvTimerStop].
Proof.
  intros Hev Hwf Hidle. exists (waited wait wk w).
  split; [apply waitAndDelete_waited; [done|apply Hwf]|].
  rewrite waited_deleter, waited_trace. destruct wk as [| |now]; [done..|].
  destruct (swept_nothing_due now w Hidle) as (Hd & Hfs & _).
  pose proof (plan_records now (dir (deleter w)) (queue (deleter w)) (fsys w))
    as Hrec.
  rewrite Hidle in Hrec. apply fmap_nil_inv in Hrec.
  rewrite Hrec, Hd. split_and!; [done| |done].
  unfold waited. simpl.
  destruct (swept_log now [EvNewTimer wait; EvEvent "start waitAndDelete"] w)
    as (_ & -> & _). done.
Qed.

(** ** What the scan touches *)

Lemma Insert_frame (n : string) (w : World) :
  ∃ w', Insert n w = Some ((), w') ∧
    dir (deleter w') = dir (deleter w) ∧
    removals (trace w') = removals (trace w) ∧
    (∀ m, m ∈ names (queue (deleter w')) →
          m ∈ names (queue (deleter w)) ∨ n = m).
Proof.
  destruct (Insert_then_true n w) as (w' & Hi & _ & Hrm & _).
  destruct (Insert_total n w) as (w'' & Hi' & _ & Hdir & _).
  rewrite Hi in Hi'. injection Hi' as <-.
  exists w'. split_and!; [done..|].
  intros m. by apply Insert_names.
Qed.

Lemma initCallback_touches (de : DirEntry) (w w' : World) (b : bool) :
  initCallback de w = Some (b, w') →
  dir (deleter w') = dir (deleter w) ∧
  (∀ n, n ∈ names (queue (deleter w')) →
        n ∈ names (queue (deleter w)) ∨ (de_Name de = n ∧ marked de)) ∧
  ∃ rs, removals (trace w') = removals (trace w) ++ rs ∧
    ∀ p r, (p, r) ∈ rs →
      taken_for_tombstone de ∧
      (p = filepath_Join (dir (deleter w))
             (strings.TrimSuffix (de_Name de) deletedSuffix) ∨
       p = filepath_Join (dir (deleter w)) (de_Name de)).
Proof.
  assert (Hsame : dir (deleter w) = dir (deleter w) ∧
            (∀ n, n ∈ names (queue (deleter w)) →
               n ∈ names (queue (deleter w)) ∨ (de_Name de = n ∧ marked de)) ∧
            ∃ rs, removals (trace w) = removals (trace w) ++ rs ∧
              ∀ p r, (p, r) ∈ rs →
                taken_for_tombstone de ∧
                (p = filepath_Join (dir (deleter w))
                       (strings.TrimSuffix (de_Name de) deletedSuffix) ∨
                 p = filepath_Join (dir (deleter w)) (de_Name de))).
  { split_and!; [done|by left|]. exists []. rewrite app_nil_r.
    split; [done|]. by intros p r ?%elem_of_nil. }
  destruct (shutdownErr (deleter w)) eqn:Hs.
  { unfold initCallback. unfold_M. rewrite Hs. by intros [= _ <-]. }
  destruct (de_IsRegular de) eqn:Hreg.
  2:{ unfold initCallback. unfold_M. rewrite Hs, Hreg. by intros [= _ <-]. }
  destruct (strings.Contains (de_Name de) partialSuffix) eqn:Hpart.
  { unfold initCallback. unfold mbind at 1, M_bind at 1, get_deleter at 1.
    rewrite Hs, Hreg, Hpart. cbn [negb].
    destruct (Insert_frame (de_Name de) w) as (w1 & Hi & Hdir & Hrm & Hnm).
    unfold mbind, M_bind. rewrite Hi. intros [= _ <-].
    split_and!; [done| |].
    - intros n Hn. destruct (Hnm n Hn) as [?|?]; [by left|right].
      split; [done|]. split; [done|by left].
    - exists []. rewrite app_nil_r. split; [done|]. by intros p r ?%elem_of_nil. }
  destruct (strings.Contains (de_Name de) deletedSuffix) eqn:Hdel.
  2:{ unfold initCallback. unfold_M. rewrite Hs, Hreg, Hpart, Hdel.
      by intros [= _ <-]. }
  assert (Htomb : taken_for_tombstone de) by done.
  assert (Hmarked : marked de) by (split; [done|by right]).
  rewrite initCallback_tombstone by done.
  set (companion := filepath_Join (dir (deleter w))
                      (strings.TrimSuffix (de_Name de) deletedSuffix)).
  set (tombstone := filepath_Join (dir (deleter w)) (de_Name de)).
  assert (Hins : ∀ fs evs,
            (∀ e, e ∈ evs → ∃ r, e = EvRemove companion r ∨
                                 e = EvRemove tombstone r) →
            (Insert (de_Name de);; mret true) (observe fs evs w) = Some (b, w') →
            dir (deleter w') = dir (deleter w) ∧
            (∀ n, n ∈ names (queue (deleter w')) →
               n ∈ names (queue (deleter w)) ∨ (de_Name de = n ∧ marked de)) ∧
            ∃ rs, removals (trace w') = removals (trace w) ++ rs ∧
              ∀ p r, (p, r) ∈ rs →
                taken_for_tombstone de ∧ (p = companion ∨ p = tombstone)).
  { intros fs evs Hevs.
    destruct (Insert_frame (de_Name de) (observe fs evs w))
      as (w1 & Hi & Hdir & Hrm & Hnm).
    unfold mbind, M_bind. rewrite Hi. intros [= _ <-].
    split_and!; [done| |].
    - intros n Hn. destruct (Hnm n Hn) as [?|?]; [by left|by right].
    - exists (removals evs). rewrite Hrm. simpl. rewrite removals_app.
      split; [done|]. intros p r Hpr%elem_of_removals.
      destruct (Hevs _ Hpr) as (r' & [[= -> _]|[= -> _]]); auto. }
  destruct (os_Remove companion (fsys w)) as [[e1|] fs1].
  { apply Hins. intros e ->%list_elem_of_singleton. eauto. }
  destruct (os_Remove tombstone fs1) as [[e2|] fs2].
  { apply Hins. intros e. set_unfold. intros [->|[->|[]]]; eauto. }
  intros [= _ <-]. split_and!; [done|by left|].
  exists [(companion, None); (tombstone, None)]. simpl.
  rewrite removals_app. split; [done|].
  intros p r. set_unfold. intros [[= -> _]|[[= -> _]|[]]]; auto.
Qed.

Lemma rangeDir_touches (des : list DirEntry) (w w' : World) :
  rangeDir des initCallback w = Some ((), w') →
  dir (deleter w') = dir (deleter w) ∧
  (∀ n, n ∈ names (queue (deleter w')) →
        n ∈ names (queue (deleter w)) ∨
        ∃ de, de ∈ des ∧ de_Name de = n ∧ marked de) ∧
  ∃ rs, removals (trace w') = removals (trace w) ++ rs ∧
    ∀ p r, (p, r) ∈ rs →
      ∃ de, de ∈ des ∧ taken_for_tombstone de ∧
        (p = filepath_Join (dir (deleter w))
               (strings.TrimSuffix (de_Name de) deletedSuffix) ∨
         p = filepath_Join (dir (deleter w)) (de_Name de)).
Proof.
  revert w. induction des as [|de des IH]; intros w; simpl.
  - intros [= <-]. split_and!; [done|by left|]. exists [].
    rewrite app_nil_r. split; [done|]. by intros p r ?%elem_of_nil.
  - unfold mbind at 1, M_bind at 1.
    destruct (initCallback de w) as [[b w1]|] eqn:Hcb; [|done].
    destruct (initCallback_touches de w w1 b Hcb)
      as (Hdir1 & Hnm1 & rs1 & Hrm1 & Hrs1).
    assert (Hhead : ∀ p r, (p, r) ∈ rs1 →
              ∃ de', de' ∈ de :: des ∧ taken_for_tombstone de' ∧
                (p = filepath_Join (dir (deleter w))
                       (strings.TrimSuffix (de_Name de') deletedSuffix) ∨
                 p = filepath_Join (dir (deleter w)) (de_Name de'))).
    { intros p r Hpr. destruct (Hrs1 p r Hpr) as [Ht Hp].
      exists de. split; [left|done]. }
    destruct b.
    + intros Hrest.
      destruct (IH w1 Hrest) as (Hdir2 & Hnm2 & rs2 & Hrm2 & Hrs2).
      split_and!; [congruence| |].
      * intros n Hn. destruct (Hnm2 n Hn) as [Hn1|(de' & Hde' & Heq & Hm)].
        -- destruct (Hnm1 n Hn1) as [?|[Heq Hm]]; [by left|right].
           exists de. split; [left|done].
        -- right. exists de'. split; [by right|done].
      * exists (rs1 ++ rs2). rewrite Hrm2, Hrm1, app_assoc. split; [done|].
        intros p r [Hpr|Hpr]%elem_of_app; [by apply (Hhead p r)|].
        destruct (Hrs2 p r Hpr) as (de' & Hde' & Ht & Hp).
        exists de'. rewrite <- Hdir1. split; [by right|done].
    + intros [= <-]. split_and!; [done| |].
      * intros n Hn. destruct (Hnm1 n Hn) as [?|[Heq Hm]]; [by left|right].
        exists de. split; [left|done].
      * exists rs1. split; [done|]. exact Hhead.
Qed.

Lemma Insert_trace_extends (n : string) (w w' : World) :
  Insert n w = Some ((), w') → ∃ evs, trace w' = trace w ++ evs.
Proof.
  destruct (shutdownErr (deleter w)) eqn:Hs.
  - rewrite Insert_shutdown by done. intros [= <-]. exists [].
    by rewrite app_nil_r.
  - destruct (byName (deleter w) !! n) as [e|] eqn:Hn.
    + rewrite (Insert_present _ e) by done. intros [= <-]. exists [].
      by rewrite app_nil_r.
    + rewrite Insert_fresh by done. intros [= <-]. simpl. by eexists.
Qed.

Lemma initCallback_trace_extends (de : DirEntry) (w w' : World) (b : bool) :
  initCallback de w = Some (b, w') → ∃ evs, trace w' = trace w ++ evs.
Proof.
  unfold initCallback. unfold mbind at 1, M_bind at 1, get_deleter at 1.
  assert (Hins : ∀ w1 : World, (∃ evs, trace w1 = trace w ++ evs) →
            (Insert (de_Name de);; mret true) w1 = Some (b, w') →
            ∃ evs, trace w' = trace w ++ evs).
  { intros w1 [evs Hevs]. unfold mbind, M_bind.
    destruct (Insert (de_Name de) w1) as [[[] w2]|] eqn:Hi; [|done].
    intros [= _ <-]. destruct (Insert_trace_extends _ _ _ Hi) as [evs2 H2].
    exists (evs ++ evs2). by rewrite H2, Hevs, app_assoc. }
  assert (Hnil : ∃ evs, trace w = trace w ++ evs)
    by (exists []; by rewrite app_nil_r).
  destruct (shutdownErr (deleter w)); [by intros [= _ <-]|].
  destruct (negb (de_IsRegular de)); [by intros [= _ <-]|].
  destruct (strings.Contains (de_Name de) partialSuffix); [by apply Hins|].
  destruct (strings.Contains (de_Name de) deletedSuffix); [|by intros [= _ <-]].
  unfold mbind at 1, M_bind at 1, os_remove at 1.
  destruct (os_Remove _ (fsys w)) as [[e1|] fs1]; [apply Hins; by eexists|].
  unfold mbind at 1, M_bind at 1, os_remove at 1. cbn [fsys trace].
  destruct (os_Remove _ fs1) as [[e2|] fs2].
  - apply Hins. cbn [trace]. eexists. by rewrite <- app_assoc.
  - intros [= _ <-]. cbn [trace]. eexists. by rewrite <- app_assoc.
Qed.

Lemma rangeDir_trace_extends (des : list DirEntry) (w w' : World) :
  rangeDir des initCallback w = Some ((), w') →
  ∃ evs, trace w' = trace w ++ evs.
Proof.
  revert w. induction des as [|de des IH]; intros w; simpl.
  - intros [= <-]. exists []. by rewrite app_nil_r.
  - unfold mbind at 1, M_bind at 1.
    destruct (initCallback de w) as [[b w2]|] eqn:Hcb; [|done].
    destruct (initCallback_trace_extends _ _ _ _ Hcb) as [evs2 H2].
    destruct b.
    + intros Hrest. destruct (IH w2 Hrest) as [evs3 H3].
      exists (evs2 ++ evs3). by rewrite H3, H2, app_assoc.
    + intros [= <-]. by exists evs2.
Qed.

(** X7. The cold-start scan touches marked entries only.  Started on a
    listing of the directory, the scan calls the hook with "start init"
    first and with "end init" last.  A name that it adds to the store is
    the name of a regular entry of the listing which contains the partial
    or the tombstone marker, and every call of [os.Remove] that it makes is
    for a regular entry that contains the tombstone marker and not the
    partial marker, on the entry itself or on its companion. *)
Theorem scan_touches_marked_entries_only (des : list DirEntry) (w w' : World) :
  initScan des w = Some ((), w') →
  (∃ evs, trace w' = trace w ++ [EvEvent "start init"] ++ evs ++
                     [EvEvent "end init"]) ∧
  (∀ n, n ∈ names (queue (deleter w')) →
        n ∈ names (queue (deleter w)) ∨
        ∃ de, de ∈ des ∧ de_Name de = n ∧ marked de) ∧
  ∃ rs, removals (trace w') = removals (trace w) ++ rs ∧
    ∀ p r, (p, r) ∈ rs →
      ∃ de, de ∈ des ∧ taken_for_tombstone de ∧
        (p = filepath_Join (dir (deleter w))
               (strings.TrimSuffix (de_Name de) deletedSuffix) ∨
         p = filepath_Join (dir (deleter w)) (de_Name de)).
Proof.
  unfold initScan.
  unfold mbind at 1, M_bind at 1, call_event at 1.
  unfold mbind at 1, M_bind at 1, get_deleter at 1.
  destruct (event (deleter w)) as [h|]; [|done]. unfold emit at 1.
  unfold mbind at 1, M_bind at 1.
  destruct (rangeDir des initCallback _) as [[[] w1]|] eqn:Hr; [|done].
  destruct (rangeDir_touches _ _ _ Hr) as (Hdir & Hnm & rs & Hrm & Hrs).
  destruct (rangeDir_trace_extends _ _ _ Hr) as [evs Htr].
  cbn [trace deleter] in *.
  unfold call_event, mbind, M_bind, get_deleter.
  destruct (event (deleter w1)); [|done]. unfold emit. intros [= <-].
  cbn [trace deleter]. split_and!.
  - exists evs. rewrite Htr. by rewrite <- !app_assoc.
  - exact Hnm.
  - exists rs. split; [|exact Hrs].
    rewrite removals_app, Hrm, removals_app. simpl. by rewrite !app_nil_r.
Qed.

End Deleter.

(** * The deleter at work on a concrete file system

    The deleter of the directory ["d"], with the markers of taildrop, on
    the small file system [SimFS]. *)

#[local] Existing Instance simOS.
#[local] Existing Instance simSuffixes.

Local Abbreviation hook := (Some (λ _ : string, ())).

Local Abbreviation regular n := {| de_Name := n; de_IsRegular := true |}.

(** The files of the directory: a partial file, a file with its tombstone,
    and a tombstone that cannot be removed. *)
Local Abbreviation disk :=
  {| files := ["d/a.partial"; "d/b"; "d/b.deleted"; "d/c.deleted"];
     locked := ["d/c.deleted"] |}.

(** Three inserts at time 0 and a fourth at time 100. *)
Local Abbreviation busy :=
  (reached hook "d" disk 0
     [OpInsert "a.partial"; OpInsert "b.deleted"; OpInsert "c.deleted";
      OpClock 100; OpInsert "z.partial"]).

(** Two records whose files are not on the disk. *)
Local Abbreviation stale :=
  (reached hook "d" disk 0 [OpInsert "gone.partial"; OpInsert "e.deleted"]).

(** A fresh deleter, before any insert. *)
Local Abbreviation fresh := (reached hook "d" disk 0 []).

Example busy_queue :
  names (queue (deleter busy)) =
  ["a.partial"; "b.deleted"; "c.deleted"; "z.partial"].
Proof. reflexivity. Qed.

Example first_insert_starts_worker :
  trace <$> (snd <$> Insert "a.partial" fresh) =
  Some [EvGo InitScan; EvGo (WaitAndDelete deleteDelay)].
Proof. vm_compute. reflexivity. Qed.

Example busy_sweep :
  (λ r, names (queue (deleter r.2)) ) <$> sweep (Hour + 50) busy =
  Some ["z.partial"; "c.deleted"].
Proof. vm_compute. reflexivity. Qed.

Lemma Insert_appends_and_starts_worker_witness :
  wf busy ∧
  shutdownErr (deleter busy) = false ∧
  ("y.partial" ∉ names (queue (deleter busy))) ∧
  ∃ w', Insert "y.partial" busy = Some ((), w') ∧
        names (queue (deleter w')) =
        names (queue (deleter busy)) ++ ["y.partial"] ∧
        trace w' = trace busy.
Proof.
  assert (Hwf : wf busy) by apply reached_wf.
  assert (Hs : shutdownErr (deleter busy) = false) by reflexivity.
  assert (Hn : "y.partial" ∉ names (queue (deleter busy)))
    by (apply (bool_decide_unpack _); vm_compute; exact I).
  split_and!; [assumption..|].
  destruct (Insert_appends_and_starts_worker "y.partial" busy Hwf)
    as [Hins _].
  destruct (Hins Hs Hn) as (w' & started & Hi & Hq & _ & _ & Htr & Hgo & Hall & _).
  exists w'. split_and!; [assumption| |].
  - rewrite Hq. unfold names. by rewrite fmap_app.
  - rewrite Htr. destruct started as [|e started]; [by rewrite app_nil_r|].
    exfalso. assert (He : e = EvGo (WaitAndDelete deleteDelay))
      by (apply Hall; left).
    subst e. destruct Hgo as [Hgo _]. destruct Hgo as [Hgo _]; [left|]. vm_compute in Hgo. discriminate Hgo.
Defined.


Lemma failed_records_are_requeued_witness :
  event (deleter busy) ≠ None ∧ wf busy ∧
  ∃ w', sweep (Hour + 50) busy = Some ((), w') ∧
        (λ x, (name (Value x), inserted (Value x))) <$> queue (deleter w') =
        [("z.partial", 100); ("c.deleted", Hour + 50)].
Proof.
  assert (Hev : event (deleter busy) ≠ None) by (vm_compute; congruence).
  assert (Hwf : wf busy) by apply reached_wf.
  split; [assumption|split; [assumption|]].
  destruct (failed_records_are_requeued (Hour + 50) busy Hev Hwf)
    as (w' & Hs & _ & _ & Hq & _).
  exists w'. split; [assumption|]. rewrite Hq. vm_compute. reflexivity.
Defined.

(** C4, counterexample. ["x.partial.deleted"] is the tombstone of
    ["x.partial"]: it ends with the tombstone marker.  The scan does not
    remove either file: the name contains the partial marker, so it is
    enqueued and nothing else happens. *)
Lemma scan_tombstone_of_partial_counterexample :
  ∃ w w',
    (Init hook "d") (newWorld {| files := ["d/x.partial"; "d/x.partial.deleted"];
                                 locked := [] |} 0) = Some ((), w) ∧
    strings.HasSuffix "x.partial.deleted" deletedSuffix = true ∧
    strings.HasSuffix "x.partial.deleted" partialSuffix = false ∧
    strings.Contains "x.partial.deleted" deletedSuffix = true ∧
    strings.TrimSuffix "x.partial.deleted" deletedSuffix = "x.partial" ∧
    initCallback (regular "x.partial.deleted") w = Some (true, w') ∧
    removals (trace w') = [] ∧
    fsys w' = fsys w ∧
    names (queue (deleter w')) = ["x.partial.deleted"].
Proof.
  eexists _, _. split; [vm_compute; reflexivity|].
  split_and!; vm_compute; reflexivity.
Qed.

Lemma scan_callback_by_cases_witness :
  ∃ w', initCallback (regular "b.deleted") fresh = Some (true, w') ∧
        removals (trace w') = [("d/b", None); ("d/b.deleted", None)] ∧
        queue (deleter w') = [].
Proof.
  destruct (scan_callback_by_cases (regular "b.deleted") fresh) as [_ Hrun].
  destruct (Hrun eq_refl) as [_ Hreg].
  destruct (Hreg eq_refl) as (_ & Htomb & _).
  destruct (Htomb eq_refl eq_refl) as (r1 & fs1 & H1 & Hrest).
  vm_compute in H1. injection H1 as <- <-.
  destruct Hrest as (r2 & fs2 & H2 & Hrest).
  vm_compute in H2. injection H2 as <- <-.
  eexists. split; [exact Hrest|]. split; vm_compute; reflexivity.
Defined.

Lemma store_names_are_unique_witness :
  NoDup (names (queue (deleter busy))) ∧
  ∃ w1, Insert "a.partial" busy = Some ((), w1) ∧ w1 = busy.
Proof.
  destruct store_names_are_unique as (Hreach & _ & _ & _ & Hagain & _).
  split.
  - apply (Hreach hook "d" disk 0
             [OpInsert "a.partial"; OpInsert "b.deleted"; OpInsert "c.deleted";
              OpClock 100; OpInsert "z.partial"] busy).
    vm_compute. reflexivity.
  - exists busy. split; [|reflexivity]. apply Hagain; [apply reached_wf|].
    apply (bool_decide_unpack _). vm_compute. exact I.
Defined.


Lemma missing_file_counts_as_deleted_witness :
  event (deleter stale) ≠ None ∧ wf stale ∧
  ∃ w', sweep Hour stale = Some ((), w') ∧
        trace w' =
        trace stale ++
        [EvRemove "d/gone.partial" (Some ENOENT);
         EvEvent "deleted gone.partial";
         EvRemove "d/e" (Some ENOENT); EvRemove "d/e.deleted" (Some ENOENT);
         EvEvent "deleted e.deleted"] ∧
        queue (deleter w') = [].
Proof.
  assert (Hev : event (deleter stale) ≠ None) by (vm_compute; congruence).
  assert (Hwf : wf stale) by apply reached_wf.
  split; [assumption|split; [assumption|]].
  destruct (missing_file_counts_as_deleted Hour stale Hev Hwf)
    as (w' & Hs & Htr & _).
  exists w'. split; [assumption|].
  clear Htr. pose proof Hs as Hs'. vm_compute in Hs'. injection Hs' as <-.
  split; vm_compute; reflexivity.
Defined.

(** C8, counterexample. A record stamped [2 ^ 63] nanoseconds after the
    time at which the timer fires is not mature; it stays at the front, and
    [deleteDelay - now.Sub(inserted)] wraps around: the successor is started
    with a negative wait, which nothing clamps. *)
Lemma successor_wait_negative_counterexample :
  ∃ w w',
    (Init hook "d";; run [OpClock (2 ^ 63); OpInsert "a.partial"])
      (newWorld disk 0) = Some ((), w) ∧
    sweep 0 w = Some ((), w') ∧
    names (queue (deleter w')) = ["a.partial"] ∧
    shutdownErr (deleter w') = false ∧
    last (trace w') = Some (EvGo (WaitAndDelete (-9223368436854775808))).
Proof.
  eexists _, _. split; [vm_compute; reflexivity|].
  split; [vm_compute; reflexivity|]. split_and!; vm_compute; reflexivity.
Qed.

Lemma successor_wait_is_positive_witness :
  event (deleter busy) ≠ None ∧ wf busy ∧
  ∃ w', sweep (Hour + 50) busy = Some ((), w') ∧
        last (trace w') = Some (EvGo (WaitAndDelete 50)).
Proof.
  assert (Hev : event (deleter busy) ≠ None) by (vm_compute; congruence).
  assert (Hwf : wf busy) by apply reached_wf.
  split; [assumption|split; [assumption|]].
  destruct (successor_wait_is_positive (Hour + 50) busy Hev Hwf)
    as (w' & Hs & Hfront).
  exists w'. split; [assumption|].
  assert (Hq : head (queue (deleter w')) =
               Some {| eptr := 3;
                       Value := {| name := "z.partial"; inserted := 100 |} |} ∧
               shutdownErr (deleter w') = false).
  { pose proof Hs as Hs'. vm_compute in Hs'. injection Hs' as <-.
    split; vm_compute; reflexivity. }
  destruct (Hfront _ (proj1 Hq) (proj2 Hq)) as (Htr & _ & _).
  rewrite Htr, !app_assoc, last_snoc. vm_compute. reflexivity.
Defined.



Lemma scan_missing_companion_enqueues_witness :
  shutdownErr (deleter fresh) = false ∧
  strings.Contains "c.deleted" partialSuffix = false ∧
  strings.Contains "c.deleted" deletedSuffix = true ∧
  os_Remove "d/c" (fsys fresh) = (Some ENOENT, disk) ∧
  ∃ w', initCallback (regular "c.deleted") fresh = Some (true, w') ∧
        removals (trace w') = [("d/c", Some ENOENT)] ∧
        names (queue (deleter w')) = ["c.deleted"].
Proof.
  assert (H1 : shutdownErr (deleter fresh) = false) by (vm_compute; reflexivity).
  assert (H2 : strings.Contains "c.deleted" partialSuffix = false)
    by (vm_compute; reflexivity).
  assert (H3 : strings.Contains "c.deleted" deletedSuffix = true)
    by (vm_compute; reflexivity).
  assert (H4 : os_Remove "d/c" (fsys fresh) = (Some ENOENT, disk))
    by (vm_compute; reflexivity).
  split_and!; [assumption..|].
  destruct (scan_missing_companion_enqueues (regular "c.deleted") fresh
              ENOENT disk H1 eq_refl H2 H3 H4) as [(w' & Hi & Hcb & Hrm & _) _].
  exists w'. split; [assumption|]. split.
  - rewrite Hrm. vm_compute. reflexivity.
  - revert Hi. vm_compute. intros [= <-]. reflexivity.
Defined.

(** ** Instances of the further properties *)

Lemma shutdown_is_final_witness :
  wf busy ∧
  ∃ w', run [OpShutdown; OpInsert "y.partial";
             OpWaitAndDelete 0 (TimerFired (Hour + 50));
             OpScanEntry (regular "k.partial")] busy = Some ((), w') ∧
        shutdownErr (deleter w') = true ∧
        ∀ n, n ∈ names (queue (deleter w')) →
             n ∈ ["a.partial"; "b.deleted"; "c.deleted"; "z.partial"].
Proof.
  assert (Hwf : wf busy) by apply reached_wf.
  split; [assumption|].
  destruct (run [OpShutdown; OpInsert "y.partial";
                 OpWaitAndDelete 0 (TimerFired (Hour + 50));
                 OpScanEntry (regular "k.partial")] busy)
    as [[[] w']|] eqn:Hr; [|vm_compute in Hr; discriminate Hr].
  destruct (shutdown_is_final _ busy w' Hwf Hr) as (Hs & _ & Hsub & _).
  exists w'. split_and!; [reflexivity|assumption|exact Hsub].
Defined.


Lemma sweep_loses_no_record_witness :
  event (deleter busy) ≠ None ∧ wf busy ∧
  ∃ w', sweep (Hour + 50) busy = Some ((), w') ∧
        ["a.partial"; "b.deleted"; "c.deleted"; "z.partial"] ≡ₚ
        ["a.partial"; "b.deleted"] ++ names (queue (deleter w')).
Proof.
  assert (Hev : event (deleter busy) ≠ None) by (vm_compute; congruence).
  assert (Hwf : wf busy) by apply reached_wf.
  split; [assumption|split; [assumption|]].
  destruct (sweep_loses_no_record (Hour + 50) busy Hev Hwf)
    as (w' & Hs & Hp & _).
  exists w'. split; [assumption|]. exact Hp.
Defined.
Lemma Insert_keeps_time_order_witness :
  sorted_by_time (queue (deleter busy)) ∧
  (∀ x, x ∈ queue (deleter busy) → inserted (Value x) ≤ clockNow busy) ∧
  ∃ w', Insert "y.partial" busy = Some ((), w') ∧
        inserted ∘ Value <$> queue (deleter w') = [0; 0; 0; 100; 100] ∧
        sorted_by_time (queue (deleter w')).
Proof.
  assert (Hso : sorted_by_time (queue (deleter busy)))
    by (apply (bool_decide_unpack _); vm_compute; exact I).
  assert (Hcl : ∀ x, x ∈ queue (deleter busy) →
                     inserted (Value x) ≤ clockNow busy)
    by (apply Forall_forall, (bool_decide_unpack _); vm_compute; exact I).
  split_and!; [assumption..|].
  destruct (Insert "y.partial" busy) as [[[] w']|] eqn:Hi;
    [|vm_compute in Hi; discriminate Hi].
  destruct (Insert_keeps_time_order "y.partial" busy w' Hso Hcl Hi)
    as [Hso' _].
  exists w'. split_and!; [reflexivity| |assumption].
  vm_compute in Hi. injection Hi as <-. vm_compute. reflexivity.
Defined.

Lemma sweep_of_sorted_queue_witness :
  event (deleter busy) ≠ None ∧ wf busy ∧
  sorted_by_time (queue (deleter busy)) ∧
  ∃ w', sweep (Hour + 50) busy = Some ((), w') ∧
        (∀ x, x ∈ queue (deleter w') →
              Hour + 50 - inserted (Value x) < deleteDelay) ∧
        sorted_by_time (queue (deleter w')).
Proof.
  assert (Hev : event (deleter busy) ≠ None) by (vm_compute; congruence).
  assert (Hwf : wf busy) by apply reached_wf.
  assert (Hso : sorted_by_time (queue (deleter busy)))
    by (apply (bool_decide_unpack _); vm_compute; exact I).
  split_and!; [assumption..|].
  destruct (sweep_of_sorted_queue (Hour + 50) busy Hev Hwf Hso)
    as (w' & Hs & _ & Hyoung & Hagain).
  exists w'. split_and!; [assumption..|]. apply Hagain.
  apply Forall_forall, (bool_decide_unpack _); vm_compute; exact I.
Defined.

Lemma idle_worker_touches_nothing_witness :
  event (deleter busy) ≠ None ∧ wf busy ∧
  due 200 (queue (deleter busy)) = [] ∧
  ∃ w', waitAndDelete 50 (TimerFired 200) busy = Some ((), w') ∧
        deleter w' = deleter busy ∧ fsys w' = fsys busy ∧
        trace w' =
          trace busy ++
          [EvNewTimer 50; EvEvent "start waitAndDelete";
           EvGo (WaitAndDelete (Hour - 200));
           EvEvent "end waitAndDelete"; EvTimerStop].
Proof.
  assert (Hev : event (deleter busy) ≠ None) by (vm_compute; congruence).
  assert (Hwf : wf busy) by apply reached_wf.
  assert (Hdue : due 200 (queue (deleter busy)) = [])
    by (vm_compute; reflexivity).
  split_and!; [assumption..|].
  destruct (idle_worker_touches_nothing 50 (TimerFired 200) busy Hev Hwf Hdue)
    as (w' & Hw & Hd & Hf & Htr).
  exists w'. split_and!; [assumption..|]. rewrite Htr. vm_compute. reflexivity.
Defined.

Lemma scan_touches_marked_entries_only_witness :
  ∃ w', initScan [regular "a.partial"; regular "b"; regular "b.deleted";
                  regular "c.deleted"] fresh = Some ((), w') ∧
        (∀ n, n ∈ names (queue (deleter w')) →
              n ∈ ["a.partial"; "b.deleted"; "c.deleted"]) ∧
        names (queue (deleter w')) = ["a.partial"; "c.deleted"] ∧
        removals (trace w') =
          [("d/b", None); ("d/b.deleted", None); ("d/c", Some ENOENT)].
Proof.
  destruct (initScan [regular "a.partial"; regular "b"; regular "b.deleted";
                      regular "c.deleted"] fresh) as [[[] w']|] eqn:Hi;
    [|vm_compute in Hi; discriminate Hi].
  destruct (scan_touches_marked_entries_only _ fresh w' Hi)
    as (_ & Hnm & _).
  exists w'. split; [reflexivity|]. split.
  - intros n Hn. destruct (Hnm n Hn) as [H0|(de & Hde & <- & Hm)].
    + vm_compute in H0.
      inversion H0.
    + destruct Hm as [_ Hm]. clear Hi Hnm Hn.
      repeat (apply elem_of_cons in Hde as [->|Hde]);
        [| |..|inversion Hde].
      all: first [ apply (bool_decide_unpack _); vm_compute; exact I
              | vm_compute in Hm; destruct Hm as [Hm|Hm]; discriminate Hm ].
  - vm_compute in Hi. injection Hi as <-. split; vm_compute; reflexivity.
Defined.

(** * ipn: properties of the preferences *)

Lemma compare_loop_from {A} `{EqDecision A} (a' : list A) :
  ∀ (b' pa pb : list A),
    length pa = length pb → length a' = length b' →
    ipn.compare_loop (pa ++ a') (pb ++ b') (seq (length pa) (length a'))
    = Some (bool_decide (a' = b')).
Proof.
  induction a' as [|x a' IH]; intros [|y b'] pa pb Hp Hl; try done.
  simpl in Hl. cbn [length seq ipn.compare_loop].
  rewrite (list_lookup_middle pa _ x (length pa)) by done.
  rewrite (list_lookup_middle pb _ y (length pa)) by done.
  simpl. destruct (decide (x ≠ y)) as [Hxy|Hxy].
  - f_equal. symmetry. apply bool_decide_eq_false. congruence.
  - apply dec_stable in Hxy as ->.
    rewrite (cons_middle y pa), (cons_middle y pb), !app_assoc.
    replace (S (length pa)) with (length (pa ++ [y]))
      by (rewrite length_app; simpl; lia).
    rewrite IH by (rewrite ?length_app; simpl; lia).
    f_equal. apply bool_decide_ext. split; congruence.
Qed.

Lemma compare_loop_eq {A} `{EqDecision A} (a b : list A) :
  (if decide (length a ≠ length b) then Some false
   else ipn.compare_loop a b (seq 0 (length a)))
  = Some (bool_decide (a = b)).
Proof.
  destruct (decide (length a ≠ length b)) as [Hl|Hl].
  - f_equal. symmetry. apply bool_decide_eq_false. congruence.
  - apply dec_stable in Hl. by apply (compare_loop_from a b [] []).
Qed.

(** X8. [compareStrings] and [compareIPNets] are the equality of two
    slices: they never index out of range and they return true exactly
    when the two slices have the same elements in the same order (a nil
    and an empty slice are equal). *)
Theorem compare_is_equality :
  (∀ a b, ipn.compareStrings a b = Some (bool_decide (a = b))) ∧
  (∀ a b, ipn.compareIPNets a b = Some (bool_decide (a = b))).
Proof. split; intros a b; apply compare_loop_eq. Qed.

Section ipn_properties.
Context {persist_Persist : Type}.
Context (Persist_Equals : option persist_Persist → option persist_Persist → bool).
Context (ParseAddr : string → option netip.Addr).
Context (dnsname_TrimSuffix : string → string → string).
Context (EqualFold : string → string → bool).
Context (growth : nat → nat).

Local Abbreviation Prefs := (@ipn.Prefs persist_Persist).
Local Abbreviation MaskedPrefs := (@ipn.MaskedPrefs persist_Persist).

Lemma if_Some {A} (b : bool) (x y : A) :
  (if b then Some x else Some y) = Some (if b then x else y).
Proof. by destruct b. Qed.

Lemma if_same {A} (b : bool) (x : A) : (if b then x else x) = x.
Proof. by destruct b. Qed.

Lemma Prefs_if (b : bool) (x y : Prefs) :
  (if b then x else y) =
  {|
    ipn.ControlURL := if b then ipn.ControlURL x else ipn.ControlURL y;
    ipn.RouteAll := if b then ipn.RouteAll x else ipn.RouteAll y;
    ipn.AllowSingleHosts := if b then ipn.AllowSingleHosts x else ipn.AllowSingleHosts y;
    ipn.ExitNodeID := if b then ipn.ExitNodeID x else ipn.ExitNodeID y;
    ipn.ExitNodeIP := if b then ipn.ExitNodeIP x else ipn.ExitNodeIP y;
    ipn.ExitNodeAllowLANAccess := if b then ipn.ExitNodeAllowLANAccess x else ipn.ExitNodeAllowLANAccess y;
    ipn.CorpDNS := if b then ipn.CorpDNS x else ipn.CorpDNS y;
    ipn.RunSSH := if b then ipn.RunSSH x else ipn.RunSSH y;
    ipn.WantRunning := if b then ipn.WantRunning x else ipn.WantRunning y;
    ipn.LoggedOut := if b then ipn.LoggedOut x else ipn.LoggedOut y;
    ipn.ShieldsUp := if b then ipn.ShieldsUp x else ipn.ShieldsUp y;
    ipn.AdvertiseTags := if b then ipn.AdvertiseTags x else ipn.AdvertiseTags y;
    ipn.Hostname := if b then ipn.Hostname x else ipn.Hostname y;
    ipn.NotepadURLs := if b then ipn.NotepadURLs x else ipn.NotepadURLs y;
    ipn.ForceDaemon := if b then ipn.ForceDaemon x else ipn.ForceDaemon y;
    ipn.Egg := if b then ipn.Egg x else ipn.Egg y;
    ipn.AdvertiseRoutes := if b then ipn.AdvertiseRoutes x else ipn.AdvertiseRoutes y;
    ipn.NoSNAT := if b then ipn.NoSNAT x else ipn.NoSNAT y;
    ipn.NetfilterMode := if b then ipn.NetfilterMode x else ipn.NetfilterMode y;
    ipn.OperatorUser := if b then ipn.OperatorUser x else ipn.OperatorUser y;
    ipn.ProfileName := if b then ipn.ProfileName x else ipn.ProfileName y;
    ipn.AutoUpdate := if b then ipn.AutoUpdate x else ipn.AutoUpdate y;
    ipn.PostureChecking := if b then ipn.PostureChecking x else ipn.PostureChecking y;
    ipn.Persist := if b then ipn.Persist x else ipn.Persist y
  |}.
Proof. by destruct b, x, y. Qed.

Ltac ApplyEdits_round :=
  lazymatch goal with
  | |- foldl ?f ?a (?i :: ?l) = _ => change (foldl f a (i :: l)) with (foldl f (f a i) l)
  end;
  cbn [ipn.ApplyEdits_step mbind option_bind ipn.MaskedPrefs_Field
       ipn.Value_Bool ipn.Prefs_Field ipn.Prefs_Field_Set ipn.mPrefs Nat.sub
       ipn.ControlURL ipn.RouteAll ipn.AllowSingleHosts ipn.ExitNodeID
       ipn.ExitNodeIP ipn.ExitNodeAllowLANAccess ipn.CorpDNS ipn.RunSSH
       ipn.WantRunning ipn.LoggedOut ipn.ShieldsUp ipn.AdvertiseTags
       ipn.Hostname ipn.NotepadURLs ipn.ForceDaemon ipn.Egg
       ipn.AdvertiseRoutes ipn.NoSNAT ipn.NetfilterMode ipn.OperatorUser
       ipn.ProfileName ipn.AutoUpdate ipn.PostureChecking ipn.Persist
       ipn.ControlURLSet ipn.RouteAllSet ipn.AllowSingleHostsSet
       ipn.ExitNodeIDSet ipn.ExitNodeIPSet ipn.ExitNodeAllowLANAccessSet
       ipn.CorpDNSSet ipn.RunSSHSet ipn.WantRunningSet ipn.LoggedOutSet
       ipn.ShieldsUpSet ipn.AdvertiseTagsSet ipn.HostnameSet
       ipn.NotepadURLsSet ipn.ForceDaemonSet ipn.EggSet ipn.AdvertiseRoutesSet
       ipn.NoSNATSet ipn.NetfilterModeSet ipn.OperatorUserSet
       ipn.ProfileNameSet ipn.AutoUpdateSet ipn.PostureCheckingSet];
  rewrite if_Some, Prefs_if;
  cbn [ipn.ControlURL ipn.RouteAll ipn.AllowSingleHosts ipn.ExitNodeID
       ipn.ExitNodeIP ipn.ExitNodeAllowLANAccess ipn.CorpDNS ipn.RunSSH
       ipn.WantRunning ipn.LoggedOut ipn.ShieldsUp ipn.AdvertiseTags
       ipn.Hostname ipn.NotepadURLs ipn.ForceDaemon ipn.Egg
       ipn.AdvertiseRoutes ipn.NoSNAT ipn.NetfilterMode ipn.OperatorUser
       ipn.ProfileName ipn.AutoUpdate ipn.PostureChecking ipn.Persist];
  rewrite !if_same.

Lemma ApplyEdits_edited (p : Prefs) (m : MaskedPrefs) :
  ipn.ApplyEdits (Some p) (Some m) = Some (ipn.edited p m).
Proof.
  destruct m as [mp b0 b1 b2 b3 b4 b5 b6 b7 b8 b9 b10 b11 b12 b13 b14 b15
                   b16 b17 b18 b19 b20 b21 b22].
  destruct mp, p. unfold ipn.ApplyEdits, ipn.edited.
  cbn [mbind option_bind ipn.MaskedPrefs_NumField seq Nat.sub
       ipn.mPrefs ipn.ControlURL ipn.RouteAll ipn.AllowSingleHosts
       ipn.ExitNodeID ipn.ExitNodeIP ipn.ExitNodeAllowLANAccess ipn.CorpDNS
       ipn.RunSSH ipn.WantRunning ipn.LoggedOut ipn.ShieldsUp
       ipn.AdvertiseTags ipn.Hostname ipn.NotepadURLs ipn.ForceDaemon ipn.Egg
       ipn.AdvertiseRoutes ipn.NoSNAT ipn.NetfilterMode ipn.OperatorUser
       ipn.ProfileName ipn.AutoUpdate ipn.PostureChecking ipn.Persist
       ipn.ControlURLSet ipn.RouteAllSet ipn.AllowSingleHostsSet
       ipn.ExitNodeIDSet ipn.ExitNodeIPSet ipn.ExitNodeAllowLANAccessSet
       ipn.CorpDNSSet ipn.RunSSHSet ipn.WantRunningSet ipn.LoggedOutSet
       ipn.ShieldsUpSet ipn.AdvertiseTagsSet ipn.HostnameSet
       ipn.NotepadURLsSet ipn.ForceDaemonSet ipn.EggSet ipn.AdvertiseRoutesSet
       ipn.NoSNATSet ipn.NetfilterModeSet ipn.OperatorUserSet
       ipn.ProfileNameSet ipn.AutoUpdateSet ipn.PostureCheckingSet].
  do 23 ApplyEdits_round. reflexivity.
Qed.

Lemma edited_idempotent (p : Prefs) (m : MaskedPrefs) :
  ipn.edited (ipn.edited p m) m = ipn.edited p m.
Proof.
  unfold ipn.edited. cbn.
  f_equal; match goal with |- (if ?b then _ else _) = _ => by destruct b end.
Qed.

Lemma MaskedPrefs_IsEmpty_masks (m : MaskedPrefs) :
  ipn.MaskedPrefs_IsEmpty (Some m) =
  Some (negb (ipn.ControlURLSet m ||
          ipn.RouteAllSet m ||
          ipn.AllowSingleHostsSet m ||
          ipn.ExitNodeIDSet m ||
          ipn.ExitNodeIPSet m ||
          ipn.ExitNodeAllowLANAccessSet m ||
          ipn.CorpDNSSet m ||
          ipn.RunSSHSet m ||
          ipn.WantRunningSet m ||
          ipn.LoggedOutSet m ||
          ipn.ShieldsUpSet m ||
          ipn.AdvertiseTagsSet m ||
          ipn.HostnameSet m ||
          ipn.NotepadURLsSet m ||
          ipn.ForceDaemonSet m ||
          ipn.EggSet m ||
          ipn.AdvertiseRoutesSet m ||
          ipn.NoSNATSet m ||
          ipn.NetfilterModeSet m ||
          ipn.OperatorUserSet m ||
          ipn.ProfileNameSet m ||
          ipn.AutoUpdateSet m ||
          ipn.PostureCheckingSet m)).
Proof.
  destruct m as [mp b0 b1 b2 b3 b4 b5 b6 b7 b8 b9 b10 b11 b12 b13 b14 b15
                   b16 b17 b18 b19 b20 b21 b22].
  revert b0 b1 b2 b3 b4 b5 b6 b7 b8 b9 b10 b11 b12 b13 b14 b15
         b16 b17 b18 b19 b20 b21 b22.
  repeat (intros []; [reflexivity|]). reflexivity.
Qed.

(** X9. [ApplyEdits] assigns the masked fields and nothing else.  The
    reflection loop pairs the mask at index [i] of [MaskedPrefs] with the
    field at index [i - 1] of [Prefs]: for a non-nil [p] and [m] it does
    not panic, every field of the result is the field of [m.Prefs] where
    its own mask is set and the field of [p] elsewhere, and [Persist],
    which has no mask, stays.  Applying the same edits again changes
    nothing.  On a nil [p] or a nil [m] it panics. *)
Theorem ApplyEdits_assigns_masked_fields (p : Prefs) (m : MaskedPrefs) :
  ipn.ApplyEdits (Some p) (Some m) = Some (ipn.edited p m) ∧
  ipn.Persist (ipn.edited p m) = ipn.Persist p ∧
  ipn.ApplyEdits (Some (ipn.edited p m)) (Some m) = Some (ipn.edited p m) ∧
  ipn.ApplyEdits None (Some m) = None ∧
  ipn.ApplyEdits (Some p) None = None.
Proof.
  split_and!; [apply ApplyEdits_edited|reflexivity| |reflexivity..].
  by rewrite ApplyEdits_edited, edited_idempotent.
Qed.

(** X10. [MaskedPrefs.IsEmpty] is true exactly for the edits that change
    no preferences: for a non-nil [m] it does not panic, and it returns
    true if and only if [ApplyEdits] with [m] leaves every [Prefs] as it
    is.  A nil [m] is empty as well, but [ApplyEdits] panics on it. *)
Theorem IsEmpty_iff_no_edit (m : MaskedPrefs) :
  (∃ b, ipn.MaskedPrefs_IsEmpty (Some m) = Some b ∧
        (b = true ↔ ∀ p : Prefs, ipn.ApplyEdits (Some p) (Some m) = Some p)) ∧
  ipn.MaskedPrefs_IsEmpty (@None MaskedPrefs) = Some true ∧
  ∀ p : Prefs, ipn.ApplyEdits (Some p) None = None.
Proof.
  split; [|done]. eexists. split; [apply MaskedPrefs_IsEmpty_masks|].
  destruct m as [mp b0 b1 b2 b3 b4 b5 b6 b7 b8 b9 b10 b11 b12 b13 b14 b15
                   b16 b17 b18 b19 b20 b21 b22].
  cbn [ipn.ControlURLSet ipn.RouteAllSet ipn.AllowSingleHostsSet
       ipn.ExitNodeIDSet ipn.ExitNodeIPSet ipn.ExitNodeAllowLANAccessSet
       ipn.CorpDNSSet ipn.RunSSHSet ipn.WantRunningSet ipn.LoggedOutSet
       ipn.ShieldsUpSet ipn.AdvertiseTagsSet ipn.HostnameSet
       ipn.NotepadURLsSet ipn.ForceDaemonSet ipn.EggSet ipn.AdvertiseRoutesSet
       ipn.NoSNATSet ipn.NetfilterModeSet ipn.OperatorUserSet
       ipn.ProfileNameSet ipn.AutoUpdateSet ipn.PostureCheckingSet].
  split.
  - intros Hb p. rewrite ApplyEdits_edited. f_equal.
    revert Hb. revert b0 b1 b2 b3 b4 b5 b6 b7 b8 b9 b10 b11 b12 b13 b14 b15
         b16 b17 b18 b19 b20 b21 b22.
    repeat (intros []; [discriminate|]). intros _. by destruct p.
  - intros H.
    pose proof (H (ipn.zeroPrefs)) as H0.
    pose proof (H {| ipn.ControlURL := "x"; ipn.RouteAll := true;
       ipn.AllowSingleHosts := true; ipn.ExitNodeID := "x";
       ipn.ExitNodeIP := netip.Addr4 0; ipn.ExitNodeAllowLANAccess := true;
       ipn.CorpDNS := true; ipn.RunSSH := true; ipn.WantRunning := true;
       ipn.LoggedOut := true; ipn.ShieldsUp := true;
       ipn.AdvertiseTags := ["x"]; ipn.Hostname := "x";
       ipn.NotepadURLs := true; ipn.ForceDaemon := true; ipn.Egg := true;
       ipn.AdvertiseRoutes := [ipn.zeroPrefix]; ipn.NoSNAT := true;
       ipn.NetfilterMode := 1; ipn.OperatorUser := "x";
       ipn.ProfileName := "x";
       ipn.AutoUpdate := {| ipn.Check := true; ipn.Apply := true |};
       ipn.PostureChecking := true; ipn.Persist := None |}) as H1.
    clear H. rewrite ApplyEdits_edited in H0, H1.
    unfold ipn.edited, ipn.zeroPrefs in H0, H1. simpl in H0, H1.
    injection H0. injection H1. clear H0 H1. intros.
    repeat match goal with
           | b : bool |- _ => destruct b; [exfalso; congruence|]
           end.
    reflexivity.
Qed.


Lemma Equals_total (p p2 : option Prefs) :
  ∃ b, ipn.Equals Persist_Equals p p2 = Some b.
Proof.
  destruct p as [p|], p2 as [p2|]; try by eexists.
  unfold ipn.Equals, ipn.compareIPNets, ipn.compareStrings.
  rewrite !compare_loop_eq. cbn [mbind option_bind].
  repeat match goal with |- context [if ?b then _ else _] => destruct b end;
    by eexists.
Qed.

Lemma Equals_true_iff (p p2 : Prefs) :
  ipn.Equals Persist_Equals (Some p) (Some p2) = Some true ↔
  (ipn.ControlURL p = ipn.ControlURL p2 ∧
   ipn.RouteAll p = ipn.RouteAll p2 ∧
   ipn.AllowSingleHosts p = ipn.AllowSingleHosts p2 ∧
   ipn.ExitNodeID p = ipn.ExitNodeID p2 ∧
   ipn.ExitNodeIP p = ipn.ExitNodeIP p2 ∧
   ipn.ExitNodeAllowLANAccess p = ipn.ExitNodeAllowLANAccess p2 ∧
   ipn.CorpDNS p = ipn.CorpDNS p2 ∧
   ipn.RunSSH p = ipn.RunSSH p2 ∧
   ipn.WantRunning p = ipn.WantRunning p2 ∧
   ipn.LoggedOut p = ipn.LoggedOut p2 ∧
   ipn.ShieldsUp p = ipn.ShieldsUp p2 ∧
   ipn.AdvertiseTags p = ipn.AdvertiseTags p2 ∧
   ipn.Hostname p = ipn.Hostname p2 ∧
   ipn.NotepadURLs p = ipn.NotepadURLs p2 ∧
   ipn.ForceDaemon p = ipn.ForceDaemon p2 ∧
   ipn.AdvertiseRoutes p = ipn.AdvertiseRoutes p2 ∧
   ipn.NoSNAT p = ipn.NoSNAT p2 ∧
   ipn.NetfilterMode p = ipn.NetfilterMode p2 ∧
   ipn.OperatorUser p = ipn.OperatorUser p2 ∧
   ipn.ProfileName p = ipn.ProfileName p2 ∧
   ipn.AutoUpdate p = ipn.AutoUpdate p2 ∧
   ipn.PostureChecking p = ipn.PostureChecking p2) ∧
  Persist_Equals (ipn.Persist p) (ipn.Persist p2) = true.
Proof.
  unfold ipn.Equals, ipn.compareIPNets, ipn.compareStrings.
  rewrite !compare_loop_eq. cbn [mbind option_bind].
  match goal with |- context [if negb ?b then _ else _] =>
    destruct b eqn:HA end; cbn [negb].
  - rewrite !andb_true_iff, !bool_decide_eq_true in HA.
    destruct (bool_decide (ipn.AdvertiseRoutes p = ipn.AdvertiseRoutes p2))
      eqn:HR; cbn [negb].
    + rewrite bool_decide_eq_true in HR. split.
      * intros [= HB]. rewrite !andb_true_iff, !bool_decide_eq_true in HB.
        tauto.
      * intros HB. f_equal. rewrite !andb_true_iff, !bool_decide_eq_true.
        tauto.
    + rewrite bool_decide_eq_false in HR. split; [done|tauto].
  - split; [done|]. intros HB. exfalso.
    apply not_true_iff_false in HA. apply HA.
    rewrite !andb_true_iff, !bool_decide_eq_true. tauto.
Qed.

(** X11. [Prefs.Equals] is an equivalence relation that does not look at
    [Egg].  It never panics, nil pointers included; when [Persist.Equals]
    is reflexive, symmetric and transitive, so is [Prefs.Equals]; and two
    preferences that differ in the field [Egg] only are equal, so that
    [IsEmpty] holds of the zero preferences with [Egg] set. *)
Theorem Equals_equivalence_up_to_Egg :
  (∀ x, Persist_Equals x x = true) →
  (∀ x y, Persist_Equals x y = true → Persist_Equals y x = true) →
  (∀ x y z, Persist_Equals x y = true → Persist_Equals y z = true →
            Persist_Equals x z = true) →
  (∀ p p2, ∃ b, ipn.Equals Persist_Equals p p2 = Some b) ∧
  (∀ p, ipn.Equals Persist_Equals p p = Some true) ∧
  (∀ p p2, ipn.Equals Persist_Equals p p2 = Some true →
           ipn.Equals Persist_Equals p2 p = Some true) ∧
  (∀ p p2 p3, ipn.Equals Persist_Equals p p2 = Some true →
              ipn.Equals Persist_Equals p2 p3 = Some true →
              ipn.Equals Persist_Equals p p3 = Some true) ∧
  (∀ (p p' : Prefs) egg,
     ipn.Prefs_Field_Set p 15 (ipn.VBool egg) = Some p' →
     ipn.Equals Persist_Equals (Some p) (Some p') = Some true) ∧
  (∀ (p' : Prefs) egg,
     ipn.Prefs_Field_Set ipn.zeroPrefs 15 (ipn.VBool egg) = Some p' →
     ipn.IsEmpty Persist_Equals (Some p') = Some true).
Proof.
  intros Hrefl Hsym Htrans.
  assert (Hegg : ∀ (p p' : Prefs) egg,
     ipn.Prefs_Field_Set p 15 (ipn.VBool egg) = Some p' →
     ipn.Equals Persist_Equals (Some p) (Some p') = Some true).
  { intros p p' egg Hset. destruct p. injection Hset as <-.
    apply Equals_true_iff. cbn. by rewrite Hrefl. }
  split_and!.
  - apply Equals_total.
  - intros [p|]; [|done]. apply Equals_true_iff. by rewrite Hrefl.
  - intros [p|] [p2|]; try done. rewrite !Equals_true_iff.
    intros [H HP]. split; [|by apply Hsym]. by destruct_and!.
  - intros [p|] [p2|] [p3|]; try done. rewrite !Equals_true_iff.
    intros [H HP] [H' HP']. split; [|by eapply Htrans].
    destruct_and!. split_and!; congruence.
  - exact Hegg.
  - intros p' egg Hset. unfold ipn.IsEmpty.
    apply Equals_true_iff. injection Hset as <-. cbn. by rewrite Hrefl.
Qed.

(** X12. The control URL in use.  [ControlURLOrDefault] of non-nil
    preferences is never empty and never the legacy login server: it is
    [DefaultControlURL] exactly when [ControlURL] is empty, the legacy
    login server or the default itself, and [ControlURL] otherwise.  The
    admin page is on the login server in the first case and below the
    control URL in the second.  On nil preferences both panic. *)
Theorem ControlURLOrDefault_cases (p : Prefs) :
  ∃ url,
    ipn.ControlURLOrDefault (Some p) = Some url ∧
    url ≠ "" ∧ url ≠ "https://login.tailscale.com" ∧
    (url = ipn.DefaultControlURL ↔
     ipn.ControlURL p ∈ [""; "https://login.tailscale.com";
                        ipn.DefaultControlURL]) ∧
    (url ≠ ipn.DefaultControlURL → url = ipn.ControlURL p) ∧
    ipn.AdminPageURL (Some p) =
      Some ((if bool_decide (url = ipn.DefaultControlURL)
             then "https://login.tailscale.com" else url)
            +:+ "/admin/machines") ∧
    ipn.ControlURLOrDefault (@None Prefs) = None ∧
    ipn.AdminPageURL (@None Prefs) = None.
Proof.
  unfold ipn.AdminPageURL, ipn.ControlURLOrDefault,
    ipn.IsLoginServerSynonym, ipn.any_eq_string, ipn.DefaultControlURL.
  cbn [mbind option_bind].
  generalize (ipn.ControlURL p). intros c.
  destruct (decide (c = "")) as [->|H0];
    [|destruct (decide (c = "https://controlplane.tailscale.com")) as [->|H1];
      [|destruct (decide (c = "https://login.tailscale.com")) as [->|H2]]].
  - eexists. split; [reflexivity|]. split_and!; try done.
    split; [set_solver|done].
  - eexists. split; [reflexivity|]. split_and!; try done.
    split; [set_solver|done].
  - eexists. split; [reflexivity|]. split_and!; try done.
    split; [set_solver|done].
  - exists c.
    rewrite (bool_decide_eq_false_2 (c = "")) by done.
    rewrite (bool_decide_eq_false_2 (c = "https://controlplane.tailscale.com"))
      by done.
    rewrite (bool_decide_eq_false_2 (c = "https://login.tailscale.com"))
      by done.
    cbn. split_and!; try done.
    + split; [done|]. rewrite !elem_of_cons, elem_of_nil. naive_solver.
    + by rewrite !bool_decide_eq_false_2 by done.
Qed.

Local Abbreviation nonzero := (λ r : netip.Prefix, netip.Bits r ≠ 0).

Lemma drop_S_eq {A} (l k : list A) (i : nat) :
  drop i l = drop i k → drop (S i) l = drop (S i) k.
Proof.
  intros H. rewrite <- (Nat.add_1_r i), <- !drop_drop. by rewrite H.
Qed.

Lemma keep_route_loop (h : gmap nat (list netip.Prefix)) (all : slices.slice)
    (arr : list netip.Prefix) (i : nat) :
  h !! slices.ptr all = Some arr →
  (slices.len all ≤ length arr)%nat →
  (slices.len all ≤ slices.cap all)%nat →
  (i ≤ slices.len all)%nat →
  ∃ arr',
    foldl (ipn.keep_route growth all) (Some (h, slices.reslice0 all)) (seq 0 i)
    = Some (<[slices.ptr all := arr']> h,
            {| slices.ptr := slices.ptr all;
               slices.len := length (filter nonzero (take i arr));
               slices.cap := slices.cap all |}) ∧
    take (length (filter nonzero (take i arr))) arr'
      = filter nonzero (take i arr) ∧
    drop i arr' = drop i arr ∧
    length arr' = length arr.
Proof.
  intros Hh Hlen Hcap. induction i as [|i IH]; intros Hi.
  - exists arr. rewrite insert_id by done. by rewrite take_0.
  - destruct IH as (arr' & Hfold & Htake & Hdrop & Hlen'); [lia|].
    rewrite seq_S, foldl_app, Hfold. cbn [foldl plus].
    assert (is_Some (arr !! i)) as [r Hr] by (apply lookup_lt_is_Some; lia).
    assert (Hr' : arr' !! i = Some r).
    { rewrite <- (Nat.add_0_r i), <- lookup_drop, Hdrop, lookup_drop.
      by rewrite Nat.add_0_r. }
    rewrite (take_S_r _ _ _ Hr), filter_app, filter_cons, filter_nil.
    pose proof (length_filter nonzero (take i arr)) as Hj.
    rewrite length_take in Hj.
    set (F := filter nonzero (take i arr)) in *.
    unfold ipn.keep_route. cbn [mbind option_bind].
    unfold slices.index, slices.array, slices.heap.
    cbn [slices.ptr slices.len].
    rewrite decide_True by lia. rewrite lookup_insert_eq. cbn [default].
    unfold id. rewrite Hr'. cbn [mbind option_bind].
    destruct (decide (netip.Bits r ≠ 0)) as [Hb|Hb].
    + unfold slices.append, slices.array, slices.heap.
      cbn [slices.ptr slices.len slices.cap length].
      rewrite decide_True by lia.
      rewrite lookup_insert_eq, insert_insert_eq. cbn [default]. unfold id.
      rewrite Htake. eexists. split; [|split_and!].
      * rewrite length_app. reflexivity.
      * rewrite length_app, app_assoc. cbn [length].
        apply take_app_length'. rewrite length_app. by cbn.
      * rewrite app_assoc, drop_app_ge by (rewrite length_app; cbn; lia).
        rewrite length_app, drop_drop. cbn [length].
        replace (length F + 1 + (S i - (length F + 1)))%nat with (S i) by lia.
        by apply drop_S_eq.
      * rewrite !length_app, length_drop. cbn [length]. lia.
    + exists arr'. rewrite app_nil_r. split_and!; try done.
      by apply drop_S_eq.
Qed.

(** X13. [SetAdvertiseExitNode] filters the routes in place.  On a slice
    of a heap it never reads out of range, and the routes of the result
    are the routes of the argument whose [Bits] are not zero, in their
    order, with the two /0 exit routes behind them if [runExit] is set.
    The filter writes into the array that it reads from and never over a
    route that it has not read yet; as long as the result fits the
    capacity no array is allocated, and no other array of the heap is
    changed. *)
Theorem SetAdvertiseExitNode_filters_in_place (runExit : bool)
    (h : gmap nat (list netip.Prefix)) (all : slices.slice)
    (arr : list netip.Prefix) :
  h !! slices.ptr all = Some arr →
  length arr = slices.cap all →
  (slices.len all ≤ slices.cap all)%nat →
  ∃ h' routes,
    ipn.SetAdvertiseExitNode_slice growth runExit h all = Some (h', routes) ∧
    slices.elems h' routes =
      filter nonzero (slices.elems h all) ++
      (if runExit then [ipn.exitRoute4; ipn.exitRoute6] else []) ∧
    (runExit = false → (slices.len routes ≤ slices.len all)%nat) ∧
    ((slices.len routes ≤ slices.cap all)%nat →
     slices.ptr routes = slices.ptr all ∧ dom h' = dom h) ∧
    (∀ q, q ≠ slices.ptr all → q ∈ dom h → h' !! q = h !! q).
Proof.
  intros Hh Hlen Hcap.
  destruct (keep_route_loop h all arr (slices.len all) Hh)
    as (arr' & Hfold & Htake & Hdrop & Hlen'); [lia..|].
  unfold ipn.SetAdvertiseExitNode_slice, slices.heap in *. rewrite Hfold.
  cbn [mbind option_bind].
  assert (Hel : slices.elems h all = take (slices.len all) arr).
  { unfold slices.elems, slices.array, slices.heap. by rewrite Hh. }
  rewrite Hel.
  pose proof (length_filter nonzero (take (slices.len all) arr)) as Hj.
  rewrite length_take in Hj.
  set (F := filter nonzero (take (slices.len all) arr)) in *.
  assert (Hdom : dom (<[slices.ptr all := arr']> h) = dom h)
    by (apply dom_insert_lookup_L; eauto).
  destruct runExit; cbn [negb].
  - unfold slices.append, slices.elems, slices.array, slices.heap.
    cbn [slices.ptr slices.len slices.cap length].
    rewrite lookup_insert_eq. cbn [default]. unfold id. rewrite Htake.
    destruct (decide (length F + 2 ≤ slices.cap all)%nat) as [Hfit|Hfit].
    + eexists _, _. split; [reflexivity|].
      cbn [slices.ptr slices.len slices.cap].
      rewrite lookup_insert_eq, insert_insert_eq. cbn [default]. unfold id.
      split_and!.
      * rewrite app_assoc. apply take_app_length'.
        rewrite length_app. by cbn.
      * done.
      * intros _. split; [done|]. apply dom_insert_lookup_L; eauto.
      * intros q Hq _. by rewrite lookup_insert_ne.
    + eexists _, _. split; [reflexivity|].
      cbn [slices.ptr slices.len slices.cap].
      rewrite lookup_insert_eq. cbn [default]. unfold id.
      split_and!.
      * rewrite app_assoc. apply take_app_length'.
        rewrite length_app. by cbn.
      * done.
      * intros ?. lia.
      * intros q Hq Hin. rewrite lookup_insert_ne.
        { by rewrite lookup_insert_ne. }
        intros <-. rewrite <- Hdom in Hin. by apply is_fresh in Hin.
  - eexists _, _. split; [reflexivity|].
    unfold slices.elems, slices.array, slices.heap.
    cbn [slices.ptr slices.len slices.cap].
    rewrite lookup_insert_eq. cbn [default]. unfold id.
    rewrite app_nil_r. split_and!; try done.
    + intros _. lia.
    + intros q Hq _. by rewrite lookup_insert_ne.
Qed.

Lemma nonzero_exitRoutes :
  filter nonzero [ipn.exitRoute4; ipn.exitRoute6] = [].
Proof. reflexivity. Qed.

Lemma SetAdvertiseExitNode_routes (spare : list netip.Prefix)
    (runExit : bool) (p : Prefs) :
  ipn.SetAdvertiseExitNode growth spare runExit (Some p) =
  Some (Some (ipn.with_AdvertiseRoutes
                (filter nonzero (ipn.AdvertiseRoutes p) ++
                 (if runExit then [ipn.exitRoute4; ipn.exitRoute6] else []))
                p)).
Proof.
  unfold ipn.SetAdvertiseExitNode, slices.heap. cbv zeta.
  match goal with
  | |- context [ipn.SetAdvertiseExitNode_slice _ _ ?h ?all] =>
      destruct (SetAdvertiseExitNode_filters_in_place runExit h all
                  (ipn.AdvertiseRoutes p ++ spare))
        as (h' & routes & Heq & Hel & _)
  end.
  - apply lookup_singleton_eq.
  - done.
  - cbn. rewrite length_app. lia.
  - rewrite Heq. cbn [mbind option_bind]. rewrite Hel. do 3 f_equal.
    unfold slices.elems, slices.array, slices.heap.
    cbn [slices.ptr slices.len]. rewrite lookup_singleton_eq. cbn [default].
    unfold id. by rewrite take_app_length.
Qed.

(** X14. [SetAdvertiseExitNode] switches the exit routes on or off.  On
    non-nil preferences it does not panic and changes [AdvertiseRoutes]
    only.  It keeps every route whose [Bits] are not zero and drops every
    other one, whatever its address; with [runExit] the two /0 exit routes
    are advertised afterwards, without it no /0 route is.  The last call
    decides: what an earlier call has done makes no difference, so that
    calling it twice is calling it once.  On nil preferences it does
    nothing. *)
Theorem SetAdvertiseExitNode_switches_exit_routes
    (spare spare' : list netip.Prefix) (runExit again : bool) (p : Prefs) :
  ∃ p',
    ipn.SetAdvertiseExitNode growth spare runExit (Some p) = Some (Some p') ∧
    p' = ipn.with_AdvertiseRoutes (ipn.AdvertiseRoutes p') p ∧
    ipn.AdvertiseRoutes p' =
      filter nonzero (ipn.AdvertiseRoutes p) ++
      (if runExit then [ipn.exitRoute4; ipn.exitRoute6] else []) ∧
    (if runExit
     then ipn.exitRoute4 ∈ ipn.AdvertiseRoutes p' ∧
          ipn.exitRoute6 ∈ ipn.AdvertiseRoutes p'
     else ∀ r, r ∈ ipn.AdvertiseRoutes p' → netip.Bits r ≠ 0) ∧
    ipn.SetAdvertiseExitNode growth spare' again (Some p') =
    ipn.SetAdvertiseExitNode growth spare' again (Some p) ∧
    ipn.SetAdvertiseExitNode growth spare runExit (@None Prefs) = Some None.
Proof.
  eexists. split; [apply SetAdvertiseExitNode_routes|].
  assert (Hget : ∀ rs, ipn.AdvertiseRoutes (ipn.with_AdvertiseRoutes rs p) = rs)
    by (intros; by destruct p).
  assert (Hset : ∀ rs rs', ipn.with_AdvertiseRoutes rs
                  (ipn.with_AdvertiseRoutes rs' p) =
                ipn.with_AdvertiseRoutes rs p)
    by (intros; by destruct p).
  rewrite Hget. split_and!; try done.
  - destruct runExit.
    + rewrite !elem_of_app, !elem_of_cons. naive_solver.
    + intros r. rewrite app_nil_r, list_elem_of_filter. naive_solver.
  - rewrite !SetAdvertiseExitNode_routes, Hget, Hset.
    rewrite filter_app, list_filter_filter.
    do 4 f_equal.
    assert (filter nonzero (if runExit then [ipn.exitRoute4; ipn.exitRoute6]
                            else []) = []) as -> by by destruct runExit.
    rewrite app_nil_r. apply list_filter_iff. naive_solver.
Qed.

Local Abbreviation exitNodeIPOfArg :=
  (ipn.exitNodeIPOfArg ParseAddr dnsname_TrimSuffix EqualFold).
Local Abbreviation SetExitNodeIP :=
  (@ipn.SetExitNodeIP persist_Persist ParseAddr dnsname_TrimSuffix EqualFold).

(** The peers that the name [s] denotes, and what the loop asks of them. *)
Local Abbreviation named s st :=
  (filter (λ ps, EqualFold s (dnsname_TrimSuffix (ipn.DNSName ps)
                               (ipn.MagicDNSSuffix st)) = true)
          (ipn.Peer st)).

Lemma isRemoteIP_true (st : ipn.Status) (ip : netip.Addr) :
  ipn.isRemoteIP st ip = true ↔ ip ∉ ipn.Self_TailscaleIPs st.
Proof.
  unfold ipn.isRemoteIP. rewrite negb_true_iff.
  induction (ipn.Self_TailscaleIPs st) as [|x l IH]; cbn.
  - split; [intros _; apply not_elem_of_nil|done].
  - rewrite orb_false_iff, bool_decide_eq_false, IH, not_elem_of_cons. done.
Qed.

Lemma peerWithTailscaleIP_loop_Some (peers : list ipn.PeerStatus)
    (ip : netip.Addr) (ps : ipn.PeerStatus) :
  ipn.peerWithTailscaleIP_loop peers ip = Some ps →
  ps ∈ peers ∧ ip ∈ ipn.TailscaleIPs ps.
Proof.
  induction peers as [|ps' peers IH]; cbn; [done|].
  destruct (existsb _ (ipn.TailscaleIPs ps')) eqn:He.
  - intros [= ->]. split; [left|].
    apply existsb_exists in He as (ip2 & Hin & Heq).
    apply bool_decide_eq_true in Heq as ->. by apply list_elem_of_In.
  - intros H. destruct (IH H). split; [by right|done].
Qed.

Lemma match_peers_spec (s suffix : string) (peers : list ipn.PeerStatus) :
  ∀ (ip0 : netip.Addr) (k : nat),
    let ms := filter (λ ps, EqualFold s (dnsname_TrimSuffix (ipn.DNSName ps)
                                          suffix) = true) peers in
    let good := λ ps, ipn.TailscaleIPs ps ≠ [] ∧ ipn.ExitNodeOption ps = true in
    (Forall good ms →
     ipn.match_peers dnsname_TrimSuffix EqualFold s suffix peers ip0 k =
     inr (foldl (λ ip ps, default ip (head (ipn.TailscaleIPs ps))) ip0 ms,
          (k + length ms)%nat)) ∧
    (∀ r, ipn.match_peers dnsname_TrimSuffix EqualFold s suffix peers ip0 k
          = inr r → Forall good ms).
Proof.
  induction peers as [|ps peers IH]; intros ip0 k; cbn zeta.
  - cbn. split; [intros _; do 2 f_equal; lia|by constructor].
  - rewrite filter_cons. cbn [ipn.match_peers].
    destruct (EqualFold s _) eqn:He; cbn [negb].
    + rewrite decide_True by done.
      destruct (ipn.TailscaleIPs ps) as [|ip1 ips] eqn:Hips.
      * split; [|done]. rewrite Forall_cons. intros [[? _] _]. congruence.
      * destruct (ipn.ExitNodeOption ps) eqn:Hopt; cbn [negb].
        -- destruct (IH ip1 (S k)) as [IH1 IH2]. split.
           ++ rewrite Forall_cons. intros [_ Hgood].
              rewrite IH1 by done. cbn [foldl length]. rewrite Hips. cbn.
              do 2 f_equal. lia.
           ++ intros r Hr. apply Forall_cons. split; [|by eapply IH2].
              rewrite Hips. done.
        -- split; [|done]. rewrite Forall_cons. intros [[_ ?] _]. congruence.
    + rewrite decide_False by congruence. apply IH.
Qed.

Lemma exitNodeIPOfArg_by_name (s : string) (st : ipn.Status) (ip : netip.Addr) :
  s ≠ "" → ParseAddr s = None →
  (exitNodeIPOfArg s st = (ip, None) ↔
   ∃ ps, named s st = [ps] ∧ head (ipn.TailscaleIPs ps) = Some ip ∧
         ipn.ExitNodeOption ps = true ∧ ip ∉ ipn.Self_TailscaleIPs st).
Proof.
  intros Hs Hparse. unfold ipn.exitNodeIPOfArg.
  rewrite bool_decide_eq_false_2 by done. rewrite Hparse.
  destruct (match_peers_spec s (ipn.MagicDNSSuffix st) (ipn.Peer st)
              netip.AddrZero 0) as [Hto Hfrom].
  cbn zeta in Hto, Hfrom. split.
  - destruct (ipn.match_peers _ _ _ _ _ _ _) as [[ip' err]|[ip' n]] eqn:Hm;
      [done|].
    specialize (Hfrom _ eq_refl). specialize (Hto Hfrom).
    injection Hto as Hip Hn.
    destruct n as [|[|n]]; [done| |done].
    destruct (ipn.isRemoteIP st ip') eqn:Hrem; cbn [negb]; [|done].
    intros [= ->].
    destruct (named s st) as [|ps [|??]] eqn:Hms; try done.
    exists ps. apply Forall_cons in Hfrom as [[Hne Hopt] _].
    split_and!; [done| |done|by apply isRemoteIP_true].
    cbn in Hip. destruct (ipn.TailscaleIPs ps); [done|]. cbn in *. congruence.
  - intros (ps & Hms & Hhead & Hopt & Hrem).
    rewrite Hto.
    + rewrite Hms. cbn [foldl length Nat.add]. rewrite Hhead. cbn [default].
      unfold id. apply isRemoteIP_true in Hrem. by rewrite Hrem.
    + rewrite Hms. apply Forall_singleton. split; [|done].
      by destruct (ipn.TailscaleIPs ps).
Qed.

Lemma exitNodeIPOfArg_nonempty (s : string) (st : ipn.Status)
    (ip : netip.Addr) :
  exitNodeIPOfArg s st = (ip, None) → s ≠ "".
Proof.
  intros H ->. unfold ipn.exitNodeIPOfArg in H.
  rewrite bool_decide_eq_true_2 in H by done. done.
Qed.

Lemma exitNodeIPOfArg_by_address (s : string) (st : ipn.Status)
    (ip ip' : netip.Addr) :
  ParseAddr s = Some ip' →
  exitNodeIPOfArg s st = (ip, None) →
  ip = ip' ∧ (ip ∉ ipn.Self_TailscaleIPs st) ∧
  (ipn.BackendState st = "Running" →
   ∃ ps, ps ∈ ipn.Peer st ∧ ip ∈ ipn.TailscaleIPs ps ∧
         ipn.ExitNodeOption ps = true).
Proof.
  intros Hparse H. pose proof (exitNodeIPOfArg_nonempty _ _ _ H) as Hs.
  unfold ipn.exitNodeIPOfArg in H.
  rewrite bool_decide_eq_false_2, Hparse in H by done.
  case_bool_decide as Hrun.
  - unfold ipn.peerWithTailscaleIP in H.
    destruct (ipn.peerWithTailscaleIP_loop _ _) as [ps|] eqn:Hps; [|done].
    destruct (ipn.ExitNodeOption ps) eqn:Hopt; cbn [negb] in H; [|done].
    destruct (ipn.isRemoteIP st ip') eqn:Hrem; cbn [negb] in H; [|done].
    injection H as <-. apply isRemoteIP_true in Hrem.
    apply peerWithTailscaleIP_loop_Some in Hps as [??]. naive_solver.
  - destruct (ipn.isRemoteIP st ip') eqn:Hrem; cbn [negb] in H; [|done].
    injection H as <-. apply isRemoteIP_true in Hrem. done.
Qed.

Lemma exitNodeIPOfArg_remote (s : string) (st : ipn.Status)
    (ip : netip.Addr) :
  exitNodeIPOfArg s st = (ip, None) → ip ∉ ipn.Self_TailscaleIPs st.
Proof.
  intros H. pose proof (exitNodeIPOfArg_nonempty _ _ _ H) as Hs.
  destruct (ParseAddr s) as [ip'|] eqn:Hparse.
  - by apply (exitNodeIPOfArg_by_address _ _ _ _ Hparse) in H as (_ & ? & _).
  - by apply exitNodeIPOfArg_by_name in H as (ps & ? & ? & ? & ?).
Qed.

(** X15. What a successful [exitNodeIPOfArg] has checked.  When it
    returns an address and no error, the argument is not empty and the
    address is none of the node's own addresses.  If the argument is an IP
    address, the result is that address, and with the backend running a
    peer that has it advertises an exit node.  If it is not, exactly one
    peer has the argument as base name (up to case), that peer
    advertises an exit node and the result is its first address. *)
Theorem exitNodeIPOfArg_success (s : string) (st : ipn.Status)
    (ip : netip.Addr) :
  exitNodeIPOfArg s st = (ip, None) →
  s ≠ "" ∧ (ip ∉ ipn.Self_TailscaleIPs st) ∧
  match ParseAddr s with
  | Some ip' =>
      ip = ip' ∧
      (ipn.BackendState st = "Running" →
       ∃ ps, ps ∈ ipn.Peer st ∧ ip ∈ ipn.TailscaleIPs ps ∧
             ipn.ExitNodeOption ps = true)
  | None =>
      ∃ ps, named s st = [ps] ∧ head (ipn.TailscaleIPs ps) = Some ip ∧
            ipn.ExitNodeOption ps = true
  end.
Proof.
  intros H. pose proof (exitNodeIPOfArg_nonempty _ _ _ H) as Hs.
  split; [done|]. split; [by eapply exitNodeIPOfArg_remote|].
  destruct (ParseAddr s) as [ip'|] eqn:Hparse.
  - by apply (exitNodeIPOfArg_by_address _ _ _ _ Hparse) in H as (? & _ & ?).
  - apply exitNodeIPOfArg_by_name in H as (ps & ? & ? & ? & ?); [|done..].
    by exists ps.
Qed.

(** X16. A name is resolved independently of the order of the peers.  The
    peers are the entries of a Go map, which a [range] loop visits in an
    order of its own.  When the argument is not an IP address and
    [exitNodeIPOfArg] succeeds for one order of the peers, it succeeds
    with the same address for every other order. *)
Theorem exitNodeIPOfArg_name_order (s : string) (st st' : ipn.Status)
    (ip : netip.Addr) :
  ParseAddr s = None →
  ipn.Peer st ≡ₚ ipn.Peer st' →
  ipn.MagicDNSSuffix st = ipn.MagicDNSSuffix st' →
  ipn.Self_TailscaleIPs st = ipn.Self_TailscaleIPs st' →
  exitNodeIPOfArg s st = (ip, None) →
  exitNodeIPOfArg s st' = (ip, None).
Proof.
  intros Hparse Hperm Hsuf Hself H.
  pose proof (exitNodeIPOfArg_nonempty _ _ _ H) as Hs.
  apply exitNodeIPOfArg_by_name in H as (ps & Hms & ? & ? & ?); [|done..].
  apply exitNodeIPOfArg_by_name; [done..|].
  exists ps. rewrite <- Hself, <- Hsuf. split_and!; try done.
  apply Permutation_singleton_r. rewrite <- Hms.
  symmetry. by apply filter_Permutation.
Qed.

Lemma SetExitNodeIP_after_clear (s : string) (st : ipn.Status)
    (p p0 : Prefs) (r : Prefs * option ipn.error) :
  ipn.ClearExitNode (Some p) = Some p0 →
  SetExitNodeIP s st (Some p0) = Some r →
  r.2 = (exitNodeIPOfArg s st).2.
Proof.
  intros [= <-]. unfold ipn.SetExitNodeIP. cbn [mbind option_bind].
  assert (ipn.ExitNodeID (ipn.with_ExitNode "" netip.AddrZero p) = "") as ->
    by by destruct p.
  rewrite bool_decide_eq_true_2 by done. cbn [negb].
  destruct (exitNodeIPOfArg s st) as [ip [e|]]; by intros [= <-].
Qed.

End ipn_properties.

(** ** Instances of the properties of the preferences *)

Local Abbreviation same_persist :=
  (λ x y : option nat, bool_decide (x = y)).

Lemma Equals_equivalence_up_to_Egg_witness :
  (∀ x, same_persist x x = true) ∧
  ∃ p', ipn.Prefs_Field_Set ipn.zeroPrefs 15 (ipn.VBool true) = Some p' ∧
        ipn.Egg p' = true ∧
        ipn.IsEmpty same_persist (Some p') = Some true.
Proof.
  assert (Hrefl : ∀ x, same_persist x x = true)
    by (intros x; by apply bool_decide_eq_true_2).
  assert (Hsym : ∀ x y, same_persist x y = true → same_persist y x = true)
    by (intros x y; rewrite !bool_decide_eq_true; congruence).
  assert (Htrans : ∀ x y z, same_persist x y = true →
                            same_persist y z = true → same_persist x z = true)
    by (intros x y z; rewrite !bool_decide_eq_true; congruence).
  split; [assumption|].
  destruct (Equals_equivalence_up_to_Egg same_persist Hrefl Hsym Htrans)
    as (_ & _ & _ & _ & _ & Hempty).
  eexists. split; [reflexivity|]. split; [reflexivity|].
  by apply (Hempty _ true).
Defined.

Local Abbreviation route10 := (netip.PrefixFrom (netip.IPv4 10 0 0 0) 8).
Local Abbreviation route192 := (netip.PrefixFrom (netip.IPv4 192 168 0 0) 16).

Lemma SetAdvertiseExitNode_filters_in_place_witness :
  let h : gmap nat (list netip.Prefix) :=
    {[ 7%nat := [route10; ipn.exitRoute4; route192; ipn.zeroPrefix] ]} in
  let all := {| slices.ptr := 7; slices.len := 3; slices.cap := 4 |} in
  h !! slices.ptr all = Some [route10; ipn.exitRoute4; route192; ipn.zeroPrefix] ∧
  ∃ h' routes,
    ipn.SetAdvertiseExitNode_slice (λ n, n) false h all = Some (h', routes) ∧
    slices.elems h' routes = [route10; route192] ∧
    slices.ptr routes = 7%nat.
Proof.
  intros h all.
  assert (Hh : h !! slices.ptr all =
               Some [route10; ipn.exitRoute4; route192; ipn.zeroPrefix])
    by (vm_compute; reflexivity).
  split; [assumption|].
  destruct (SetAdvertiseExitNode_filters_in_place (λ n, n) false h all _ Hh)
    as (h' & routes & Hrun & Hel & Hlen & Hptr & _);
    [reflexivity|vm_compute; lia|].
  exists h', routes. split_and!; [assumption| |].
  - rewrite Hel. vm_compute. reflexivity.
  - apply Hptr. specialize (Hlen eq_refl). cbn in Hlen |- *. lia.
Defined.

Local Abbreviation parse :=
  (λ s : string, if bool_decide (s = "100.64.0.2")
                 then Some (netip.IPv4 100 64 0 2) else None).
Local Abbreviation trim := (λ name suffix : string, name).
Local Abbreviation fold_eq := (λ s t : string, bool_decide (s = t)).

Local Abbreviation exit_peer :=
  {| ipn.DNSName := "exit"; ipn.TailscaleIPs := [netip.IPv4 100 64 0 2];
     ipn.ExitNodeOption := true |}.
Local Abbreviation laptop_peer :=
  {| ipn.DNSName := "laptop"; ipn.TailscaleIPs := [netip.IPv4 100 64 0 3];
     ipn.ExitNodeOption := false |}.
Local Abbreviation tailnet peers :=
  {| ipn.BackendState := "Running";
     ipn.Self_TailscaleIPs := [netip.IPv4 100 64 0 1];
     ipn.Peer := peers; ipn.MagicDNSSuffix := "example.ts.net" |}.

Lemma exitNodeIPOfArg_success_witness :
  ipn.exitNodeIPOfArg parse trim fold_eq "exit"
    (tailnet [laptop_peer; exit_peer]) = (netip.IPv4 100 64 0 2, None) ∧
  netip.IPv4 100 64 0 2 ∉ [netip.IPv4 100 64 0 1].
Proof.
  assert (H : ipn.exitNodeIPOfArg parse trim fold_eq "exit"
                (tailnet [laptop_peer; exit_peer]) =
              (netip.IPv4 100 64 0 2, None)) by (vm_compute; reflexivity).
  split; [assumption|].
  by destruct (exitNodeIPOfArg_success parse trim fold_eq _ _ _ H)
    as (_ & Hrem & _).
Defined.

Lemma exitNodeIPOfArg_name_order_witness :
  parse "exit" = None ∧
  [laptop_peer; exit_peer] ≡ₚ [exit_peer; laptop_peer] ∧
  ipn.exitNodeIPOfArg parse trim fold_eq "exit"
    (tailnet [laptop_peer; exit_peer]) = (netip.IPv4 100 64 0 2, None) ∧
  ipn.exitNodeIPOfArg parse trim fold_eq "exit"
    (tailnet [exit_peer; laptop_peer]) = (netip.IPv4 100 64 0 2, None).
Proof.
  assert (Hp : parse "exit" = None) by (vm_compute; reflexivity).
  assert (Hperm : [laptop_peer; exit_peer] ≡ₚ [exit_peer; laptop_peer])
    by apply perm_swap.
  assert (H : ipn.exitNodeIPOfArg parse trim fold_eq "exit"
                (tailnet [laptop_peer; exit_peer]) =
              (netip.IPv4 100 64 0 2, None)) by (vm_compute; reflexivity).
  split_and!; [assumption..|].
  exact (exitNodeIPOfArg_name_order parse trim fold_eq "exit"
           (tailnet [laptop_peer; exit_peer])
           (tailnet [exit_peer; laptop_peer]) _ Hp Hperm eq_refl eq_refl H).
Defined.
